(** * The busybox [patch] applet (editors/patch_bbox.c)

    A shallow embedding of the applet and the properties of its hunk
    engine, filename extractor and result finalizer.

    Conventions of the embedding.
    - Text is a [string]; it holds no NUL byte, as the C strings of the
      applet cannot.
    - A stream ([FILE *]) that is only read is the list of the chunks that
      [xmalloc_fgets] will deliver, in order; a stream that is only written
      is the list of the strings passed to [fputs], in order.
    - An [unsigned] is a [Z] in the range [0, 2^32); every C operation that
      can leave the range is followed by [u32].
    - The file system is a finite map from path names to nodes.  A path
      names a node under its spelling: the map does not tell that two
      spellings name one place.  System calls do not fail for lack of
      permission or space; a file is opened for writing and a node is
      renamed whatever else the disk holds, as the exits of
      [xfopen_for_write] and [xrename] are not part of the model.  The
      properties that depend on it say what the disk must be like. *)

From stdpp Require Import base gmap strings list fin_maps.
From Stdlib Require Import ZArith Ascii String Lia.

Local Open Scope Z_scope.

(** ** C strings *)

Module CStr.

Definition newline : ascii := "010"%char.
Definition tab : ascii := "009"%char.
Definition cr : ascii := "013"%char.
Definition vt : ascii := "011"%char.
Definition ff : ascii := "012"%char.
Definition NUL : ascii := "000"%char.

Definition nl : string := String newline "".

(** [*s] : the first character, NUL for the empty string. *)
Definition head_char (s : string) : ascii :=
  match s with
  | "" => NUL
  | String c _ => c
  end.

(** [s + 1] for a non-empty [s]. *)
Definition tail (s : string) : string :=
  match s with
  | "" => ""
  | String _ s' => s'
  end.

(** [s + n]. *)
Fixpoint str_drop (n : nat) (s : string) : string :=
  match n, s with
  | O, _ => s
  | S n', String _ s' => str_drop n' s'
  | S _, "" => ""
  end.

Fixpoint str_take (n : nat) (s : string) : string :=
  match n, s with
  | S n', String c s' => String c (str_take n' s')
  | _, _ => ""
  end.

(** [strcmp (a, b) == 0]. *)
Definition streq (a b : string) : bool := bool_decide (a = b).

(** [strncmp (a, b, 4) == 0]. *)
Definition strneq4 (a b : string) : bool := streq (str_take 4 a) (str_take 4 b).

(** [line[strcspn (line, "\t\n\r")] = '\0']. *)
Fixpoint cut_at_tab_nl_cr (s : string) : string :=
  match s with
  | "" => ""
  | String c s' =>
      if bool_decide (c = tab) || bool_decide (c = newline) || bool_decide (c = cr)
      then ""
      else String c (cut_at_tab_nl_cr s')
  end.

(** [strchr (s, c)]: the suffix of [s] that starts at the first [c]. *)
Fixpoint strchr (s : string) (c : ascii) : option string :=
  match s with
  | "" => None
  | String c' s' => if bool_decide (c' = c) then Some s else strchr s' c
  end.

(** [strrchr (s, c)], as the pair of what precedes the last [c] and what
    follows it. *)
Fixpoint split_last (s : string) (c : ascii) : option (string * string) :=
  match s with
  | "" => None
  | String c' s' =>
      match split_last s' c with
      | Some (dir, base) => Some (String c' dir, base)
      | None => if bool_decide (c' = c) then Some ("", s') else None
      end
  end.

Fixpoint count_char (c : ascii) (s : string) : nat :=
  match s with
  | "" => O
  | String c' s' => (if bool_decide (c' = c) then 1 else 0) + count_char c s'
  end.

Fixpoint last_char (s : string) : ascii :=
  match s with
  | "" => NUL
  | String c "" => c
  | String _ s' => last_char s'
  end.

Fixpoint concat (l : list string) : string :=
  match l with
  | [] => ""
  | s :: l' => s +:+ concat l'
  end.

End CStr.

(** ** libbb line readers *)

Module Lines.
Import CStr.

(** Modelled from the spec: libbb's [xmalloc_fgets] is not part of the
    file at hand.  It is the "Line Source" of the specification, a
    forward-only reader that returns the next line of a stream and NULL at
    the end of the stream.  The line comes with its newline: the applet
    compares the lines it reads from the source with those it reads from
    the patch by [strcmp] and writes both by [fputs], and adds no newline.
    A last line with no newline is returned as it is.
    [chunks s] lists what successive calls return on a stream holding [s]. *)
Fixpoint chunks (s : string) : list string :=
  match s with
  | "" => []
  | String c s' =>
      if bool_decide (c = newline) then nl :: chunks s'
      else match chunks s' with
           | [] => [String c ""]
           | l :: ls => String c l :: ls
           end
  end.

Definition stream := list string.

Definition xmalloc_fgets (f : stream) : option (string * stream) :=
  match f with
  | [] => None
  | l :: f' => Some (l, f')
  end.

(** Modelled from the spec: libbb's [xmalloc_fgetline], the same reader
    with one trailing newline removed from the line it returns. *)
Fixpoint chomp (s : string) : string :=
  match s with
  | "" => ""
  | String c "" => if bool_decide (c = newline) then "" else s
  | String c s' => String c (chomp s')
  end.

Definition xmalloc_fgetline (f : stream) : option (string * stream) :=
  match f with
  | [] => None
  | l :: f' => Some (chomp l, f')
  end.

(** A text of newline-terminated lines. *)
Definition text (ls : list string) : string := concat (map (λ l, l +:+ nl) ls).

End Lines.

(** ** The filename extractor *)

Module Filename.
Import CStr.

(** The loop [while (patch_level--) { temp = strchr (start, '/'); if (!temp)
    break; start = temp + 1; }].  [start] is [filename_start_ptr] and [cur]
    the position of the running [strchr] inside it; the recursion follows
    [cur].  The level is an [int]; it is decremented at most once for each
    '/' of the name, so that it stays in range. *)
Fixpoint skip_dirs (patch_level : Z) (start cur : string) : string :=
  if patch_level =? 0 then start
  else match cur with
       | "" => start
       | String c rest =>
           if bool_decide (c = "/"%char) then skip_dirs (patch_level - 1) rest rest
           else skip_dirs patch_level start rest
       end.

Definition extract_filename (line : string) (patch_level : Z) (pat : string)
  : option string :=
  if strneq4 line pat then
    let line := cut_at_tab_nl_cr line in
    let filename_start_ptr := str_drop 4 line in
    Some (skip_dirs patch_level filename_start_ptr filename_start_ptr)
  else None.

End Filename.

(** ** Hunk headers: the two [sscanf] calls *)

Module Scanf.
Import CStr.

Definition u32 (z : Z) : Z := z mod 2 ^ 32.

(** [isspace]. *)
Definition is_space (c : ascii) : bool :=
  bool_decide (c = " "%char) || bool_decide (c = tab) || bool_decide (c = newline)
  || bool_decide (c = vt) || bool_decide (c = ff) || bool_decide (c = cr).

Fixpoint skip_space (s : string) : string :=
  match s with
  | "" => ""
  | String c s' => if is_space c then skip_space s' else s
  end.

Definition digit_val (c : ascii) : option Z :=
  let n := Z.of_nat (nat_of_ascii c) in
  if (48 <=? n) && (n <=? 57) then Some (n - 48) else None.

Fixpoint scan_digits (acc : Z) (s : string) : Z * string :=
  match s with
  | "" => (acc, "")
  | String c s' =>
      match digit_val c with
      | Some d => scan_digits (10 * acc + d) s'
      | None => (acc, s)
      end
  end.

(** The number that [strtol] returns for a numeral: a [long] of 64 bits, the
    nearest bound when the numeral is beyond the bounds. *)
Definition to_long (z : Z) : Z := Z.max (- 2 ^ 63) (Z.min z (2 ^ 63 - 1)).

(** The conversion [%d]: white space, an optional sign, one digit or more.
    The numeral is converted as [strtol] converts it; the [long] is reduced
    to 32 bits where it is stored. *)
Definition scan_int (s : string) : option (Z * string) :=
  let s := skip_space s in
  let '(neg, s) :=
    match s with
    | String c s' =>
        if bool_decide (c = "-"%char) then (true, s')
        else if bool_decide (c = "+"%char) then (false, s')
        else (false, s)
    | "" => (false, s)
    end in
  match digit_val (head_char s) with
  | Some _ =>
      let '(n, rest) := scan_digits 0 s in Some (to_long (if neg then - n else n), rest)
  | None => None
  end.

(** A [sscanf] format: a literal character, white space, or [%d]. *)
Inductive directive := Lit (c : ascii) | Space | Int.

(** [sscanf (s, fmt, ...)]: the values converted before the first failure,
    in order.  The call returns their number (or EOF, which the applet does
    not tell from 0) and stores the n-th value in its n-th pointer. *)
Fixpoint sscanf (fmt : list directive) (s : string) : list Z :=
  match fmt with
  | [] => []
  | Lit c :: fmt' =>
      match s with
      | String c' s' => if bool_decide (c' = c) then sscanf fmt' s' else []
      | "" => []
      end
  | Space :: fmt' => sscanf fmt' (skip_space s)
  | Int :: fmt' =>
      match scan_int s with
      | Some (n, s') => n :: sscanf fmt' s'
      | None => []
      end
  end.

(** ["@@ -%d,%d +%d,%d"] *)
Definition fmt_full : list directive :=
  [Lit "@"; Lit "@"; Space; Lit "-"; Int; Lit ","; Int; Space; Lit "+"; Int; Lit ","; Int]%char.

(** ["@@ -%d +%d,%d"] *)
Definition fmt_short : list directive :=
  [Lit "@"; Lit "@"; Space; Lit "-"; Int; Space; Lit "+"; Int; Lit ","; Int]%char.

Record header := {
  h_src_beg : Z;   (* src_beg_line *)
  h_src_last : Z;  (* src_last_line, the count until the cursor is added *)
  h_dst_beg : Z;   (* dst_beg_line *)
  h_dst_last : Z;  (* dst_last_line, likewise *)
}.

(** The test [sscanf (..) < 3 && sscanf (..) < 2] of the hunk loop, with the
    stores it makes.  [src_last_line] and [dst_last_line] start at 1; None
    is "no more hunks for this file".  When the test fails no store has
    reached [dst_beg_line]. *)
Definition scan_hunk_header (patch_line : string) : option header :=
  match sscanf fmt_full patch_line with
  | [a; b; c] => Some {| h_src_beg := u32 a; h_src_last := u32 b; h_dst_beg := u32 c; h_dst_last := 1 |}
  | [a; b; c; d] => Some {| h_src_beg := u32 a; h_src_last := u32 b; h_dst_beg := u32 c; h_dst_last := u32 d |}
  | first =>
      let src_last_line := match first with [_; b] => u32 b | _ => 1 end in
      match sscanf fmt_short patch_line with
      | [a; c] => Some {| h_src_beg := u32 a; h_src_last := src_last_line; h_dst_beg := u32 c; h_dst_last := 1 |}
      | [a; c; d] => Some {| h_src_beg := u32 a; h_src_last := src_last_line; h_dst_beg := u32 c; h_dst_last := u32 d |}
      | _ => None
      end
  end.

(** The reverse patch: both pairs are exchanged. *)
Definition swap (h : header) : header :=
  {| h_src_beg := h_dst_beg h; h_src_last := h_dst_last h;
     h_dst_beg := h_src_beg h; h_dst_last := h_src_last h |}.

End Scanf.

(** ** The hunk engine *)

Module Engine.
Import CStr Lines Scanf.

(** The options, as [getopt32] and [xatoi] leave them. *)
Record config := {
  patch_level : Z;     (* -p, an int; "-1" when absent *)
  opt_R : bool;        (* OPT_R *)
  opt_N : bool;        (* OPT_N *)
  opt_dry_run : bool;  (* OPT_dry_run *)
}.

(** [char plus = '+'; if (opt & OPT_R) plus = '-';] *)
Definition plus (cfg : config) : ascii :=
  if opt_R cfg then "-"%char else "+"%char.

(** What the applet prints. *)
Inductive message :=
| PatchingFile (new_filename : string)   (* "patching file %s" *)
| HunkFailed (hunk offset : Z)           (* "hunk #%u FAILED at %u" *)
| HunksFailed (bad total : Z)            (* "%u out of %u hunk FAILED" *)
| BadSrcFile                             (* "bad src file", and exit *)
| InvalidPatch.                          (* "invalid patch", and exit *)

(** The locals of one turn of the loop over the files. *)
Record file_state := {
  src_stream : option stream;        (* NULL, or what is left to read *)
  dst_stream : list string;          (* what was written *)
  src_cur_line : Z;
  dst_cur_line : Z;
  dst_beg_line : Z;
  bad_hunk_count : Z;
  hunk_count : Z;
  copy_trailing_lines_flag : bool;
  log : list message;
}.

Definition with_header (st : file_state) (dst_beg : Z) : file_state :=
  {| src_stream := src_stream st; dst_stream := dst_stream st;
     src_cur_line := src_cur_line st; dst_cur_line := dst_cur_line st;
     dst_beg_line := dst_beg;
     bad_hunk_count := bad_hunk_count st; hunk_count := u32 (hunk_count st + 1);
     copy_trailing_lines_flag := copy_trailing_lines_flag st; log := log st |}.

Definition with_copy (st : file_state) (src : option stream) (dst : list string)
    (count : Z) : file_state :=
  {| src_stream := src; dst_stream := dst;
     src_cur_line := u32 (src_cur_line st + count);
     dst_cur_line := u32 (dst_cur_line st + count);
     dst_beg_line := dst_beg_line st;
     bad_hunk_count := bad_hunk_count st; hunk_count := hunk_count st;
     copy_trailing_lines_flag := true; log := log st |}.

Definition with_streams (st : file_state) (src : option stream) (dst : list string)
    : file_state :=
  {| src_stream := src; dst_stream := dst;
     src_cur_line := src_cur_line st; dst_cur_line := dst_cur_line st;
     dst_beg_line := dst_beg_line st;
     bad_hunk_count := bad_hunk_count st; hunk_count := hunk_count st;
     copy_trailing_lines_flag := copy_trailing_lines_flag st; log := log st |}.

(** [src_line = xmalloc_fgets (src_stream)] followed by [src_cur_line++]. *)
Definition with_src_read (st : file_state) (rest : stream) : file_state :=
  {| src_stream := Some rest; dst_stream := dst_stream st;
     src_cur_line := u32 (src_cur_line st + 1); dst_cur_line := dst_cur_line st;
     dst_beg_line := dst_beg_line st;
     bad_hunk_count := bad_hunk_count st; hunk_count := hunk_count st;
     copy_trailing_lines_flag := copy_trailing_lines_flag st; log := log st |}.

(** [fputs (s, dst_stream); dst_cur_line++;] *)
Definition with_dst_write (st : file_state) (s : string) : file_state :=
  {| src_stream := src_stream st; dst_stream := dst_stream st ++ [s];
     src_cur_line := src_cur_line st; dst_cur_line := u32 (dst_cur_line st + 1);
     dst_beg_line := dst_beg_line st;
     bad_hunk_count := bad_hunk_count st; hunk_count := hunk_count st;
     copy_trailing_lines_flag := copy_trailing_lines_flag st; log := log st |}.

(** [bb_error_msg ("hunk #%u FAILED at %u", ..); bad_hunk_count++;] *)
Definition with_failure (st : file_state) (hunk_offset_start : Z) : file_state :=
  {| src_stream := src_stream st; dst_stream := dst_stream st;
     src_cur_line := src_cur_line st; dst_cur_line := dst_cur_line st;
     dst_beg_line := dst_beg_line st;
     bad_hunk_count := u32 (bad_hunk_count st + 1); hunk_count := hunk_count st;
     copy_trailing_lines_flag := copy_trailing_lines_flag st;
     log := log st ++ [HunkFailed (hunk_count st) hunk_offset_start] |}.

Definition with_message (st : file_state) (m : message) : file_state :=
  {| src_stream := src_stream st; dst_stream := dst_stream st;
     src_cur_line := src_cur_line st; dst_cur_line := dst_cur_line st;
     dst_beg_line := dst_beg_line st;
     bad_hunk_count := bad_hunk_count st; hunk_count := hunk_count st;
     copy_trailing_lines_flag := copy_trailing_lines_flag st;
     log := log st ++ [m] |}.

(** [copy_lines]: the source left, the destination, and the count left. *)
Fixpoint copy_from (src : stream) (dst : list string) (lines_count : Z)
  : stream * list string * Z :=
  match src with
  | [] => ([], dst, lines_count)
  | line :: src' =>
      if lines_count =? 0 then (src, dst, lines_count)
      else copy_from src' (dst ++ [line]) (u32 (lines_count - 1))
  end.

Definition copy_lines (src_stream : option stream) (dst_stream : list string)
    (lines_count : Z) : option stream * list string * Z :=
  match src_stream with
  | None => (None, dst_stream, lines_count)
  | Some src =>
      let '(src', dst', remaining) := copy_from src dst_stream lines_count in
      (Some src', dst', remaining)
  end.

(** One turn of the loop that handles one hunk, from the line just read. *)
Inductive step_result :=
| Continue (st : file_state)
| Break (st : file_state) (patch_line : string).

Definition is_edit_char (c : ascii) : bool :=
  bool_decide (c = "-"%char) || bool_decide (c = "+"%char) || bool_decide (c = " "%char).

(** Lines 264-267: the bound on the destination, then the write. *)
Definition emit (dst_last_line : Z) (st : file_state) (patch_line : string)
  : step_result :=
  if dst_cur_line st =? dst_last_line then Break st patch_line
  else Continue (with_dst_write st (tail patch_line)).

(** Lines 241-250: [src_line] is non-NULL afterwards iff the flag is set. *)
Definition read_src (st : file_state) (patch_line : string) : bool * file_state :=
  match src_stream st with
  | None => (false, st)
  | Some [] => (false, st)
  | Some (src_line :: rest) =>
      (streq src_line (tail patch_line), with_src_read st rest)
  end.

Definition edit_step (cfg : config) (hunk_offset_start src_last_line dst_last_line : Z)
    (st : file_state) (line : string) : step_result :=
  (* whitespace-damaged patch with "" lines *)
  let patch_line := if bool_decide (line = "") then " " else line in
  let c := head_char patch_line in
  if negb (is_edit_char c) then Break st patch_line       (* End of hunk *)
  else if negb (bool_decide (c = plus cfg)) then          (* '-' or ' ' *)
    if src_cur_line st =? src_last_line then Break st patch_line
    else
      let '(src_line, st) := read_src st patch_line in
      (* Do not patch an already patched hunk with -N *)
      if negb src_line && opt_N cfg then Continue st
      else if negb src_line then Break (with_failure st hunk_offset_start) patch_line
      else if negb (bool_decide (c = " "%char)) then Continue st    (* '-' *)
      else emit dst_last_line st patch_line
  else emit dst_last_line st patch_line.

(** The loop that handles one hunk.  It returns with [patch_line] (NULL at
    the end of the patch) and with what is left of the patch. *)
Fixpoint edit_loop (cfg : config) (hunk_offset_start src_last_line dst_last_line : Z)
    (st : file_state) (patch_file : stream) : file_state * option string * stream :=
  match patch_file with
  | [] => (st, None, [])
  | line :: patch_file' =>
      match edit_step cfg hunk_offset_start src_last_line dst_last_line st line with
      | Continue st' =>
          edit_loop cfg hunk_offset_start src_last_line dst_last_line st' patch_file'
      | Break st' patch_line => (st', Some patch_line, patch_file')
      end
  end.

(** The header as the hunk uses it: exchanged for a reverse patch. *)
Definition oriented (cfg : config) (h : header) : header :=
  if bool_decide (plus cfg = "+"%char) then h else swap h.

(** Lines 206-220: the count of hunks, the copy of the lines up to the
    hunk, and the two bounds.  The left result is the exit on "bad src file". *)
Definition hunk_begin (st : file_state) (h : header)
  : file_state + (file_state * Z * Z * Z) :=
  let st := with_header st (h_dst_beg h) in
  let copied :=
    if negb (h_src_beg h =? 0) && negb (h_dst_beg h =? 0) then
      let count := u32 (h_src_beg h - src_cur_line st) in
      let '(src, dst, remaining) := copy_lines (src_stream st) (dst_stream st) count in
      if negb (remaining =? 0) then inl (with_message (with_streams st src dst) BadSrcFile)
      else inr (with_copy st src dst count)
    else inr st in
  match copied with
  | inl st => inl st
  | inr st =>
      let hunk_offset_start := src_cur_line st in
      inr (st, hunk_offset_start,
           u32 (h_src_last h + hunk_offset_start),
           u32 (h_dst_last h + dst_cur_line st))
  end.

Inductive hunks_result :=
| HunksDone (st : file_state) (patch_line : option string) (patch_file : stream)
| HunksDied (st : file_state).

(** The loop over the hunks of one file, entered with a line in hand.  The
    inner [fix] is [edit_loop], written in place so that the recursion
    follows the patch. *)
Fixpoint hunk_loop (cfg : config) (st : file_state) (patch_line : string)
    (patch_file : stream) {struct patch_file} : hunks_result :=
  match scan_hunk_header patch_line with
  | None => HunksDone st (Some patch_line) patch_file   (* No more hunks for this file *)
  | Some h =>
      match hunk_begin st (oriented cfg h) with
      | inl st => HunksDied st
      | inr (st, hunk_offset_start, src_last_line, dst_last_line) =>
          (fix edit (st : file_state) (patch_file : stream) {struct patch_file} :=
             match patch_file with
             | [] => HunksDone st None []
             | line :: patch_file' =>
                 match edit_step cfg hunk_offset_start src_last_line dst_last_line st line with
                 | Continue st' => edit st' patch_file'
                 | Break st' patch_line' => hunk_loop cfg st' patch_line' patch_file'
                 end
             end) st patch_file
      end
  end.

End Engine.

(** ** The file system *)

Module FS.
Import CStr Lines.

Inductive node := File (content : string) | Dir.

Abbreviation filesystem := (gmap string node).

(** Modelled from the spec: libbb's [xfopen_for_read] is not part of the
    file at hand; it opens "the backup for reading as the source stream"
    (or the target, in a dry run).  The result is the list of the lines that
    the stream will deliver.  A directory opens and delivers nothing. *)
Definition xfopen_for_read (path : string) (fs : filesystem) : stream :=
  match fs !! path with
  | Some (File content) => chunks content
  | _ => []
  end.

(** Modelled from the spec: libbb's [xfopen_for_write] is not part of the
    file at hand; it opens "the target fresh for writing": the file is
    created, or emptied.  The call is taken to succeed: its exit, when the
    directory of the path is not there or the path cannot name a file, is
    not modelled. *)
Definition xfopen_for_write (path : string) (fs : filesystem) : filesystem :=
  <[path := File ""]> fs.

(** [fclose] of a stream opened for writing, after the given writes. *)
Definition fclose_written (path : string) (written : list string) (fs : filesystem)
  : filesystem :=
  <[path := File (concat written)]> fs.

(** Modelled from the spec: libbb's [xrename] is not part of the file at
    hand; it renames "the existing file to <target>.orig", in the place of
    what had that name.  The call is taken to succeed: its exit, when a
    directory has the new name, is not modelled. *)
Definition xrename (old new : string) (fs : filesystem) : filesystem :=
  match fs !! old with
  | Some n => <[new := n]> (delete old fs)
  | None => fs
  end.

(** [unlink]: a file is removed.  On a directory, and on a name that is
    free, the call fails and leaves the disk as it is. *)
Definition unlink (path : string) (fs : filesystem) : filesystem :=
  match fs !! path with
  | Some (File _) => delete path fs
  | _ => fs
  end.

Definition ensure_dir (path : string) (fs : filesystem) : filesystem :=
  if bool_decide (path = "") || bool_decide (last_char path = "/"%char) then fs
  else match fs !! path with
       | Some _ => fs
       | None => <[path := Dir]> fs
       end.

Fixpoint make_dirs (done rest : string) (fs : filesystem) : filesystem :=
  match rest with
  | "" => ensure_dir done fs
  | String c rest' =>
      make_dirs (done +:+ String c "") rest'
        (if bool_decide (c = "/"%char) then ensure_dir done fs else fs)
  end.

(** Modelled from the spec: libbb's [bb_make_directory (path, -1,
    FILEUTILS_RECUR)] is not part of the file at hand; it is the external
    collaborator that "creates missing parent directories": the directory
    [path] and each of its ancestors is created where the name is free. *)
Definition bb_make_directory (path : string) (fs : filesystem) : filesystem :=
  make_dirs "" path fs.

End FS.

(** ** [patch_main] *)

Module Patch.
Import CStr Lines Filename Scanf Engine FS.

(** [xfunc_error_retval = 2;] *)
Definition xfunc_error_retval : Z := 2.

(** What the loop over the files carries from one file to the next. *)
Record run_state := {
  fs : filesystem;
  ret : Z;
  out : list message;
}.

(** How the process ends: [return ret], or an exit from one of the
    [.._and_die] calls. *)
Inductive outcome :=
| Returned (r : run_state)
| Died (r : run_state).

Definition final (o : outcome) : run_state :=
  match o with Returned r | Died r => r end.

Definition exit_status (o : outcome) : Z :=
  match o with
  | Returned r => ret r
  | Died _ => xfunc_error_retval
  end.

(** Lines 141-147: the lines up to the "--- " marker are skipped.  The
    result is the line read after the marker and the rest of the patch;
    None is [goto quit]. *)
Fixpoint seek_old (cfg : config) (patch_line : string) (patch_file : stream)
  : option (string * stream) :=
  let new_filename := extract_filename patch_line (patch_level cfg) "--- " in
  match patch_file with
  | [] => None
  | line :: patch_file' =>
      match new_filename with
      | Some _ => Some (chomp line, patch_file')
      | None => seek_old cfg (chomp line) patch_file'
      end
  end.

(** Lines 155-178: the source stream, the backup name, and the file system
    once the destination is open. *)
Definition open_streams (cfg : config) (new_filename : string) (fs : filesystem)
  : filesystem * option stream * option string :=
  let '(fs, src_stream, backup_filename) :=
    match fs !! new_filename with
    | None =>
        let fs := match split_last new_filename "/"%char with
                  | Some (dir, _) => bb_make_directory dir fs   (* Create leading directories *)
                  | None => fs
                  end in
        (fs, None, None)
    | Some _ =>
        if negb (opt_dry_run cfg) then
          let backup_filename := new_filename +:+ ".orig" in
          let fs := xrename new_filename backup_filename fs in
          (fs, Some (xfopen_for_read backup_filename fs), Some backup_filename)
        else (fs, Some (xfopen_for_read new_filename fs), None)
    end in
  let fs := if opt_dry_run cfg then fs   (* "/dev/null" *)
            else xfopen_for_write new_filename fs in
  (fs, src_stream, backup_filename).

Definition initial_state (src : option stream) (out : list message) : file_state :=
  {| src_stream := src; dst_stream := [];
     src_cur_line := 1; dst_cur_line := 0;
     dst_beg_line := 0;   (* not initialized; read only after a header stored it, or
                             behind the test [dst_cur_line == 0] *)
     bad_hunk_count := 0; hunk_count := 0;
     copy_trailing_lines_flag := false; log := out |}.

(** Lines 272-274. *)
Definition copy_trailing (st : file_state) : file_state :=
  if copy_trailing_lines_flag st then
    let '(src, dst, _) := copy_lines (src_stream st) (dst_stream st) (u32 (-1)) in
    with_streams st src dst
  else st.

(** The destination stream reaches the disk when it is closed, or when the
    process exits. *)
Definition flush_dst (cfg : config) (new_filename : string) (st : file_state)
    (fs : filesystem) : filesystem :=
  if opt_dry_run cfg then fs else fclose_written new_filename (dst_stream st) fs.

(** Lines 271-298: "Cleanup last patched file". *)
Definition finish (cfg : config) (new_filename : string) (backup_filename : option string)
    (st : file_state) (fs : filesystem) (ret : Z) : run_state :=
  let st := copy_trailing st in
  let fs := flush_dst cfg new_filename st fs in
  if negb (bad_hunk_count st =? 0) then
    {| fs := fs; ret := 1;
       out := log st ++ [HunksFailed (bad_hunk_count st) (hunk_count st)] |}
  else
    (* It worked, we can remove the backup *)
    let fs := match backup_filename with
              | Some b => unlink b fs
              | None => fs
              end in
    let fs := if negb (opt_dry_run cfg)
                 && ((dst_cur_line st =? 0) || (dst_beg_line st =? 0))
              then unlink new_filename fs   (* The new patched file is empty, remove it *)
              else fs in
    {| fs := fs; ret := ret; out := log st |}.

Inductive section_result :=
| SectionDone (r : run_state) (st : file_state) (patch_line : option string)
    (patch_file : stream)
| SectionDied (r : run_state).

(** Lines 155-298, for the file named by the "+++ " marker: [st] in the
    result is the state of the locals when the loop over the hunks ends. *)
Definition file_section (cfg : config) (r : run_state) (new_filename : string)
    (patch_file : stream) : section_result :=
  let '(fs0, src, backup_filename) := open_streams cfg new_filename (fs r) in
  let st0 := initial_state src (out r ++ [PatchingFile new_filename]) in
  let hunks :=
    match xmalloc_fgets patch_file with
    | None => HunksDone st0 None []
    | Some (patch_line, patch_file) => hunk_loop cfg st0 patch_line patch_file
    end in
  match hunks with
  | HunksDied st =>
      SectionDied {| fs := flush_dst cfg new_filename st fs0; ret := ret r; out := log st |}
  | HunksDone st patch_line patch_file =>
      SectionDone (finish cfg new_filename backup_filename st fs0 (ret r))
        st patch_line patch_file
  end.

(** The loop over the files, lines 125-299, entered with [patch_line].
    [fuel] bounds the number of turns; None is returned when it is used up. *)
Fixpoint file_loop (fuel : nat) (cfg : config) (r : run_state)
    (patch_line : option string) (patch_file : stream) : option outcome :=
  match patch_line with
  | None => Some (Returned r)
  | Some patch_line =>
      match seek_old cfg patch_line patch_file with
      | None => Some (Returned r)    (* goto quit *)
      | Some (patch_line, patch_file) =>
          match extract_filename patch_line (patch_level cfg) "+++ " with
          | None =>
              Some (Died {| fs := fs r; ret := ret r; out := out r ++ [InvalidPatch] |})
          | Some new_filename =>
              match file_section cfg r new_filename patch_file with
              | SectionDied r' => Some (Died r')
              | SectionDone r' _ patch_line patch_file =>
                  match fuel with
                  | O => None
                  | S fuel' => file_loop fuel' cfg r' patch_line patch_file
                  end
              end
          end
      end
  end.

(** [patch_main], on the options, the file system and the text of the
    patch.  Every turn of the loop over the files reads a line or more, so
    that the number of lines is fuel enough. *)
Definition patch_main (cfg : config) (disk : filesystem) (patch : string)
  : option outcome :=
  let r := {| fs := disk; ret := 0; out := [] |} in
  match xmalloc_fgetline (chunks patch) with
  | None => Some (Returned r)
  | Some (patch_line, patch_file) =>
      file_loop (List.length patch_file) cfg r (Some patch_line) patch_file
  end.

End Patch.

Import CStr Lines Filename Scanf Engine FS Patch.

(** * Notions used in the statements *)

Definition node_lines (n : node) : stream :=
  match n with
  | File content => chunks content
  | Dir => []
  end.

Definition scenario_patch : string :=
  text ["--- a/f"; "+++ b/f"; "@@ -1,2 +1,2 @@"; "-foo"; "+bar"; " baz"].

(** The number of leading segments that the loop drops from [path]: all of
    them for a negative level. *)
Definition segments_dropped (level : Z) (path : string) : nat :=
  if level <? 0 then count_char "/" path
  else Nat.min (Z.to_nat level) (count_char "/" path).

Definition marker (old : bool) : string := if old then "--- " else "+++ ".

Definition blank_patch : string :=
  text ["--- a/f"; "+++ b/f"; "@@ -1,3 +1,3 @@"; " a"; ""; "-c"; "+d"].

Definition new_file_patch : string :=
  text ["--- a/d/f"; "+++ b/d/f"; "@@ -0,0 +1 @@"; "+x"].

Definition src_lines (st : file_state) : stream := default [] (src_stream st).

Definition unsigned (z : Z) : Prop := 0 ≤ z < 2 ^ 32.

Definition state_of (res : step_result) : file_state :=
  match res with Continue st | Break st _ => st end.


Definition forward : config :=
  {| patch_level := 1; opt_R := false; opt_N := false; opt_dry_run := false |}.


(** A hunk whose body is longer than its header declares. *)
Definition long_hunk_header : string := "@@ -1,1 +1,1 @@" +:+ nl.

Definition long_hunk_body : stream :=
  ["-a" +:+ nl; "+x" +:+ nl; "-b" +:+ nl; "+y" +:+ nl].

Definition long_hunk_start : file_state :=
  initial_state (Some ["a" +:+ nl; "b" +:+ nl; "c" +:+ nl]) [].

Definition long_hunk_begun : file_state :=
  Eval vm_compute in
    match hunk_begin long_hunk_start {| h_src_beg := 1; h_src_last := 1;
                                        h_dst_beg := 1; h_dst_last := 1 |} with
    | inr (st, _, _, _) => st
    | inl st => st
    end.

Definition long_hunk_end : file_state * option string * stream :=
  Eval vm_compute in edit_loop forward 1 2 1 long_hunk_begun long_hunk_body.

(** Two hunks, the first of which does not match the file a, b, c, d. *)
Definition two_hunk_patch : string :=
  text ["--- a/f"; "+++ b/f";
        "@@ -1,1 +1,1 @@"; "-x"; "+y";
        "@@ -3,1 +3,1 @@"; "-c"; "+C"].

(** The file a, b, c, d, and the lines of [two_hunk_patch] that follow its
    markers. *)
Definition two_hunk_run : run_state :=
  {| fs := {[ "f" := File (text ["a"; "b"; "c"; "d"]) ]}; ret := 0; out := [] |}.

Definition two_hunk_lines : stream :=
  chunks (text ["@@ -1,1 +1,1 @@"; "-x"; "+y"; "@@ -3,1 +3,1 @@"; "-c"; "+C"]).

(** A hunk whose destination starts at line 0 and which writes a line. *)
Definition zero_start_patch : string :=
  text ["--- a/f"; "+++ b/f"; "@@ -1,1 +0,1 @@"; "-a"; "+b"].

Definition is_hunk_failed (m : message) : bool :=
  match m with HunkFailed _ _ => true | _ => false end.

(** Some hunk was reported as failed. *)
Definition some_hunk_failed (msgs : list message) : bool := existsb is_hunk_failed msgs.

Definition is_fatal (m : message) : bool :=
  match m with BadSrcFile | InvalidPatch => true | _ => false end.

(** Nothing was counted or reported between two states. *)
Definition quiet (st st' : file_state) : Prop :=
  bad_hunk_count st' = bad_hunk_count st ∧ log st' = log st.

(** One failure was counted and reported between two states. *)
Definition failed_once (st st' : file_state) : Prop :=
  bad_hunk_count st' = u32 (bad_hunk_count st + 1)
  ∧ ∃ hunk offset, log st' = log st ++ [HunkFailed hunk offset].

(** Scenario B of the specification: the first line of the file differs. *)
Definition scenario_B_disk : filesystem := {[ "f" := File (text ["qux"; "baz"]) ]}.

(** The return value agrees with the reports of failed hunks. *)
Definition status_agrees (r : run_state) : Prop :=
  ret r = if some_hunk_failed (out r) then 1 else 0.

(** The last message is that of an exit. *)
Definition ends_fatal (r : run_state) : Prop :=
  ∃ msgs m, out r = msgs ++ [m] ∧ is_fatal m = true.

Definition zero_start_run : run_state :=
  {| fs := {[ "f" := File (text ["a"]) ]}; ret := 0; out := [] |}.

Definition zero_start_hunk : stream := chunks (text ["@@ -1,1 +0,1 @@"; "-a"; "+b"]).

(** Two hunks on the file a, b: the first declares the destination start 1,
    the second the destination start 0. *)
Definition two_start_run : run_state :=
  {| fs := {[ "f" := File (text ["a"; "b"]) ]}; ret := 0; out := [] |}.

Definition two_start_hunks : stream :=
  chunks (text ["@@ -1,1 +1,1 @@"; "-a"; "+A"; "@@ -2,1 +0,1 @@"; "-b"; "+B"]).

Definition scenario_B_run : run_state :=
  {| fs := scenario_B_disk; ret := 0; out := [] |}.

Definition scenario_hunk : stream :=
  chunks (text ["@@ -1,2 +1,2 @@"; "-foo"; "+bar"; " baz"]).

(** ** Consistent patches *)

(** The options of a forward and of a reverse run at a strip level. *)
Definition forward_at (level : Z) : config :=
  {| patch_level := level; opt_R := false; opt_N := false; opt_dry_run := false |}.


(** The character of the lines that the hunk removes. *)
Definition minus (cfg : config) : ascii :=
  if opt_R cfg then "+"%char else "-"%char.

(** A line that ends with its only newline. *)
Fixpoint terminated (l : string) : bool :=
  match l with
  | "" => false
  | String c l' =>
      match l' with
      | "" => bool_decide (c = newline)
      | _ => negb (bool_decide (c = newline)) && terminated l'
      end
  end.




(** A hunk of the patch: its header line, and the lines of its body. *)
Abbreviation hunk_text := (string * list string)%type.

Fixpoint render (hs : list hunk_text) : stream :=
  match hs with
  | [] => []
  | (header_line, body) :: hs' => header_line :: body ++ render hs'
  end.

(** A line of the body that is compared with the source. *)
Definition src_side (cfg : config) (l : string) : bool :=
  negb (bool_decide (head_char l = plus cfg)).

(** A line of the body that is written to the destination. *)
Definition dst_side (cfg : config) (l : string) : bool :=
  negb (bool_decide (head_char l = minus cfg)).

Fixpoint src_payloads (cfg : config) (body : list string) : list string :=
  match body with
  | [] => []
  | l :: body' =>
      if src_side cfg l then tail l :: src_payloads cfg body'
      else src_payloads cfg body'
  end.

Fixpoint dst_payloads (cfg : config) (body : list string) : list string :=
  match body with
  | [] => []
  | l :: body' =>
      if dst_side cfg l then tail l :: dst_payloads cfg body'
      else dst_payloads cfg body'
  end.

Definition body_line (l : string) : bool :=
  is_edit_char (head_char l) && terminated l.

(** The hunks are consistent from the source line [sc] and the destination
    line [dc] on: every header is followed by the body that it declares, of
    one line or more on each side; the hunk starts at or after [sc], the
    same number of lines after [dc]; and the line numbers stay below 2^32. *)
Fixpoint consistent (cfg : config) (sc dc : Z) (hs : list hunk_text) : bool :=
  match hs with
  | [] => true
  | (header_line, body) :: hs' =>
      match scan_hunk_header header_line with
      | None => false
      | Some h0 =>
          let h := oriented cfg h0 in
          (sc <=? h_src_beg h)
          && (h_src_beg h - sc =? h_dst_beg h - dc)
          && forallb body_line body
          && (Z.of_nat (List.length (src_payloads cfg body)) =? h_src_last h)
          && (Z.of_nat (List.length (dst_payloads cfg body)) =? h_dst_last h)
          && (1 <=? h_src_last h) && (1 <=? h_dst_last h)
          && (h_src_beg h + h_src_last h <? 2 ^ 32)
          && (h_dst_beg h + h_dst_last h <? 2 ^ 32)
          && consistent cfg (h_src_beg h + h_src_last h) (h_dst_beg h + h_dst_last h) hs'
      end
  end.

(** The source [src] is made of the lines that precede each hunk and of the
    lines that the hunk compares, up to the lines [trail] that follow the
    last hunk; [written] is made of the same lines before each hunk and of
    the lines that the hunk writes. *)
Fixpoint woven (cfg : config) (sc : Z) (hs : list hunk_text)
    (src written trail : list string) : Prop :=
  match hs with
  | [] => src = trail ∧ written = []
  | (header_line, body) :: hs' =>
      ∃ h0 before src' written',
        scan_hunk_header header_line = Some h0
        ∧ Z.of_nat (List.length before) = h_src_beg (oriented cfg h0) - sc
        ∧ src = before ++ src_payloads cfg body ++ src'
        ∧ written = before ++ dst_payloads cfg body ++ written'
        ∧ woven cfg (h_src_beg (oriented cfg h0) + h_src_last (oriented cfg h0))
            hs' src' written' trail
  end.

(** A file of five lines and a patch of two hunks for it. *)
Definition sample_file : string := text ["one"; "two"; "three"; "four"; "five"].

Definition sample_hunks : list hunk_text :=
  [("@@ -1,2 +1,3 @@" +:+ nl, ["-one" +:+ nl; "+uno" +:+ nl; "+eins" +:+ nl; " two" +:+ nl]);
   ("@@ -4,2 +5,1 @@" +:+ nl, [" four" +:+ nl; "-five" +:+ nl])].

Definition sample_preamble : stream := ["diff -u a/f b/f" +:+ nl].

Definition sample_patch : string :=
  concat sample_preamble +:+ text ["--- a/f"; "+++ b/f"] +:+ concat (render sample_hunks).


(** The fields that the edits of a hunk leave alone. *)
Definition same_file (st st' : file_state) : Prop :=
  dst_beg_line st' = dst_beg_line st
  ∧ bad_hunk_count st' = bad_hunk_count st
  ∧ hunk_count st' = hunk_count st
  ∧ copy_trailing_lines_flag st' = copy_trailing_lines_flag st
  ∧ log st' = log st.

(** [patch_line] and the rest of the patch when the edit loop meets the
    lines [next] after the body of a hunk. *)
Definition next_line (next : stream) : option string * stream :=
  match next with
  | [] => (None, [])
  | l :: next' => (Some l, next')
  end.

(** The lines that may follow the body of a hunk: none, or a line that is
    not an edit. *)
Definition ends_hunk (next : stream) : Prop :=
  match next with
  | [] => True
  | l :: _ => l ≠ "" ∧ is_edit_char (head_char l) = false
  end.

Definition sample_disk : filesystem := {[ "f" := File sample_file ]}.

(** The forward run of the sample patch. *)
Definition sample_forward : outcome :=
  Eval vm_compute in
    match patch_main (forward_at 1) sample_disk sample_patch with
    | Some o => o
    | None => Died {| fs := sample_disk; ret := 0; out := [] |}
    end.








(** The second disk holds what the first holds, and directories besides. *)
Definition only_dirs_added (before after : filesystem) : Prop :=
  ∀ p, match before !! p with
       | Some n => after !! p = Some n
       | None => after !! p = None ∨ after !! p = Some Dir
       end.

(** Two sections for the same target: the hunk of the first does not match
    the file a, the hunk of the second applies. *)
Definition twice_patch : string :=
  text ["--- a/f"; "+++ b/f"; "@@ -1,1 +1,1 @@"; "-x"; "+y";
        "--- a/f"; "+++ b/f"; "@@ -1,0 +1,1 @@"; "+z"].

(** Two sections: the hunk for [f] does not match the file a, the hunk for
    [g] matches the file b. *)
Definition two_file_patch : string :=
  text ["--- a/f"; "+++ b/f"; "@@ -1,1 +1,1 @@"; "-x"; "+y";
        "--- a/g"; "+++ b/g"; "@@ -1,1 +1,1 @@"; "-b"; "+B"].

(** ** Notions of the further properties *)

(** The character of a decimal digit. *)
Definition digit (d : nat) : ascii := ascii_of_nat (48 + d).

(** A number as it is written: its decimal digits, the first one first. *)
Fixpoint numeral (ds : list nat) : string :=
  match ds with
  | [] => ""
  | d :: ds' => String (digit d) (numeral ds')
  end.

(** The number that the digits write. *)
Definition value (ds : list nat) : Z :=
  fold_left (λ acc d, 10 * acc + Z.of_nat d) ds 0.

(** One digit or more, each of them below ten, that write a number that an
    [int] holds. *)
Definition well_written (ds : list nat) : Prop :=
  ds ≠ [] ∧ Forall (λ d, (d < 10)%nat) ds ∧ value ds < 2 ^ 31.

(** A range of a hunk header: the start and, unless it is left out, the
    count. *)
Definition range (beg : list nat) (count : option (list nat)) : string :=
  numeral beg +:+ match count with
                  | Some c => "," +:+ numeral c
                  | None => ""
                  end.

(** The line of a hunk header as a unified diff has it; [rest] is what
    follows the second "@@". *)
Definition header_text (src_beg : list nat) (src_count : option (list nat))
    (dst_beg : list nat) (dst_count : option (list nat)) (rest : string) : string :=
  "@@ -" +:+ range src_beg src_count +:+ " +" +:+ range dst_beg dst_count +:+ " @@" +:+ rest.

(** The count that a range stands for: 1 when it is left out. *)
Definition count_of (count : option (list nat)) : Z :=
  match count with
  | Some c => value c
  | None => 1
  end.

(** The line of the patch with the direction exchanged: a line that adds
    is one that removes, and conversely. *)
Definition flip (l : string) : string :=
  match l with
  | "" => ""
  | String c s =>
      if bool_decide (c = "+"%char) then String "-" s
      else if bool_decide (c = "-"%char) then String "+" s
      else l
  end.

(** The options with the direction exchanged. *)
Definition reversed (cfg : config) : config :=
  {| patch_level := patch_level cfg; opt_R := negb (opt_R cfg);
     opt_N := opt_N cfg; opt_dry_run := opt_dry_run cfg |}.

(** One failure was counted between two states, and reported as that of
    the hunk that was counted last. *)
Definition reported (st st' : file_state) : Prop :=
  bad_hunk_count st' = u32 (bad_hunk_count st + 1)
  ∧ ∃ offset, log st' = log st ++ [HunkFailed (hunk_count st') offset].

(** What a file section prints when it ends: the name of the target and,
    when a hunk has failed, the number of the hunk with the line at which
    it started, and the count of the failed hunks with that of the hunks. *)
Definition section_report (sec : string * option (Z * Z)) : list message :=
  match sec with
  | (name, None) => [PatchingFile name]
  | (name, Some (hunk, offset)) =>
      [PatchingFile name; HunkFailed hunk offset; HunksFailed 1 hunk]
  end.




(** A report of a failed hunk, or of the failed hunks of a file. *)
Definition reports_failure (m : message) : bool :=
  match m with
  | HunkFailed _ _ | HunksFailed _ _ => true
  | _ => false
  end.


(** The components of a path: what its slashes separate. *)
Fixpoint components_from (cur path : string) : list string :=
  match path with
  | "" => [cur]
  | String c path' =>
      if bool_decide (c = "/"%char) then cur :: components_from "" path'
      else components_from (cur +:+ String c "") path'
  end.

Definition components (path : string) : list string := components_from "" path.

(** A plain path: it is relative, and each of its components is a name
    other than "." and "..".  Two plain paths that differ name two places
    of the disk. *)
Definition plain (path : string) : bool :=
  forallb (λ c, negb (bool_decide (c = "")) && negb (bool_decide (c = "."))
                && negb (bool_decide (c = ".."))) (components path).

(** The directories that lead to a path: what precedes each of its
    slashes. *)
Fixpoint ancestors_from (done rest : string) : list string :=
  match rest with
  | "" => []
  | String c rest' =>
      (if bool_decide (c = "/"%char) then [done] else [])
      ++ ancestors_from (done +:+ String c "") rest'
  end.

Definition ancestors (path : string) : list string := ancestors_from "" path.

(** A file can be made under the name: the name is a plain path, and each
    directory that leads to it is free on the disk, or is a directory. *)
Definition can_be_made (name : string) (disk : filesystem) : bool :=
  plain name
  && forallb (λ d, match disk !! d with
                   | None | Some Dir => true
                   | Some (File _) => false
                   end) (ancestors name).


(** The disk once the directories that lead to [name] are made. *)
Definition with_parents (name : string) (disk : filesystem) : filesystem :=
  match split_last name "/" with
  | Some (dir, _) => bb_make_directory dir disk
  | None => disk
  end.

(** The options of the dry run. *)
Definition dry_run_of (cfg : config) : config :=
  {| patch_level := patch_level cfg; opt_R := opt_R cfg;
     opt_N := opt_N cfg; opt_dry_run := true |}.

(** The locals of a file section when [msgs] were printed before. *)
Definition logged_before (msgs : list message) (st : file_state) : file_state :=
  {| src_stream := src_stream st; dst_stream := dst_stream st;
     src_cur_line := src_cur_line st; dst_cur_line := dst_cur_line st;
     dst_beg_line := dst_beg_line st;
     bad_hunk_count := bad_hunk_count st; hunk_count := hunk_count st;
     copy_trailing_lines_flag := copy_trailing_lines_flag st;
     log := msgs ++ log st |}.

(** The state of a run when [msgs] were printed before. *)
Definition printed_before (msgs : list message) (r : run_state) : run_state :=
  {| fs := fs r; ret := ret r; out := msgs ++ out r |}.

(** The outcome of a run that follows a run that has printed [msgs]. *)
Definition after (msgs : list message) (o : outcome) : outcome :=
  match o with
  | Returned r => Returned (printed_before msgs r)
  | Died r => Died (printed_before msgs r)
  end.

(** * Properties *)

(** ** The loops return *)

Lemma edit_loop_length cfg off sl dl st pf st' pl pf' :
  edit_loop cfg off sl dl st pf = (st', pl, pf') →
  match pl with
  | Some _ => (List.length pf' < List.length pf)%nat
  | None => pf' = []
  end.
Proof.
  revert st. induction pf as [|line pf IH]; intros st H; cbn [edit_loop] in H.
  - by inversion H; subst.
  - destruct (edit_step cfg off sl dl st line) as [st1|st1 pl1].
    + apply IH in H. destruct pl; [cbn [List.length]; lia | done].
    + inversion H; subst. cbn [List.length]. lia.
Qed.

(** The loop over the hunks, one hunk unrolled: the header, the lines up to
    the hunk, the edits of [edit_loop], and the next hunk. *)
Lemma hunk_loop_eq cfg st pl pf :
  hunk_loop cfg st pl pf =
  match scan_hunk_header pl with
  | None => HunksDone st (Some pl) pf
  | Some h =>
      match hunk_begin st (oriented cfg h) with
      | inl st' => HunksDied st'
      | inr (st1, off, sl, dl) =>
          match edit_loop cfg off sl dl st1 pf with
          | (st2, None, _) => HunksDone st2 None []
          | (st2, Some pl', pf') => hunk_loop cfg st2 pl' pf'
          end
      end
  end.
Proof.
  destruct pf as [|line pf]; cbn [hunk_loop];
    (destruct (scan_hunk_header pl) as [h|]; [|done]);
    (destruct (hunk_begin st (oriented cfg h)) as [st'|[[[st1 off] sl] dl]]; [done|]).
  - done.
  - cbn [edit_loop].
    destruct (edit_step cfg off sl dl st1 line) as [st2|st2 pl2]; [|done].
    clear st1 line. revert st2.
    induction pf as [|line pf IH]; intros st1; [done|].
    cbn [edit_loop].
    destruct (edit_step cfg off sl dl st1 line) as [st2|st2 pl2]; [|done].
    apply IH.
Qed.

Lemma hunk_loop_length cfg st pl pf st' pl' pf' :
  hunk_loop cfg st pl pf = HunksDone st' pl' pf' →
  (List.length pf' ≤ List.length pf)%nat.
Proof.
  remember (List.length pf) as n eqn:Hn.
  assert (Hle : (List.length pf ≤ n)%nat) by lia. clear Hn.
  revert st pl pf Hle.
  induction n as [n IH] using lt_wf_ind. intros st pl pf Hle.
  rewrite hunk_loop_eq.
  destruct (scan_hunk_header pl) as [h|].
  - destruct (hunk_begin st (oriented cfg h)) as [st1|[[[st1 off] sl] dl]]; [done|].
    destruct (edit_loop cfg off sl dl st1 pf) as [[st2 [pl2|]] pf2] eqn:He.
    + apply edit_loop_length in He. intros H.
      apply (IH (List.length pf2)) in H; lia.
    + intros H; inversion H; subst. cbn [List.length]. lia.
  - intros H; inversion H; subst. lia.
Qed.

Lemma seek_old_length cfg pl pf pl' pf' :
  seek_old cfg pl pf = Some (pl', pf') →
  (List.length pf' < List.length pf)%nat.
Proof.
  revert pl. induction pf as [|line pf IH]; intros pl H; cbn [seek_old] in H; [done|].
  destruct (extract_filename pl (patch_level cfg) "--- ").
  - inversion H; subst. cbn [List.length]. lia.
  - apply IH in H. cbn [List.length]. lia.
Qed.

Lemma file_section_length cfg r name pf r' st pl pf' :
  file_section cfg r name pf = SectionDone r' st pl pf' →
  (List.length pf' ≤ List.length pf)%nat.
Proof.
  unfold file_section.
  destruct (open_streams cfg name (fs r)) as [[fs0 src] backup].
  destruct pf as [|line pf]; cbn [xmalloc_fgets].
  - intros H; inversion H; subst. done.
  - destruct (hunk_loop _ _ line pf) as [st1 pl1 pf1|st1] eqn:Hh; [|done].
    apply hunk_loop_length in Hh.
    intros H; inversion H; subst. cbn [List.length]. lia.
Qed.

Lemma file_loop_returns fuel cfg r pl pf :
  (List.length pf ≤ fuel)%nat → is_Some (file_loop fuel cfg r pl pf).
Proof.
  revert r pl pf. induction fuel as [|fuel IH]; intros r pl pf Hle.
  - destruct pf; [|cbn [List.length] in Hle; lia].
    destruct pl as [pl|]; cbn; eauto.
  - destruct pl as [pl|]; cbn [file_loop]; [|eauto].
    destruct (seek_old cfg pl pf) as [[pl1 pf1]|] eqn:Hs; [|eauto].
    apply seek_old_length in Hs.
    destruct (extract_filename pl1 (patch_level cfg) "+++ ") as [name|]; [|eauto].
    destruct (file_section cfg r name pf1) as [r' st pl2 pf2|r'] eqn:Hf; [|eauto].
    apply file_section_length in Hf. apply IH. lia.
Qed.

(** X19: the run ends, whatever the options, the files and the patch:
    [patch_main] returns or exits.  Every turn of the loop over the files
    reads a line of the patch or more, and the loops over the hunks and
    over their lines read one line for each turn. *)
Lemma patch_main_total cfg disk patch : is_Some (patch_main cfg disk patch).
Proof.
  unfold patch_main.
  destruct (xmalloc_fgetline (chunks patch)) as [[pl pf]|]; [|eauto].
  by apply file_loop_returns.
Qed.

(** ** The streams of a file section *)

Lemma open_streams_existing cfg name n (disk : filesystem) :
  opt_dry_run cfg = false →
  disk !! name = Some n →
  open_streams cfg name disk =
    (<[name := File ""]> (<[name +:+ ".orig" := n]> (delete name disk)),
     Some (node_lines n), Some (name +:+ ".orig")).
Proof.
  intros Hdry Hn. unfold open_streams, xrename, xfopen_for_read, xfopen_for_write.
  rewrite Hn, Hdry. cbn [negb]. rewrite lookup_insert_eq. by destruct n.
Qed.


Lemma string_app_cons c (s t : string) : String c s +:+ t = String c (s +:+ t).
Proof. reflexivity. Qed.

Lemma string_app_nil_l (s : string) : "" +:+ s = s.
Proof. reflexivity. Qed.

Lemma string_length_app (s t : string) :
  String.length (s +:+ t) = (String.length s + String.length t)%nat.
Proof.
  induction s as [|c s IH]; [done|].
  rewrite string_app_cons. cbn [String.length]. by rewrite IH.
Qed.

Lemma unlink_file path content (disk : filesystem) :
  disk !! path = Some (File content) → unlink path disk = delete path disk.
Proof. unfold unlink. by intros ->. Qed.

Lemma unlink_lookup_ne path p (disk : filesystem) :
  p ≠ path → unlink path disk !! p = disk !! p.
Proof.
  intros Hp. unfold unlink. destruct (disk !! path) as [[content|]|]; [|done..].
  by rewrite lookup_delete_ne.
Qed.

Lemma orig_neq (name : string) : name +:+ ".orig" ≠ name.
Proof.
  intros H. apply (f_equal String.length) in H.
  rewrite string_length_app in H. cbn in H. lia.
Qed.

(** ** Scenario A *)

(** C7: the section [--- a/f], [+++ b/f], [@@ -1,2 +1,2 @@], [-foo], [+bar],
    [ baz], applied forward at strip level 1 and not as a dry run to a file
    [f] that holds the lines foo and baz, leaves [f] with the lines bar and
    baz, removes the backup [f.orig] and returns 0.  The other files are
    left as they were. *)
Theorem scenario_A (disk : filesystem) (skip : bool) :
  disk !! "f" = Some (File (text ["foo"; "baz"])) →
  ∃ o, patch_main {| patch_level := 1; opt_R := false; opt_N := skip;
                     opt_dry_run := false |} disk scenario_patch = Some o
       ∧ exit_status o = 0
       ∧ fs (final o) !! "f" = Some (File (text ["bar"; "baz"]))
       ∧ fs (final o) !! "f.orig" = None
       ∧ ∀ p, p ≠ "f" → p ≠ "f.orig" → fs (final o) !! p = disk !! p.
Proof.
  intros Hf.
  set (cfg := {| patch_level := 1; opt_R := false; opt_N := skip; opt_dry_run := false |}).
  unfold patch_main.
  replace (chunks scenario_patch) with
    (map (λ l, l +:+ nl) ["--- a/f"; "+++ b/f"; "@@ -1,2 +1,2 @@"; "-foo"; "+bar"; " baz"])
    by (vm_compute; reflexivity).
  cbn [map xmalloc_fgetline List.length file_loop seek_old].
  replace (extract_filename (chomp ("--- a/f" +:+ nl)) (patch_level cfg) "--- ")
    with (Some "f") by (vm_compute; reflexivity).
  replace (extract_filename (chomp ("+++ b/f" +:+ nl)) (patch_level cfg) "+++ ")
    with (Some "f") by (vm_compute; reflexivity).
  unfold file_section. cbn [fs out ret].
  rewrite (open_streams_existing cfg "f" _ disk eq_refl Hf).
  cbn [xmalloc_fgets app].
  match goal with |- context [hunk_loop ?c ?s ?l ?f] =>
    replace (hunk_loop c s l f) with
      (HunksDone
         {| src_stream := Some []; dst_stream := ["bar" +:+ nl; "baz" +:+ nl];
            src_cur_line := 3; dst_cur_line := 2; dst_beg_line := 1;
            bad_hunk_count := 0; hunk_count := 1;
            copy_trailing_lines_flag := true; log := [PatchingFile "f"] |} None [])
      by (destruct skip; vm_compute; reflexivity)
  end.
  eexists; split; [reflexivity|].
  unfold finish, copy_trailing, flush_dst, fclose_written.
  cbn -[concat unlink].
  rewrite (unlink_file "f.orig" (text ["foo"; "baz"]))
    by (by rewrite !lookup_insert_ne, lookup_insert_eq by done).
  repeat split.
  - rewrite lookup_delete_ne by done. by rewrite lookup_insert_eq.
  - by rewrite lookup_delete_eq.
  - intros p Hp Ho.
    rewrite lookup_delete_ne, !lookup_insert_ne, lookup_delete_ne by done. done.
Qed.

(** The scenario on a disk that holds [f] alone. *)
Lemma scenario_A_witness :
  ∃ o, patch_main {| patch_level := 1; opt_R := false; opt_N := false;
                     opt_dry_run := false |}
         {[ "f" := File (text ["foo"; "baz"]) ]} scenario_patch = Some o
       ∧ exit_status o = 0
       ∧ fs (final o) !! "f" = Some (File (text ["bar"; "baz"]))
       ∧ fs (final o) !! "f.orig" = None
       ∧ ∀ p, p ≠ "f" → p ≠ "f.orig" →
           fs (final o) !! p = ({[ "f" := File (text ["foo"; "baz"]) ]} : filesystem) !! p.
Proof.
  apply (scenario_A {[ "f" := File (text ["foo"; "baz"]) ]} false).
  reflexivity.
Defined.

(** ** The strip level *)

Lemma count_char_app c (s t : string) :
  count_char c (s +:+ t) = (count_char c s + count_char c t)%nat.
Proof.
  induction s as [|c' s IH]; [done|].
  rewrite string_app_cons. cbn [count_char]. rewrite IH. lia.
Qed.

Lemma string_app_assoc (s t u : string) : (s +:+ t) +:+ u = s +:+ (t +:+ u).
Proof.
  induction s as [|c s IH]; [done|]. rewrite !string_app_cons. by rewrite IH.
Qed.


Lemma string_app_eq_nil (s t : string) : s +:+ t = "" → s = "" ∧ t = "".
Proof. destruct s; [done|]. rewrite string_app_cons. discriminate. Qed.

Lemma last_char_app (s t : string) :
  t ≠ "" → last_char (s +:+ t) = last_char t.
Proof.
  intros Ht. induction s as [|c s IH]; [done|].
  rewrite string_app_cons. cbn [last_char]. rewrite IH.
  destruct (s +:+ t) eqn:E; [|done].
  apply string_app_eq_nil in E. by destruct E.
Qed.

(** The loop of [extract_filename] as the source writes it, with [strchr]. *)
Lemma skip_dirs_strchr (level : Z) (start cur : string) :
  skip_dirs level start cur =
  if level =? 0 then start
  else match strchr cur "/" with
       | None => start
       | Some temp => skip_dirs (level - 1) (tail temp) (tail temp)
       end.
Proof.
  induction cur as [|c cur IH]; cbn [skip_dirs strchr].
  - by destruct (level =? 0).
  - destruct (level =? 0) eqn:E; [done|].
    case_bool_decide; [done|].
    exact IH.
Qed.

Lemma skip_dirs_drops (level : Z) (cur pre : string) :
  count_char "/" pre = 0%nat →
  ∃ dropped,
    pre +:+ cur = dropped +:+ skip_dirs level (pre +:+ cur) cur
    ∧ (dropped = "" ∨ last_char dropped = "/"%char)
    ∧ count_char "/" dropped = segments_dropped level cur.
Proof.
  revert level pre. induction cur as [|c cur IH]; intros level pre Hpre.
  - exists "". cbn [skip_dirs]. rewrite string_app_nil_l.
    split; [by destruct (level =? 0)|]. split; [by left|].
    unfold segments_dropped. cbn [count_char]. destruct (level <? 0); lia.
  - cbn [skip_dirs]. destruct (level =? 0) eqn:E.
    + exists "". apply Z.eqb_eq in E. subst level.
      split; [done|]. split; [by left|]. done.
    + apply Z.eqb_neq in E. case_bool_decide as Hc.
      * subst c. destruct (IH (level - 1) "" eq_refl) as (d & Hd & Hlast & Hcount).
        rewrite !string_app_nil_l in Hd.
        exists (pre +:+ "/" +:+ d). split; [|split].
        -- rewrite !string_app_assoc. rewrite !string_app_cons, string_app_nil_l.
           by rewrite <- Hd.
        -- right. destruct Hlast as [->|Hlast].
           ++ by apply last_char_app.
           ++ rewrite <- string_app_assoc. rewrite last_char_app; [done|].
              intros ->. cbn in Hlast. discriminate.
        -- rewrite !count_char_app, Hpre, Hcount. unfold segments_dropped.
           cbn [count_char]. rewrite bool_decide_eq_true_2 by done.
           destruct (level <? 0) eqn:E1.
           ++ apply Z.ltb_lt in E1.
              replace (level - 1 <? 0) with true by (symmetry; apply Z.ltb_lt; lia).
              lia.
           ++ apply Z.ltb_ge in E1.
              replace (level - 1 <? 0) with false by (symmetry; apply Z.ltb_ge; lia).
              lia.
      * destruct (IH level (pre +:+ String c "")) as (d & Hd & Hlast & Hcount).
        { rewrite count_char_app, Hpre. cbn [count_char].
          by rewrite bool_decide_eq_false_2. }
        rewrite string_app_assoc, string_app_cons, string_app_nil_l in Hd.
        exists d. split; [done|]. split; [done|].
        rewrite Hcount. unfold segments_dropped. cbn [count_char].
        by rewrite bool_decide_eq_false_2.
Qed.

(** C5, as the code has it: on a marker line, the name is the path with
    its leading segments dropped, none for the level 0, min (L, number of
    '/' in the path) for a positive level L, and all of them for a negative
    level, which leaves the base name. *)
Theorem strip_level_segments (old : bool) (rest : string) (level : Z) :
  let path := cut_at_tab_nl_cr rest in
  ∃ dropped name,
    extract_filename (marker old +:+ rest) level (marker old) = Some name
    ∧ path = dropped +:+ name
    ∧ (dropped = "" ∨ last_char dropped = "/"%char)
    ∧ count_char "/" dropped = segments_dropped level path
    ∧ (level = 0 → name = path)
    ∧ (0 < level →
       count_char "/" dropped = Nat.min (Z.to_nat level) (count_char "/" path))
    ∧ (level < 0 → count_char "/" name = 0%nat).
Proof.
  intros path.
  destruct (skip_dirs_drops level path "" eq_refl) as (d & Hd & Hlast & Hcount).
  rewrite !string_app_nil_l in Hd. exists d, (skip_dirs level path path).
  assert (Hx : extract_filename (marker old +:+ rest) level (marker old)
               = Some (skip_dirs level path path)) by (by destruct old).
  split; [done|]. split; [done|]. split; [done|]. split; [done|].
  split; [|split].
  - intros ->. by rewrite skip_dirs_strchr.
  - intros Hpos. rewrite Hcount. unfold segments_dropped.
    by replace (level <? 0) with false by (symmetry; apply Z.ltb_ge; lia).
  - intros Hneg. apply (f_equal (count_char "/")) in Hd.
    rewrite count_char_app, Hcount in Hd. unfold segments_dropped in Hd.
    replace (level <? 0) with true in Hd by (symmetry; apply Z.ltb_lt; lia).
    lia.
Qed.

(** C5 as the specification has it fails for a negative level: the level
    -1 turns a/b/c into c. *)
Lemma strip_negative_level_drops :
  -1 ≤ 0
  ∧ extract_filename "--- a/b/c" (-1) "--- " = Some "c"
  ∧ extract_filename "--- a/b/c" (-1) "--- " ≠ Some "a/b/c".
Proof. split; [lia|]. split; [reflexivity|]. vm_compute. discriminate. Qed.

(** ** Lines of the edit loop *)

(** C10: with the flag that skips what is already applied, a context or
    removal line whose payload differs from the next source line consumes
    that source line and advances the source cursor; nothing is written, no
    failure is counted, and the loop goes on with the next patch line, which
    is compared with a later source line. *)
Theorem skip_applied_consumes cfg off sl dl st line rest src_line src_rest :
  opt_N cfg = true →
  is_edit_char (head_char line) = true →
  head_char line ≠ plus cfg →
  src_cur_line st ≠ sl →
  src_stream st = Some (src_line :: src_rest) →
  src_line ≠ tail line →
  ∃ st',
    edit_step cfg off sl dl st line = Continue st'
    ∧ edit_loop cfg off sl dl st (line :: rest) = edit_loop cfg off sl dl st' rest
    ∧ src_stream st' = Some src_rest
    ∧ src_cur_line st' = u32 (src_cur_line st + 1)
    ∧ dst_stream st' = dst_stream st
    ∧ dst_cur_line st' = dst_cur_line st
    ∧ bad_hunk_count st' = bad_hunk_count st
    ∧ log st' = log st.
Proof.
  intros HN Hedit Hplus Hcur Hsrc Hne.
  exists (with_src_read st src_rest).
  assert (Hstep : edit_step cfg off sl dl st line = Continue (with_src_read st src_rest)).
  { unfold edit_step.
    assert (line ≠ "") as Hl by (intros ->; cbn in Hedit; discriminate).
    rewrite (bool_decide_eq_false_2 _ Hl), Hedit. cbn [negb].
    rewrite (bool_decide_eq_false_2 _ Hplus). cbn [negb].
    replace (src_cur_line st =? sl) with false by (symmetry; by apply Z.eqb_neq).
    unfold read_src. rewrite Hsrc. unfold streq.
    rewrite (bool_decide_eq_false_2 _ Hne), HN. done. }
  split; [done|]. split; [|done].
  cbn [edit_loop]. by rewrite Hstep.
Qed.

(** The line [-old] against the source line new, with the flag. *)
Lemma skip_applied_consumes_witness :
  let cfg := {| patch_level := 1; opt_R := false; opt_N := true; opt_dry_run := false |} in
  let st := initial_state (Some ["new" +:+ nl; "next" +:+ nl]) [] in
  ∃ st',
    edit_step cfg 1 3 2 st ("-old" +:+ nl) = Continue st'
    ∧ edit_loop cfg 1 3 2 st ["-old" +:+ nl; " next" +:+ nl]
      = edit_loop cfg 1 3 2 st' [" next" +:+ nl]
    ∧ src_stream st' = Some ["next" +:+ nl]
    ∧ src_cur_line st' = u32 (src_cur_line st + 1)
    ∧ dst_stream st' = dst_stream st
    ∧ dst_cur_line st' = dst_cur_line st
    ∧ bad_hunk_count st' = bad_hunk_count st
    ∧ log st' = log st.
Proof.
  intros cfg st.
  apply (skip_applied_consumes cfg 1 3 2 st ("-old" +:+ nl) [" next" +:+ nl]
           ("new" +:+ nl) ["next" +:+ nl]);
    [reflexivity | reflexivity | vm_compute; discriminate | vm_compute; discriminate
    | reflexivity | vm_compute; discriminate].
Defined.

Lemma chunks_nonempty (s : string) : "" ∉ chunks s.
Proof.
  induction s as [|c s IH]; cbn [chunks]; [by apply not_elem_of_nil|].
  case_bool_decide.
  - apply not_elem_of_cons. split; [done|]. exact IH.
  - destruct (chunks s) as [|l ls].
    + apply not_elem_of_cons. split; [done|]. apply not_elem_of_nil.
    + apply not_elem_of_cons. split; [done|].
      apply not_elem_of_cons in IH. by destruct IH.
Qed.

(** C8 fails on the code: no line that the reader returns is empty, so that
    the test for a damaged line never holds; a blank line reaches the edit
    loop as a newline and ends the hunk, with no source line read and
    nothing written.  In the hunk of [blank_patch] the blank line stands for
    the empty second line of the file: the edit that follows it is not made,
    and the run reports no failure.  The file is left as it was, where the
    claim has its third line replaced. *)
Theorem blank_line_ends_hunk :
  (∀ patch : string, "" ∉ chunks patch)
  ∧ (∀ cfg off sl dl st rest,
       edit_loop cfg off sl dl st (nl :: rest) = (st, Some nl, rest))
  ∧ ∃ o, patch_main forward {[ "f" := File (text ["a"; ""; "c"]) ]} blank_patch = Some o
         ∧ exit_status o = 0
         ∧ out (final o) = [PatchingFile "f"]
         ∧ fs (final o) = {[ "f" := File (text ["a"; ""; "c"]) ]}
         ∧ fs (final o) ≠ {[ "f" := File (text ["a"; ""; "d"]) ]}.
Proof.
  split; [apply chunks_nonempty|]. split; [done|].
  eexists. split; [vm_compute; reflexivity|].
  split; [reflexivity|]. split; [reflexivity|]. split; [reflexivity|].
  intros H. apply (f_equal (λ m : filesystem, m !! "f")) in H.
  vm_compute in H. discriminate.
Qed.

(** ** The dry run *)

(** C4 fails on the code: the leading directories of a target that does not
    exist are created whether or not the run is a dry run.  On an empty
    disk the dry run of [new_file_patch] leaves the directory [d]. *)
Theorem dry_run_creates_directory :
  ∃ o, patch_main {| patch_level := 1; opt_R := false; opt_N := false;
                     opt_dry_run := true |} ∅ new_file_patch = Some o
       ∧ exit_status o = 0
       ∧ fs (final o) = {[ "d" := Dir ]}
       ∧ fs (final o) ≠ ∅.
Proof.
  eexists. split; [vm_compute; reflexivity|].
  split; [reflexivity|]. split; [reflexivity|].
  intros H. apply (f_equal (λ m : filesystem, m !! "d")) in H.
  vm_compute in H. discriminate.
Qed.

Lemma only_dirs_added_refl (disk : filesystem) : only_dirs_added disk disk.
Proof. intros p. destruct (disk !! p); [done|by left]. Qed.

Lemma only_dirs_added_trans (a b c : filesystem) :
  only_dirs_added a b → only_dirs_added b c → only_dirs_added a c.
Proof.
  intros Hab Hbc p. specialize (Hab p). specialize (Hbc p).
  destruct (a !! p) as [n|].
  - by rewrite Hab in Hbc.
  - destruct Hab as [Hab|Hab]; rewrite Hab in Hbc; [done|by right].
Qed.

Lemma ensure_dir_only_dirs path (disk : filesystem) :
  only_dirs_added disk (ensure_dir path disk).
Proof.
  unfold ensure_dir.
  destruct (bool_decide (path = "") || bool_decide (last_char path = "/"%char));
    [apply only_dirs_added_refl|].
  destruct (disk !! path) eqn:E; [apply only_dirs_added_refl|].
  intros p. destruct (decide (p = path)) as [->|Hp].
  - rewrite E, lookup_insert_eq. by right.
  - rewrite lookup_insert_ne by done. destruct (disk !! p); [done|by left].
Qed.

Lemma make_dirs_only_dirs rest : ∀ done_part (disk : filesystem),
  only_dirs_added disk (make_dirs done_part rest disk).
Proof.
  induction rest as [|c rest IH]; intros done_part disk; cbn [make_dirs].
  - apply ensure_dir_only_dirs.
  - eapply only_dirs_added_trans; [|apply IH].
    case_bool_decide; [apply ensure_dir_only_dirs|apply only_dirs_added_refl].
Qed.

Lemma file_section_dry_run cfg r name pf :
  opt_dry_run cfg = true →
  match file_section cfg r name pf with
  | SectionDone r' _ _ _ | SectionDied r' => only_dirs_added (fs r) (fs r')
  end.
Proof.
  intros Hdry. unfold file_section.
  assert (Ho : ∃ fs0 src,
    open_streams cfg name (fs r) = (fs0, src, None) ∧ only_dirs_added (fs r) fs0).
  { unfold open_streams. rewrite Hdry. destruct (fs r !! name).
    - eexists _, _. split; [reflexivity|apply only_dirs_added_refl].
    - eexists _, _. split; [reflexivity|].
      destruct (split_last name "/") as [[dir base]|];
        [apply make_dirs_only_dirs|apply only_dirs_added_refl]. }
  destruct Ho as (fs0 & src & -> & Hfs0).
  destruct (match xmalloc_fgets pf with Some _ => _ | None => _ end)
    as [st pl' pf'|st].
  - unfold finish, flush_dst. rewrite Hdry. cbn [negb andb].
    by destruct (negb (bad_hunk_count (copy_trailing st) =? 0)).
  - unfold flush_dst. by rewrite Hdry.
Qed.

Lemma file_loop_dry_run fuel cfg : ∀ r pl pf o,
  opt_dry_run cfg = true →
  file_loop fuel cfg r pl pf = Some o →
  only_dirs_added (fs r) (fs (final o)).
Proof.
  induction fuel as [|fuel IH]; intros r pl pf o Hdry H;
    (destruct pl as [pl|]; cbn [file_loop] in H;
       [|injection H as <-; apply only_dirs_added_refl]);
    (destruct (seek_old cfg pl pf) as [[pl1 pf1]|];
       [|injection H as <-; apply only_dirs_added_refl]);
    (destruct (extract_filename pl1 (patch_level cfg) "+++ ") as [name|];
       [|injection H as <-; apply only_dirs_added_refl]);
    pose proof (file_section_dry_run cfg r name pf1 Hdry) as Hs;
    (destruct (file_section cfg r name pf1) as [r' st pl2 pf2|r'];
       [|by injection H as <-]).
  - done.
  - eapply only_dirs_added_trans; [done|]. by eapply IH.
Qed.

(** X12: a dry run leaves every file and every directory of the disk as it
    was, and creates no file: it can only add directories. *)
Lemma dry_run_only_adds_directories cfg disk patch o :
  opt_dry_run cfg = true →
  patch_main cfg disk patch = Some o →
  only_dirs_added disk (fs (final o)).
Proof.
  unfold patch_main. intros Hdry H.
  destruct (xmalloc_fgetline (chunks patch)) as [[pl pf]|].
  - by apply (file_loop_dry_run _ _ _ _ _ _ Hdry) in H.
  - injection H as <-. apply only_dirs_added_refl.
Qed.

(** ** The bounds of a hunk *)

Lemma u32_unsigned (z : Z) : unsigned (u32 z).
Proof. unfold unsigned, u32. apply Z.mod_pos_bound. lia. Qed.

Lemma u32_small (z : Z) : unsigned z → u32 z = z.
Proof. unfold unsigned, u32. intros H. by apply Z.mod_small. Qed.

(** The distance to a bound shrinks by one when the cursor moves. *)
Lemma u32_gap_step (cur last : Z) :
  unsigned cur → unsigned last → cur ≠ last →
  u32 (last - u32 (cur + 1)) = u32 (last - cur) - 1.
Proof.
  unfold unsigned, u32. intros Hc Hl Hne.
  change (2 ^ 32) with 4294967296 in *.
  Z.to_euclidean_division_equations. lia.
Qed.

Lemma u32_gap_begin (count cur : Z) :
  unsigned count → u32 (u32 (count + cur) - cur) = count.
Proof.
  unfold unsigned, u32. intros Hc.
  change (2 ^ 32) with 4294967296 in *.
  Z.to_euclidean_division_equations. lia.
Qed.

(** What one turn of the edit loop reads and writes. *)
Lemma edit_step_io cfg off sl dl st line :
  let st' := state_of (edit_step cfg off sl dl st line) in
  (∃ read, src_lines st = read ++ src_lines st'
     ∧ ((read = [] ∧ src_cur_line st' = src_cur_line st)
        ∨ (List.length read = 1%nat ∧ src_cur_line st ≠ sl
           ∧ src_cur_line st' = u32 (src_cur_line st + 1))))
  ∧ (∃ wrote, dst_stream st' = dst_stream st ++ wrote
     ∧ ((wrote = [] ∧ dst_cur_line st' = dst_cur_line st)
        ∨ (List.length wrote = 1%nat ∧ dst_cur_line st ≠ dl
           ∧ dst_cur_line st' = u32 (dst_cur_line st + 1)))).
Proof.
  assert (Hnone : ∀ s : file_state,
    (∃ read, src_lines s = read ++ src_lines s
       ∧ ((read = [] ∧ src_cur_line s = src_cur_line s)
          ∨ (List.length read = 1%nat ∧ src_cur_line s ≠ sl
             ∧ src_cur_line s = u32 (src_cur_line s + 1))))).
  { intros s. exists []. split; [done|]. by left. }
  assert (Hemit : ∀ s pl,
    ∃ wrote, dst_stream (state_of (emit dl s pl)) = dst_stream s ++ wrote
     ∧ ((wrote = [] ∧ dst_cur_line (state_of (emit dl s pl)) = dst_cur_line s)
        ∨ (List.length wrote = 1%nat ∧ dst_cur_line s ≠ dl
           ∧ dst_cur_line (state_of (emit dl s pl)) = u32 (dst_cur_line s + 1)))).
  { intros s pl. unfold emit. destruct (dst_cur_line s =? dl) eqn:E.
    - exists []. rewrite app_nil_r. split; [done|]. by left.
    - apply Z.eqb_neq in E. exists [tail pl]. split; [done|]. by right. }
  assert (Hemit_src : ∀ s pl,
    src_stream (state_of (emit dl s pl)) = src_stream s
    ∧ src_cur_line (state_of (emit dl s pl)) = src_cur_line s).
  { intros s pl. unfold emit. by destruct (dst_cur_line s =? dl). }
  cbv zeta. unfold edit_step.
  set (pl := if bool_decide (line = "") then " " else line).
  destruct (negb (is_edit_char (head_char pl))).
  { split; [apply Hnone|]. exists []. rewrite app_nil_r. split; [done|]. by left. }
  destruct (negb (bool_decide (head_char pl = plus cfg))).
  2:{ split; [|apply Hemit].
      destruct (Hemit_src st pl) as [Hs Hc].
      exists []. unfold src_lines. rewrite Hs, Hc. split; [done|]. by left. }
  destruct (src_cur_line st =? sl) eqn:E.
  { split; [apply Hnone|]. exists []. rewrite app_nil_r. split; [done|]. by left. }
  apply Z.eqb_neq in E.
  assert (Hread : ∃ read, src_lines st = read ++ src_lines (read_src st pl).2
     ∧ ((read = [] ∧ src_cur_line (read_src st pl).2 = src_cur_line st)
        ∨ (List.length read = 1%nat ∧ src_cur_line st ≠ sl
           ∧ src_cur_line (read_src st pl).2 = u32 (src_cur_line st + 1)))).
  { unfold read_src, src_lines. destruct (src_stream st) as [[|l ls]|] eqn:Es;
      cbn [snd]; try rewrite Es.
    - exists []. split; [done|]. by left.
    - exists [l]. split; [done|]. by right.
    - exists []. split; [done|]. by left. }
  assert (Hread_dst : dst_stream (read_src st pl).2 = dst_stream st
                      ∧ dst_cur_line (read_src st pl).2 = dst_cur_line st).
  { unfold read_src. by destruct (src_stream st) as [[|l ls]|]. }
  destruct (read_src st pl) as [ok st1]. cbn [snd] in Hread, Hread_dst.
  destruct Hread_dst as [Hd Hdc].
  destruct ok; cbn [negb andb].
  - destruct (negb (bool_decide (head_char pl = " "%char))).
    + split; [done|]. exists []. rewrite app_nil_r. split; [done|]. by left.
    + destruct (Hemit_src st1 pl) as [Hs Hc]. split.
      * destruct Hread as (read & Hr & Hcase). exists read.
        unfold src_lines in *. rewrite Hs, Hc. done.
      * destruct (Hemit st1 pl) as (w & Hw & Hcase). exists w.
        rewrite Hd in Hw. rewrite Hdc in Hcase. done.
  - destruct (opt_N cfg); cbn [state_of with_failure src_stream src_cur_line
                               dst_stream dst_cur_line].
    + split; [done|]. exists []. rewrite app_nil_r. split; [done|]. by left.
    + split; [done|]. exists []. rewrite app_nil_r. split; [done|]. by left.
Qed.

Lemma edit_step_unsigned cfg off sl dl st line :
  unsigned (src_cur_line st) → unsigned (dst_cur_line st) →
  unsigned (src_cur_line (state_of (edit_step cfg off sl dl st line)))
  ∧ unsigned (dst_cur_line (state_of (edit_step cfg off sl dl st line))).
Proof.
  intros Hs Hd.
  destruct (edit_step_io cfg off sl dl st line) as [(r & _ & Hr) (w & _ & Hw)].
  split.
  - destruct Hr as [[_ ->]|(_ & _ & ->)]; [done|apply u32_unsigned].
  - destruct Hw as [[_ ->]|(_ & _ & ->)]; [done|apply u32_unsigned].
Qed.

(** What the edit loop reads and writes, against the two bounds. *)
Lemma edit_loop_io cfg off sl dl pf : ∀ st st' pl pf',
  unsigned (src_cur_line st) → unsigned (dst_cur_line st) →
  unsigned sl → unsigned dl →
  edit_loop cfg off sl dl st pf = (st', pl, pf') →
  ∃ read wrote,
    src_lines st = read ++ src_lines st'
    ∧ dst_stream st' = dst_stream st ++ wrote
    ∧ Z.of_nat (List.length read) ≤ u32 (sl - src_cur_line st)
    ∧ Z.of_nat (List.length wrote) ≤ u32 (dl - dst_cur_line st).
Proof.
  induction pf as [|line pf IH]; intros st st' pl pf' Hs Hd Hsl Hdl H;
    cbn [edit_loop] in H.
  - inversion H; subst. exists [], []. rewrite app_nil_r.
    split; [done|]. split; [done|].
    pose proof (u32_unsigned (sl - src_cur_line st')) as [? _].
    pose proof (u32_unsigned (dl - dst_cur_line st')) as [? _].
    cbn [List.length]. lia.
  - pose proof (edit_step_io cfg off sl dl st line) as Hio.
    pose proof (edit_step_unsigned cfg off sl dl st line Hs Hd) as [Hs1 Hd1].
    cbv zeta in Hio.
    assert (Hstep : ∀ st1, state_of (edit_step cfg off sl dl st line) = st1 →
      ∀ read1 wrote1,
        src_lines st1 = read1 ++ src_lines st' →
        dst_stream st' = dst_stream st1 ++ wrote1 →
        Z.of_nat (List.length read1) ≤ u32 (sl - src_cur_line st1) →
        Z.of_nat (List.length wrote1) ≤ u32 (dl - dst_cur_line st1) →
        ∃ read wrote,
          src_lines st = read ++ src_lines st'
          ∧ dst_stream st' = dst_stream st ++ wrote
          ∧ Z.of_nat (List.length read) ≤ u32 (sl - src_cur_line st)
          ∧ Z.of_nat (List.length wrote) ≤ u32 (dl - dst_cur_line st)).
    { intros st1 E read1 wrote1 Hr1 Hw1 Hlr Hlw. rewrite E in Hio.
      destruct Hio as [(r & Hr & Hrc) (w & Hw & Hwc)].
      exists (r ++ read1), (w ++ wrote1).
      split; [by rewrite <- app_assoc, <- Hr1|].
      split; [by rewrite Hw1, Hw, <- app_assoc|].
      rewrite !length_app, !Nat2Z.inj_add. split.
      - destruct Hrc as [[-> Hc]|(Hl & Hne & Hc)].
        + rewrite Hc in Hlr. cbn [List.length]. lia.
        + rewrite Hc, u32_gap_step in Hlr by done. lia.
      - destruct Hwc as [[-> Hc]|(Hl & Hne & Hc)].
        + rewrite Hc in Hlw. cbn [List.length]. lia.
        + rewrite Hc, u32_gap_step in Hlw by done. lia. }
    destruct (edit_step cfg off sl dl st line) as [st1|st1 pl1] eqn:E;
      cbn [state_of] in *.
    + destruct (IH _ _ _ _ Hs1 Hd1 Hsl Hdl H) as (read1 & wrote1 & ? & ? & ? & ?).
      by apply (Hstep st1 eq_refl read1 wrote1).
    + inversion H; subst. apply (Hstep st' eq_refl [] []).
      * done.
      * by rewrite app_nil_r.
      * pose proof (u32_unsigned (sl - src_cur_line st')) as [? _].
        cbn [List.length]. lia.
      * pose proof (u32_unsigned (dl - dst_cur_line st')) as [? _].
        cbn [List.length]. lia.
Qed.

Lemma scan_hunk_header_unsigned line h :
  scan_hunk_header line = Some h →
  unsigned (h_src_beg h) ∧ unsigned (h_src_last h)
  ∧ unsigned (h_dst_beg h) ∧ unsigned (h_dst_last h).
Proof.
  assert (H1 : unsigned 1) by (unfold unsigned; lia).
  unfold scan_hunk_header.
  destruct (sscanf fmt_full line) as [|a [|b [|c [|d [|e l]]]]];
    destruct (sscanf fmt_short line) as [|a' [|c' [|d' [|e' l']]]];
    intros H; inversion H; subst; cbn [h_src_beg h_src_last h_dst_beg h_dst_last];
    repeat split; try apply u32_unsigned; try apply H1.
Qed.

Lemma oriented_unsigned cfg h :
  unsigned (h_src_last h) → unsigned (h_dst_last h) →
  unsigned (h_src_last (oriented cfg h)) ∧ unsigned (h_dst_last (oriented cfg h)).
Proof. unfold oriented. by case_bool_decide. Qed.

Lemma hunk_begin_bounds st h st1 off sl dl :
  unsigned (src_cur_line st) → unsigned (dst_cur_line st) →
  hunk_begin st h = inr (st1, off, sl, dl) →
  unsigned (src_cur_line st1) ∧ unsigned (dst_cur_line st1)
  ∧ off = src_cur_line st1
  ∧ sl = u32 (h_src_last h + src_cur_line st1)
  ∧ dl = u32 (h_dst_last h + dst_cur_line st1).
Proof.
  intros Hs Hd. unfold hunk_begin.
  destruct (negb (h_src_beg h =? 0) && negb (h_dst_beg h =? 0)).
  - destruct (copy_lines _ _ _) as [[src dst] remaining].
    destruct (negb (remaining =? 0)); [done|].
    intros H; inversion H; subst. cbn.
    repeat split; apply u32_unsigned.
  - intros H; inversion H; subst. done.
Qed.

(** C3: the edit loop of a hunk reads at most as many source lines and
    writes at most as many destination lines as the header of the hunk
    declares (the counts after the exchange of a reverse patch), whatever
    the lines of the hunk are. *)
Theorem hunk_within_counts cfg st line h st1 off sl dl pf st2 pl pf2 :
  unsigned (src_cur_line st) → unsigned (dst_cur_line st) →
  scan_hunk_header line = Some h →
  hunk_begin st (oriented cfg h) = inr (st1, off, sl, dl) →
  edit_loop cfg off sl dl st1 pf = (st2, pl, pf2) →
  ∃ read wrote,
    src_lines st1 = read ++ src_lines st2
    ∧ dst_stream st2 = dst_stream st1 ++ wrote
    ∧ Z.of_nat (List.length read) ≤ h_src_last (oriented cfg h)
    ∧ Z.of_nat (List.length wrote) ≤ h_dst_last (oriented cfg h).
Proof.
  intros Hs Hd Hscan Hbegin Hloop.
  destruct (scan_hunk_header_unsigned _ _ Hscan) as (_ & Hsl & _ & Hdl).
  destruct (oriented_unsigned cfg h Hsl Hdl) as [Hsl' Hdl'].
  destruct (hunk_begin_bounds _ _ _ _ _ _ Hs Hd Hbegin) as (Hs1 & Hd1 & -> & -> & ->).
  destruct (edit_loop_io _ _ _ _ _ _ _ _ _ Hs1 Hd1 (u32_unsigned _) (u32_unsigned _) Hloop)
    as (read & wrote & Hr & Hw & Hlr & Hlw).
  rewrite u32_gap_begin in Hlr, Hlw by done.
  by exists read, wrote.
Qed.

(** A body of two removals and two additions under a header that declares
    one line on each side: one line is read and one is written. *)
Lemma hunk_within_counts_witness :
  ∃ read wrote,
    src_lines long_hunk_begun = read ++ src_lines long_hunk_end.1.1
    ∧ dst_stream long_hunk_end.1.1 = dst_stream long_hunk_begun ++ wrote
    ∧ Z.of_nat (List.length read) ≤ 1
    ∧ Z.of_nat (List.length wrote) ≤ 1.
Proof.
  apply (hunk_within_counts forward long_hunk_start long_hunk_header
           {| h_src_beg := 1; h_src_last := 1; h_dst_beg := 1; h_dst_last := 1 |}
           long_hunk_begun 1 2 1 long_hunk_body
           long_hunk_end.1.1 long_hunk_end.1.2 long_hunk_end.2).
  - unfold unsigned. cbn. lia.
  - unfold unsigned. cbn. lia.
  - vm_compute. reflexivity.
  - vm_compute. reflexivity.
  - vm_compute. reflexivity.
Defined.

(** ** A hunk that does not match *)

Lemma scan_hunk_header_edit_char (line : string) :
  is_edit_char (head_char line) = true → scan_hunk_header line = None.
Proof.
  intros H. destruct line as [|c line]; [done|]. cbn [head_char] in H.
  assert (Hc : c ≠ "@"%char) by (intros ->; discriminate).
  unfold scan_hunk_header, fmt_full, fmt_short. cbn [sscanf].
  by rewrite (bool_decide_eq_false_2 _ Hc).
Qed.

(** The turn of the edit loop that finds a mismatch. *)
Lemma edit_step_mismatch cfg off sl dl st line :
  opt_N cfg = false →
  is_edit_char (head_char line) = true →
  head_char line ≠ plus cfg →
  src_cur_line st ≠ sl →
  (read_src st line).1 = false →
  edit_step cfg off sl dl st line
  = Break (with_failure (read_src st line).2 off) line.
Proof.
  intros HN Hedit Hplus Hcur Hread. unfold edit_step.
  assert (line ≠ "") as Hl by (intros ->; cbn in Hedit; discriminate).
  rewrite (bool_decide_eq_false_2 _ Hl), Hedit. cbn [negb].
  rewrite (bool_decide_eq_false_2 _ Hplus). cbn [negb].
  replace (src_cur_line st =? sl) with false by (symmetry; by apply Z.eqb_neq).
  destruct (read_src st line) as [ok st1]. cbn [fst snd] in *. subst ok.
  by rewrite HN.
Qed.

(** After the failure in the section for [f] the run goes on: the section
    for [g] is applied, and the run returns 1. *)
Lemma run_goes_on_after_failure :
  ∃ o, patch_main forward
         {[ "f" := File (text ["a"]); "g" := File (text ["b"]) ]} two_file_patch
       = Some o
     ∧ exit_status o = 1
     ∧ out (final o)
       = [PatchingFile "f"; HunkFailed 1 1; HunksFailed 1 1; PatchingFile "g"]
     ∧ fs (final o) !! "g" = Some (File (text ["B"]))
     ∧ fs (final o) !! "f.orig" = Some (File (text ["a"])).
Proof.
  eexists. split; [vm_compute; reflexivity|].
  split; [reflexivity|]. split; [reflexivity|]. split; reflexivity.
Qed.

(** C1 as the specification has it fails: of the two hunks of
    [two_hunk_patch] the first does not match the file a, b, c, d and the
    second would.  The second header is never parsed: one hunk is counted,
    and the line c is copied instead of being replaced. *)
Lemma second_hunk_not_applied :
  ∃ o, patch_main forward {[ "f" := File (text ["a"; "b"; "c"; "d"]) ]} two_hunk_patch
       = Some o
     ∧ exit_status o = 1
     ∧ out (final o) = [PatchingFile "f"; HunkFailed 1 1; HunksFailed 1 1]
     ∧ fs (final o) !! "f" = Some (File (text ["b"; "c"; "d"]))
     ∧ fs (final o) !! "f" ≠ Some (File (text ["a"; "b"; "C"; "d"])).
Proof.
  eexists. split; [vm_compute; reflexivity|].
  split; [reflexivity|]. split; [reflexivity|]. split; [reflexivity|].
  vm_compute. discriminate.
Qed.

(** ** The end of a file section *)

Lemma open_streams_backup cfg name (disk fs0 : filesystem) src b :
  open_streams cfg name disk = (fs0, src, Some b) → b = name +:+ ".orig".
Proof.
  unfold open_streams. destruct (disk !! name); [|by intros [= ]].
  destruct (negb (opt_dry_run cfg)); by intros [= ].
Qed.

Lemma copy_trailing_fields st :
  src_cur_line (copy_trailing st) = src_cur_line st
  ∧ dst_cur_line (copy_trailing st) = dst_cur_line st
  ∧ dst_beg_line (copy_trailing st) = dst_beg_line st
  ∧ bad_hunk_count (copy_trailing st) = bad_hunk_count st
  ∧ hunk_count (copy_trailing st) = hunk_count st
  ∧ log (copy_trailing st) = log st.
Proof.
  unfold copy_trailing. destruct (copy_trailing_lines_flag st); [|done].
  by destruct (copy_lines _ _ _) as [[src dst] remaining].
Qed.

(** The state of the locals at the end of the hunks decides what [finish]
    leaves under the name of the target, when no hunk failed and the run is
    not a dry run. *)
Lemma finish_clean_target cfg name backup st (disk : filesystem) ret0 :
  opt_dry_run cfg = false →
  (∀ b, backup = Some b → b = name +:+ ".orig") →
  bad_hunk_count st = 0 →
  fs (finish cfg name backup st disk ret0) !! name =
    if (dst_cur_line st =? 0) || (dst_beg_line st =? 0) then None
    else Some (File (concat (dst_stream (copy_trailing st)))).
Proof.
  intros Hdry Hb Hbad. unfold finish, flush_dst, fclose_written.
  destruct (copy_trailing_fields st) as (_ & -> & -> & -> & _ & _).
  rewrite Hbad, Hdry. cbn [negb andb fs Z.eqb].
  set (written := File (concat (dst_stream (copy_trailing st)))).
  assert (Hname : match backup with
                  | Some b => unlink b (<[name := written]> disk)
                  | None => <[name := written]> disk
                  end !! name = Some written).
  { destruct backup as [b|]; [|apply lookup_insert_eq].
    rewrite (Hb b eq_refl), unlink_lookup_ne by exact (λ H, orig_neq name (eq_sym H)).
    apply lookup_insert_eq. }
  destruct ((dst_cur_line st =? 0) || (dst_beg_line st =? 0)); [|done].
  rewrite (unlink_file _ _ _ Hname). apply lookup_delete_eq.
Qed.

Lemma edit_step_keeps_header cfg off sl dl st line :
  dst_beg_line (state_of (edit_step cfg off sl dl st line)) = dst_beg_line st.
Proof.
  assert (Hemit : ∀ s pl, dst_beg_line (state_of (emit dl s pl)) = dst_beg_line s).
  { intros s pl. unfold emit. by destruct (dst_cur_line s =? dl). }
  assert (Hread : ∀ pl, dst_beg_line (read_src st pl).2 = dst_beg_line st).
  { intros pl. unfold read_src. by destruct (src_stream st) as [[|l ls]|]. }
  unfold edit_step.
  set (pl := if bool_decide (line = "") then " " else line).
  destruct (negb (is_edit_char (head_char pl))); [done|].
  destruct (negb (bool_decide (head_char pl = plus cfg))); [|apply Hemit].
  destruct (src_cur_line st =? sl); [done|].
  specialize (Hread pl). destruct (read_src st pl) as [ok st1]. cbn [snd] in Hread.
  destruct ok; cbn [negb andb].
  - destruct (negb (bool_decide (head_char pl = " "%char))); [done|].
    by rewrite Hemit.
  - by destruct (opt_N cfg).
Qed.

Lemma edit_loop_keeps_header cfg off sl dl pf : ∀ st st' pl pf',
  edit_loop cfg off sl dl st pf = (st', pl, pf') →
  dst_beg_line st' = dst_beg_line st.
Proof.
  induction pf as [|line pf IH]; intros st st' pl pf' H; cbn [edit_loop] in H.
  - by inversion H.
  - pose proof (edit_step_keeps_header cfg off sl dl st line) as Hk.
    destruct (edit_step cfg off sl dl st line) as [st1|st1 pl1]; cbn [state_of] in Hk.
    + apply IH in H. congruence.
    + inversion H; subst. done.
Qed.

Lemma hunk_begin_stores_header st h st1 off sl dl :
  hunk_begin st h = inr (st1, off, sl, dl) → dst_beg_line st1 = h_dst_beg h.
Proof.
  unfold hunk_begin.
  destruct (negb (h_src_beg h =? 0) && negb (h_dst_beg h =? 0)).
  - destruct (copy_lines _ _ _) as [[src dst] remaining].
    destruct (negb (remaining =? 0)); [done|]. by intros [= <- _ _ _].
  - by intros [= <- _ _ _].
Qed.

(** The line with which a turn leaves the edit loop is the line that it
    was given, or a space in the place of an empty line. *)
Lemma edit_step_break_line cfg off sl dl st line st' pl :
  edit_step cfg off sl dl st line = Break st' pl →
  pl = if bool_decide (line = "") then " " else line.
Proof.
  unfold edit_step, emit.
  set (patch_line := if bool_decide (line = "") then " " else line).
  destruct (negb (is_edit_char (head_char patch_line))); [by intros [= _ <-]|].
  destruct (negb (bool_decide (head_char patch_line = plus cfg))).
  - destruct (src_cur_line st =? sl); [by intros [= _ <-]|].
    destruct (read_src st patch_line) as [ok st1].
    destruct ok; cbn [negb andb].
    + destruct (negb (bool_decide (head_char patch_line = " "%char))); [done|].
      destruct (dst_cur_line st1 =? dl); [by intros [= _ <-]|done].
    + destruct (opt_N cfg); [done|by intros [= _ <-]].
  - destruct (dst_cur_line st =? dl); [by intros [= _ <-]|done].
Qed.

(** The edit loop returns with a line of the patch in hand, and with the
    lines that follow it. *)
Lemma edit_loop_break cfg off sl dl pf : ∀ st st' l pf',
  edit_loop cfg off sl dl st pf = (st', Some l, pf') →
  ∃ consumed line,
    pf = consumed ++ line :: pf'
    ∧ l = if bool_decide (line = "") then " " else line.
Proof.
  induction pf as [|line pf IH]; intros st st' l pf' H; cbn [edit_loop] in H; [done|].
  destruct (edit_step cfg off sl dl st line) as [st1|st1 pl1] eqn:E.
  - destruct (IH _ _ _ _ H) as (consumed & line' & -> & Hl).
    by exists (line :: consumed), line'.
  - injection H as <- <- <-. apply edit_step_break_line in E.
    by exists [], line.
Qed.

(** The loop over the hunks either finds no header, and leaves the locals
    as they were, or ends in the edit loop of the last header that it
    parsed: the lines of the patch are those that precede that header, the
    header, and the lines that its edit loop is given; the edit loop
    returns at the end of the patch or with a line that is no header. *)
Lemma hunk_loop_last_header cfg pf : ∀ st pl st' pl' pf',
  hunk_loop cfg st pl pf = HunksDone st' pl' pf' →
  (st' = st ∧ pl' = Some pl ∧ pf' = pf ∧ scan_hunk_header pl = None)
  ∨ ∃ before header_line hunk h st0 st1 off sl dl,
      pl :: pf = before ++ header_line :: hunk
      ∧ scan_hunk_header header_line = Some h
      ∧ hunk_begin st0 (oriented cfg h) = inr (st1, off, sl, dl)
      ∧ edit_loop cfg off sl dl st1 hunk = (st', pl', pf')
      ∧ from_option (λ l, scan_hunk_header l = None) True pl'.
Proof.
  remember (List.length pf) as n eqn:Hn.
  assert (Hle : (List.length pf ≤ n)%nat) by lia. clear Hn. revert pf Hle.
  induction n as [n IH] using lt_wf_ind. intros pf Hle st pl st' pl' pf' H.
  rewrite hunk_loop_eq in H.
  destruct (scan_hunk_header pl) as [h|] eqn:Hscan; [|left; by injection H as <- <- <-].
  destruct (hunk_begin st (oriented cfg h)) as [stx|[[[st1 off] sl] dl]] eqn:Hb; [done|].
  destruct (edit_loop cfg off sl dl st1 pf) as [[st2 pl2] pf2] eqn:He.
  pose proof (edit_loop_length _ _ _ _ _ _ _ _ _ He) as Hlen.
  right. destruct pl2 as [pl2|].
  - destruct (edit_loop_break _ _ _ _ _ _ _ _ _ He) as (consumed & line & Hpf & Hpl2).
    apply (IH (List.length pf2)) in H; [|lia|lia].
    destruct H as [(-> & -> & -> & Hnone)|H].
    + exists [], pl, pf, h, st, st1, off, sl, dl. split_and!; done.
    + destruct H as (before & header_line & hunk & h' & st0' & st1' & off' & sl' & dl'
                     & Heq & Hscan' & Hb' & He' & Hpl').
      assert (Hlines : ∃ skipped, line :: pf2 = skipped ++ header_line :: hunk).
      { destruct before as [|b before]; cbn [app] in Heq; injection Heq as -> ->.
        - exists []. cbn [app]. f_equal.
          case_bool_decide as Hline; [|done]. rewrite Hpl2 in Hscan'. by vm_compute in Hscan'.
        - by exists (line :: before). }
      destruct Hlines as (skipped & Hlines).
      exists (pl :: consumed ++ skipped), header_line, hunk, h', st0', st1', off', sl', dl'.
      split; [|done]. rewrite Hpf. cbn [app]. f_equal.
      rewrite <- app_assoc. by rewrite Hlines.
  - injection H as <- <- <-. cbn beta iota in Hlen. subst pf2.
    exists [], pl, pf, h, st, st1, off, sl, dl. split_and!; done.
Qed.

(** C9: when a file section ends with no failed hunk in a run that is not a
    dry run, the target is removed exactly when the destination cursor is 0
    or the destination start is 0, whatever was written; otherwise the
    target holds what was written.  The destination start is that of the
    last header parsed in the section (after the exchange of a reverse
    patch): either no header was parsed, and the destination cursor is 0;
    or the lines of the section are those before a header, the header and
    the lines given to its edit loop, the edit loop returns the locals of
    the end of the section, at the end of the patch or with a line that is
    no header, and the destination start is the one that this header
    declares. *)
Theorem target_removed_iff cfg r name pf r' st pl pf' :
  opt_dry_run cfg = false →
  file_section cfg r name pf = SectionDone r' st pl pf' →
  bad_hunk_count st = 0 →
  (fs r' !! name = None ↔ dst_cur_line st = 0 ∨ dst_beg_line st = 0)
  ∧ (fs r' !! name = None
     ∨ fs r' !! name = Some (File (concat (dst_stream (copy_trailing st)))))
  ∧ ((hunk_count st = 0 ∧ dst_cur_line st = 0)
     ∨ ∃ before header_line hunk h st0 st1 off sl dl,
         pf = before ++ header_line :: hunk
         ∧ scan_hunk_header header_line = Some h
         ∧ hunk_begin st0 (oriented cfg h) = inr (st1, off, sl, dl)
         ∧ edit_loop cfg off sl dl st1 hunk = (st, pl, pf')
         ∧ from_option (λ l, scan_hunk_header l = None) True pl
         ∧ dst_beg_line st = h_dst_beg (oriented cfg h)).
Proof.
  intros Hdry Hsec Hbad.
  unfold file_section in Hsec.
  destruct (open_streams cfg name (fs r)) as [[fs0 src] backup] eqn:Ho.
  assert (Hb : ∀ b, backup = Some b → b = name +:+ ".orig").
  { intros b ->. by eapply open_streams_backup. }
  set (st0 := initial_state src (out r ++ [PatchingFile name])) in Hsec.
  destruct (match xmalloc_fgets pf with Some _ => _ | None => _ end)
    as [st1 pl1 pf1|st1] eqn:Hloop; [|done].
  injection Hsec as <- -> -> ->.
  rewrite (finish_clean_target cfg name backup st fs0 (ret r) Hdry Hb Hbad).
  split_and!.
  - destruct (Z.eqb_spec (dst_cur_line st) 0) as [E1|E1];
      destruct (Z.eqb_spec (dst_beg_line st) 0) as [E2|E2]; cbn [orb].
    + split; [by left|done].
    + split; [by left|done].
    + split; [by right|done].
    + split; [done|]. intros [?|?]; done.
  - destruct ((dst_cur_line st =? 0) || (dst_beg_line st =? 0)); [by left|by right].
  - destruct pf as [|line pf1]; cbn [xmalloc_fgets] in Hloop.
    { injection Hloop as <- _ _. by left. }
    destruct (hunk_loop_last_header _ _ _ _ _ _ _ Hloop)
      as [(-> & _)|(before & header_line & hunk & h & sta & stb & off & sl & dl
                  & Heq & Hscan & Hbegin & Hedit & Hpl)]; [by left|].
    right. exists before, header_line, hunk, h, sta, stb, off, sl, dl.
    split_and!; try done.
    apply edit_loop_keeps_header in Hedit. apply hunk_begin_stores_header in Hbegin.
    congruence.
Qed.

(** Two hunks, of which the first declares the destination start 1 and the
    second the destination start 0: the lines A and B are written, the
    destination start is that of the second header, and the target is
    removed. *)
Lemma target_removed_iff_witness :
  ∃ r' st pl pf',
    file_section forward two_start_run "f" two_start_hunks = SectionDone r' st pl pf'
    ∧ dst_stream st = ["A" +:+ nl; "B" +:+ nl]
    ∧ dst_cur_line st = 2
    ∧ dst_beg_line st = 0
    ∧ (fs r' !! "f" = None ↔ dst_cur_line st = 0 ∨ dst_beg_line st = 0)
    ∧ fs r' !! "f" = None
    ∧ ∃ before header_line hunk h st0 st1 off sl dl,
        two_start_hunks = before ++ header_line :: hunk
        ∧ scan_hunk_header header_line = Some h
        ∧ hunk_begin st0 (oriented forward h) = inr (st1, off, sl, dl)
        ∧ edit_loop forward off sl dl st1 hunk = (st, pl, pf')
        ∧ from_option (λ l, scan_hunk_header l = None) True pl
        ∧ dst_beg_line st = h_dst_beg (oriented forward h)
        ∧ h_dst_beg h = 0.
Proof.
  destruct (file_section forward two_start_run "f" two_start_hunks)
    as [r' st pl pf'|r'] eqn:E; [|vm_compute in E; discriminate].
  pose proof (target_removed_iff forward two_start_run "f" two_start_hunks
                r' st pl pf' eq_refl E) as H.
  vm_compute in E. injection E as <- <- <- <-.
  eexists _, _, _, _. split; [reflexivity|].
  split; [reflexivity|]. split; [reflexivity|]. split; [reflexivity|].
  destruct (H eq_refl) as (Hiff & _ & [[Hcount _]|Hlast]); [done|].
  split; [exact Hiff|]. split; [apply Hiff; by right|].
  destruct Hlast as (before & header_line & hunk & h & st0 & st1 & off & sl & dl
                     & Heq & Hscan & Hbegin & Hedit & Hpl & Hstart).
  exists before, header_line, hunk, h, st0, st1, off, sl, dl.
  split_and!; done.
Defined.

(** ** Failures, the exit status, and what a failed section leaves *)

Lemma quiet_trans st1 st2 st3 : quiet st1 st2 → quiet st2 st3 → quiet st1 st3.
Proof. unfold quiet. intros [-> ->] [-> ->]. done. Qed.

Lemma read_src_quiet st pl : quiet st (read_src st pl).2.
Proof. unfold read_src. by destruct (src_stream st) as [[|l ls]|]. Qed.

Lemma emit_quiet dl st pl : quiet st (state_of (emit dl st pl)).
Proof. unfold emit. by destruct (dst_cur_line st =? dl). Qed.

(** One turn of the edit loop either counts nothing, or counts one failure
    and leaves the loop with a line that starts as an edit does. *)
Lemma edit_step_log cfg off sl dl st line :
  quiet st (state_of (edit_step cfg off sl dl st line))
  ∨ ∃ st' pl, edit_step cfg off sl dl st line = Break st' pl
             ∧ is_edit_char (head_char pl) = true
             ∧ failed_once st st'.
Proof.
  unfold edit_step.
  set (pl := if bool_decide (line = "") then " " else line).
  destruct (is_edit_char (head_char pl)) eqn:Hedit; cbn [negb]; [|by left].
  destruct (negb (bool_decide (head_char pl = plus cfg))); [|left; apply emit_quiet].
  destruct (src_cur_line st =? sl); [by left|].
  pose proof (read_src_quiet st pl) as Hq.
  destruct (read_src st pl) as [ok st1]. cbn [snd] in Hq.
  destruct ok; cbn [negb andb].
  - destruct (negb (bool_decide (head_char pl = " "%char))); [by left|].
    left. eapply quiet_trans; [done|apply emit_quiet].
  - destruct (opt_N cfg); [by left|].
    right. exists (with_failure st1 off), pl. split; [done|]. split; [done|].
    destruct Hq as [Hb Hl]. split.
    + cbn. by rewrite Hb.
    + exists (hunk_count st1), off. cbn. by rewrite Hl.
Qed.

Lemma edit_loop_log cfg off sl dl pf : ∀ st st' pl pf',
  edit_loop cfg off sl dl st pf = (st', pl, pf') →
  quiet st st'
  ∨ (failed_once st st' ∧ ∃ l, pl = Some l ∧ is_edit_char (head_char l) = true).
Proof.
  induction pf as [|line pf IH]; intros st st' pl pf' H; cbn [edit_loop] in H.
  - inversion H; subst. by left.
  - destruct (edit_step_log cfg off sl dl st line) as [Hq|(st1 & pl1 & E & Hedit & Hf)].
    + destruct (edit_step cfg off sl dl st line) as [st1|st1 pl1]; cbn [state_of] in Hq.
      * destruct (IH _ _ _ _ H) as [Hq'|[[Hb (n & o & Hl)] Hpl]].
        -- left. by eapply quiet_trans.
        -- right. destruct Hq as [Hqb Hql]. split; [|done]. split.
           ++ by rewrite Hb, Hqb.
           ++ exists n, o. by rewrite Hl, Hql.
      * inversion H; subst. by left.
    + rewrite E in H. inversion H; subst. right. eauto.
Qed.

Lemma hunk_begin_log st h :
  match hunk_begin st h with
  | inr (st1, _, _, _) => quiet st st1
  | inl st1 => bad_hunk_count st1 = bad_hunk_count st ∧ log st1 = log st ++ [BadSrcFile]
  end.
Proof.
  unfold hunk_begin.
  destruct (negb (h_src_beg h =? 0) && negb (h_dst_beg h =? 0)); [|done].
  destruct (copy_lines _ _ _) as [[src dst] remaining].
  by destruct (negb (remaining =? 0)).
Qed.

(** The loop over the hunks of a file counts at most one failure. *)
Lemma hunk_loop_log cfg pf : ∀ st pl,
  match hunk_loop cfg st pl pf with
  | HunksDone st' _ _ => quiet st st' ∨ failed_once st st'
  | HunksDied st' =>
      bad_hunk_count st' = bad_hunk_count st ∧ log st' = log st ++ [BadSrcFile]
  end.
Proof.
  remember (List.length pf) as n eqn:Hn.
  assert (Hle : (List.length pf ≤ n)%nat) by lia. clear Hn. revert pf Hle.
  induction n as [n IH] using lt_wf_ind. intros pf Hle st pl.
  rewrite hunk_loop_eq.
  destruct (scan_hunk_header pl) as [h|]; [|by left].
  pose proof (hunk_begin_log st (oriented cfg h)) as Hb.
  destruct (hunk_begin st (oriented cfg h)) as [st1|[[[st1 off] sl] dl]]; [done|].
  destruct (edit_loop cfg off sl dl st1 pf) as [[st2 pl2] pf2] eqn:He.
  pose proof (edit_loop_length _ _ _ _ _ _ _ _ _ He) as Hlen.
  destruct (edit_loop_log _ _ _ _ _ _ _ _ _ He) as [Hq|[Hf (l & -> & Hedit)]].
  - destruct pl2 as [pl2|].
    + assert (Hq2 : quiet st st2) by (by eapply quiet_trans).
      specialize (IH (List.length pf2) ltac:(lia) pf2 ltac:(lia) st2 pl2).
      destruct Hq2 as [Hqb Hql].
      destruct (hunk_loop cfg st2 pl2 pf2) as [st3 pl3 pf3|st3].
      * destruct IH as [[Hb3 Hl3]|[Hb3 (k & o & Hl3)]].
        -- left. split; congruence.
        -- right. split; [congruence|]. exists k, o. congruence.
      * destruct IH as [Hb3 Hl3]. split; congruence.
    + left. by eapply quiet_trans.
  - rewrite hunk_loop_eq, (scan_hunk_header_edit_char l Hedit).
    right. destruct Hb as [Hbb Hbl], Hf as [Hfb (k & o & Hfl)].
    split; [congruence|]. exists k, o. congruence.
Qed.

Lemma edit_step_report cfg off sl dl st line :
  (quiet st (state_of (edit_step cfg off sl dl st line))
   ∧ hunk_count (state_of (edit_step cfg off sl dl st line)) = hunk_count st)
  ∨ (opt_N cfg = false
     ∧ ∃ st' pl, edit_step cfg off sl dl st line = Break st' pl
                 ∧ is_edit_char (head_char pl) = true
                 ∧ hunk_count st' = hunk_count st
                 ∧ reported st st').
Proof.
  unfold edit_step, emit, read_src.
  set (pl := if bool_decide (line = "") then " " else line).
  destruct (is_edit_char (head_char pl)) eqn:Hedit; cbn [negb]; [|by left].
  destruct (negb (bool_decide (head_char pl = plus cfg)));
    [|left; by destruct (dst_cur_line st =? dl)].
  destruct (src_cur_line st =? sl); [by left|].
  destruct (src_stream st) as [[|src_line rest]|] eqn:Hsrc; cbn [negb andb].
  1, 3: destruct (opt_N cfg); [by left|]; right; split; [done|];
    eexists _, _; split; [done|]; split; [done|]; split; [done|];
    split; [done|]; by exists off.
  destruct (streq src_line (tail pl)); cbn [negb andb].
  - destruct (negb (bool_decide (head_char pl = " "%char))); [by left|].
    left. cbn [dst_cur_line with_src_read]. by destruct (dst_cur_line st =? dl).
  - destruct (opt_N cfg); [by left|]. right. split; [done|].
    eexists _, _. split; [done|]. split; [done|]. split; [done|].
    split; [done|]. by exists off.
Qed.

Lemma edit_loop_report cfg off sl dl pf : ∀ st st' pl pf',
  edit_loop cfg off sl dl st pf = (st', pl, pf') →
  (quiet st st' ∧ hunk_count st' = hunk_count st)
  ∨ (opt_N cfg = false ∧ reported st st' ∧ hunk_count st' = hunk_count st
     ∧ ∃ l, pl = Some l ∧ is_edit_char (head_char l) = true).
Proof.
  induction pf as [|line pf IH]; intros st st' pl pf' H; cbn [edit_loop] in H.
  - injection H as <- <- <-. by left.
  - destruct (edit_step_report cfg off sl dl st line)
      as [[Hq Hc]|(HN & st1 & pl1 & E & Hedit & Hc & Hf)].
    + destruct (edit_step cfg off sl dl st line) as [st1|st1 pl1];
        cbn [state_of] in Hq, Hc.
      * destruct Hq as [Hqb Hql].
        destruct (IH _ _ _ _ H) as [[[Hb Hl] Hc']|(HN & [Hb (o & Hl)] & Hc' & Hpl)].
        -- left. split; [split|]; congruence.
        -- right. split; [done|]. split; [split; [congruence|]|split; [congruence|done]].
           exists o. congruence.
      * injection H as <- <- <-. by left.
    + rewrite E in H. injection H as <- <- <-. right. eauto 10.
Qed.

(** The loop over the hunks of a file ends at the first hunk that fails:
    the failure that it reports is that of the hunk that it counted last. *)
Lemma hunk_loop_report cfg pf : ∀ st pl,
  match hunk_loop cfg st pl pf with
  | HunksDone st' _ _ => quiet st st' ∨ (opt_N cfg = false ∧ reported st st')
  | HunksDied st' =>
      bad_hunk_count st' = bad_hunk_count st ∧ log st' = log st ++ [BadSrcFile]
  end.
Proof.
  remember (List.length pf) as n eqn:Hn.
  assert (Hle : (List.length pf ≤ n)%nat) by lia. clear Hn. revert pf Hle.
  induction n as [n IH] using lt_wf_ind. intros pf Hle st pl.
  rewrite hunk_loop_eq.
  destruct (scan_hunk_header pl) as [h|]; [|by left].
  pose proof (hunk_begin_log st (oriented cfg h)) as Hb.
  destruct (hunk_begin st (oriented cfg h)) as [st1|[[[st1 off] sl] dl]]; [done|].
  destruct (edit_loop cfg off sl dl st1 pf) as [[st2 pl2] pf2] eqn:He.
  pose proof (edit_loop_length _ _ _ _ _ _ _ _ _ He) as Hlen.
  destruct Hb as [Hbb Hbl].
  destruct (edit_loop_report _ _ _ _ _ _ _ _ _ He)
    as [[[Hqb Hql] _]|(HN & [Hfb (o & Hfl)] & Hc & l & -> & Hedit)].
  - destruct pl2 as [pl2|].
    + specialize (IH (List.length pf2) ltac:(lia) pf2 ltac:(lia) st2 pl2).
      destruct (hunk_loop cfg st2 pl2 pf2) as [st3 pl3 pf3|st3].
      * destruct IH as [[Hb3 Hl3]|(HN & Hb3 & o & Hl3)].
        -- left. split; congruence.
        -- right. split; [done|]. split; [congruence|]. exists o. congruence.
      * destruct IH as [Hb3 Hl3]. split; congruence.
    + left. split; congruence.
  - rewrite hunk_loop_eq, (scan_hunk_header_edit_char l Hedit).
    right. split; [done|]. split; [congruence|]. exists o. congruence.
Qed.

(** When the loop over the hunks has counted a failure, it has ended with
    the line of the mismatch in hand. *)
Lemma hunk_loop_failed cfg pf : ∀ st pl st' pl' pf',
  hunk_loop cfg st pl pf = HunksDone st' pl' pf' →
  quiet st st'
  ∨ (opt_N cfg = false ∧ reported st st'
     ∧ ∃ l, pl' = Some l ∧ is_edit_char (head_char l) = true).
Proof.
  remember (List.length pf) as n eqn:Hn.
  assert (Hle : (List.length pf ≤ n)%nat) by lia. clear Hn. revert pf Hle.
  induction n as [n IH] using lt_wf_ind. intros pf Hle st pl st' pl' pf' H.
  rewrite hunk_loop_eq in H.
  destruct (scan_hunk_header pl) as [h|]; [|left; by injection H as <- _ _].
  pose proof (hunk_begin_log st (oriented cfg h)) as Hb.
  destruct (hunk_begin st (oriented cfg h)) as [st1|[[[st1 off] sl] dl]]; [done|].
  destruct (edit_loop cfg off sl dl st1 pf) as [[st2 pl2] pf2] eqn:He.
  pose proof (edit_loop_length _ _ _ _ _ _ _ _ _ He) as Hlen.
  destruct Hb as [Hbb Hbl].
  destruct (edit_loop_report _ _ _ _ _ _ _ _ _ He)
    as [[[Hqb Hql] _]|(HN & [Hfb (o & Hfl)] & Hc & l & -> & Hedit)].
  - destruct pl2 as [pl2|].
    + apply (IH (List.length pf2)) in H; [|lia|lia].
      destruct H as [[Hb3 Hl3]|(HN & [Hb3 (o & Hl3)] & Hpl)].
      * left. split; congruence.
      * right. split; [done|]. split; [|done]. split; [congruence|].
        exists o. congruence.
    + injection H as <- _ _. left. split; congruence.
  - rewrite hunk_loop_eq, (scan_hunk_header_edit_char l Hedit) in H.
    injection H as <- <- <-.
    right. split; [done|]. split; [|by exists l]. split; [congruence|].
    exists o. congruence.
Qed.

Lemma some_hunk_failed_app (a b : list message) :
  some_hunk_failed (a ++ b) = some_hunk_failed a || some_hunk_failed b.
Proof. apply existsb_app. Qed.

(** The hunks of a section, from the state in which the section starts. *)
Lemma section_hunks_log cfg src msgs pf :
  match match xmalloc_fgets pf with
        | None => HunksDone (initial_state src msgs) None []
        | Some (patch_line, patch_file) =>
            hunk_loop cfg (initial_state src msgs) patch_line patch_file
        end with
  | HunksDone st _ _ =>
      (bad_hunk_count st = 0 ∧ log st = msgs)
      ∨ (bad_hunk_count st = 1 ∧ ∃ hunk offset, log st = msgs ++ [HunkFailed hunk offset])
  | HunksDied st => log st = msgs ++ [BadSrcFile]
  end.
Proof.
  destruct (xmalloc_fgets pf) as [[line pf1]|]; [|by left].
  pose proof (hunk_loop_log cfg pf1 (initial_state src msgs) line) as H.
  destruct (hunk_loop cfg _ line pf1) as [st pl' pf'|st].
  - destruct H as [[Hb Hl]|[Hb Hl]]; [by left|right].
    split; [by rewrite Hb|done].
  - by destruct H.
Qed.

Lemma file_section_status cfg r name pf :
  status_agrees r →
  match file_section cfg r name pf with
  | SectionDone r' _ _ _ => status_agrees r'
  | SectionDied r' => ends_fatal r'
  end.
Proof.
  intros Hr. unfold file_section.
  destruct (open_streams cfg name (fs r)) as [[fs0 src] backup].
  pose proof (section_hunks_log cfg src (out r ++ [PatchingFile name]) pf) as H.
  destruct (match xmalloc_fgets pf with Some _ => _ | None => _ end)
    as [st pl' pf'|st].
  - unfold status_agrees, finish.
    destruct (copy_trailing_fields st) as (_ & _ & _ & -> & -> & ->).
    destruct H as [[Hb Hl]|[Hb (k & o & Hl)]]; rewrite Hb; cbn [Z.eqb negb ret out].
    + rewrite Hl, some_hunk_failed_app. cbn. rewrite orb_false_r. exact Hr.
    + rewrite Hl, !some_hunk_failed_app. cbn. by rewrite orb_true_r.
  - exists (out r ++ [PatchingFile name]), BadSrcFile. done.
Qed.

Lemma file_loop_status fuel cfg : ∀ r pl pf o,
  status_agrees r →
  file_loop fuel cfg r pl pf = Some o →
  match o with
  | Returned r' => status_agrees r'
  | Died r' => ends_fatal r'
  end.
Proof.
  induction fuel as [|fuel IH]; intros r pl pf o Hr H;
    (destruct pl as [pl|]; cbn [file_loop] in H; [|by inversion H; subst]);
    (destruct (seek_old cfg pl pf) as [[pl1 pf1]|]; [|by inversion H; subst]);
    (destruct (extract_filename pl1 (patch_level cfg) "+++ ") as [name|];
       [|inversion H; subst; by exists (out r), InvalidPatch]);
    pose proof (file_section_status cfg r name pf1 Hr) as Hs;
    (destruct (file_section cfg r name pf1) as [r' st pl2 pf2|r'];
       [|by inversion H; subst]).
  - done.
  - by eapply IH.
Qed.

(** The exit status of a run: 2 after an exit, 1 when the run returns and a
    hunk was reported as failed, 0 when it returns and none was. *)
Lemma patch_main_status cfg disk patch o :
  patch_main cfg disk patch = Some o →
  match o with
  | Returned r => exit_status o = if some_hunk_failed (out r) then 1 else 0
  | Died r => exit_status o = 2 ∧ ends_fatal r
  end.
Proof.
  unfold patch_main. intros H.
  assert (H0 : status_agrees {| fs := disk; ret := 0; out := [] |}) by done.
  destruct (xmalloc_fgetline (chunks patch)) as [[pl pf]|].
  - apply (file_loop_status _ _ _ _ _ _ H0) in H. by destruct o.
  - by inversion H; subst.
Qed.

(** What a section with a failed hunk leaves on the disk, for a target that
    was there: the backup holds the node as it was, the target holds what
    was written. *)
Lemma failed_section_retains cfg r name pf r' st pl pf' n :
  opt_dry_run cfg = false →
  fs r !! name = Some n →
  file_section cfg r name pf = SectionDone r' st pl pf' →
  bad_hunk_count st ≠ 0 →
  ret r' = 1
  ∧ fs r' !! (name +:+ ".orig") = Some n
  ∧ fs r' !! name = Some (File (concat (dst_stream (copy_trailing st))))
  ∧ out r' = log st ++ [HunksFailed (bad_hunk_count st) (hunk_count st)].
Proof.
  intros Hdry Hn Hsec Hbad. unfold file_section in Hsec.
  rewrite (open_streams_existing cfg name n (fs r) Hdry Hn) in Hsec.
  assert (Hfin : ∀ fs0, 
    r' = finish cfg name (Some (name +:+ ".orig")) st fs0 (ret r) →
    fs0 !! (name +:+ ".orig") = Some n →
    ret r' = 1
    ∧ fs r' !! (name +:+ ".orig") = Some n
    ∧ fs r' !! name = Some (File (concat (dst_stream (copy_trailing st))))
    ∧ out r' = log st ++ [HunksFailed (bad_hunk_count st) (hunk_count st)]).
  { intros fs0 -> Hfs0. unfold finish, flush_dst, fclose_written.
    destruct (copy_trailing_fields st) as (_ & _ & _ & -> & -> & ->).
    rewrite Hdry. replace (bad_hunk_count st =? 0) with false
      by (symmetry; by apply Z.eqb_neq).
    cbn [negb ret fs out]. split_and!; [done| |by rewrite lookup_insert_eq|done].
    by rewrite lookup_insert_ne by (intros E; symmetry in E; by apply orig_neq in E). }
  destruct (match xmalloc_fgets pf with Some _ => _ | None => _ end)
    as [st1 pl1 pf1|st1]; [|done].
  inversion Hsec; subst. apply (Hfin _ eq_refl).
  unfold xfopen_for_write. rewrite lookup_insert_ne by (intros E; symmetry in E; by apply orig_neq in E).
  by rewrite lookup_insert_eq.
Qed.

(** A marker of the old file that is not followed by one of the new file
    ends the run. *)
Lemma invalid_patch_exits fuel cfg r old_line next pf name :
  extract_filename old_line (patch_level cfg) "--- " = Some name →
  extract_filename (chomp next) (patch_level cfg) "+++ " = None →
  file_loop fuel cfg r (Some old_line) (next :: pf)
  = Some (Died {| fs := fs r; ret := ret r; out := out r ++ [InvalidPatch] |}).
Proof.
  intros Hold Hnew. destruct fuel; cbn [file_loop seek_old]; by rewrite Hold, Hnew.
Qed.

(** [copy_lines] copies as many lines as are asked for and are there. *)
Lemma copy_from_spec src : ∀ dst count,
  unsigned count →
  let n := Nat.min (Z.to_nat count) (List.length src) in
  copy_from src dst count = (skipn n src, dst ++ firstn n src, count - Z.of_nat n).
Proof.
  induction src as [|line src IH]; intros dst count Hc; cbv zeta.
  - rewrite Nat.min_0_r. cbn. rewrite app_nil_r. f_equal. lia.
  - cbn [copy_from]. destruct (Z.eqb_spec count 0) as [->|Hne].
    + cbn. rewrite app_nil_r. done.
    + assert (Hc1 : unsigned (count - 1)) by (unfold unsigned in *; lia).
      rewrite (u32_small _ Hc1), (IH _ _ Hc1). cbv zeta.
      replace (Z.to_nat count) with (S (Z.to_nat (count - 1))) by (unfold unsigned in *; lia).
      cbn [List.length Nat.min skipn firstn].
      rewrite <- app_assoc. cbn [app]. f_equal. lia.
Qed.

(** A source that is shorter than the lines that precede a hunk ends the
    run: the loop over the hunks exits on "bad src file". *)
Lemma short_source_exits cfg st pl pf h :
  scan_hunk_header pl = Some h →
  unsigned (src_cur_line st) →
  h_src_beg (oriented cfg h) ≠ 0 →
  h_dst_beg (oriented cfg h) ≠ 0 →
  Z.of_nat (List.length (src_lines st))
    < u32 (h_src_beg (oriented cfg h) - src_cur_line st) →
  ∃ st', hunk_loop cfg st pl pf = HunksDied st'
         ∧ log st' = log st ++ [BadSrcFile].
Proof.
  intros Hscan Hcur Hs Hd Hshort.
  rewrite hunk_loop_eq, Hscan.
  pose proof (hunk_begin_log st (oriented cfg h)) as Hlog.
  unfold hunk_begin in *.
  replace (h_src_beg (oriented cfg h) =? 0) with false in *
    by (symmetry; by apply Z.eqb_neq).
  replace (h_dst_beg (oriented cfg h) =? 0) with false in *
    by (symmetry; by apply Z.eqb_neq).
  cbn [negb andb] in *. cbn [with_header src_stream dst_stream src_cur_line] in *.
  set (count := u32 (h_src_beg (oriented cfg h) - src_cur_line st)) in *.
  assert (Hcount : unsigned count) by apply u32_unsigned.
  unfold copy_lines in *. unfold src_lines in Hshort.
  unfold unsigned in Hcount.
  destruct (src_stream st) as [src|]; cbn [default] in Hshort; unfold id in Hshort.
  - rewrite (copy_from_spec src _ _ Hcount) in *. cbv zeta in *.
    replace (Nat.min (Z.to_nat count) (List.length src)) with (List.length src) in *
      by lia.
    replace (count - Z.of_nat (List.length src) =? 0) with false in *
      by (symmetry; apply Z.eqb_neq; lia).
    cbn [negb] in *. destruct Hlog as [_ Hlog]. eauto.
  - replace (count =? 0) with false in *
      by (symmetry; apply Z.eqb_neq; cbn [List.length] in Hshort; lia).
    cbn [negb] in *. destruct Hlog as [_ Hlog]. eauto.
Qed.

Lemma died_section_exits fuel cfg r old_line next pf name target :
  extract_filename old_line (patch_level cfg) "--- " = Some name →
  extract_filename (chomp next) (patch_level cfg) "+++ " = Some target →
  ∀ r', file_section cfg r target pf = SectionDied r' →
  file_loop fuel cfg r (Some old_line) (next :: pf) = Some (Died r').
Proof.
  intros Hold Hnew r' Hsec.
  destruct fuel; cbn [file_loop seek_old]; by rewrite Hold, Hnew, Hsec.
Qed.

(** C6, as the code has it: a run that returns has the exit status 1 when a
    hunk was reported as failed and 0 when none was; a run that exits does
    so with the status 2, after "bad src file" or "invalid patch".  A file
    section in which a hunk failed sets the status 1 and, when it is closed,
    leaves the backup of a target that was there, with the node as it was,
    and the target with what was written.  A marker of the old file that is
    not followed by a marker of the new file, and a source shorter than the
    lines that precede a hunk, are such exits. *)
Theorem exit_status_and_retention :
  (∀ cfg disk patch o,
     patch_main cfg disk patch = Some o →
     match o with
     | Returned r => exit_status o = if some_hunk_failed (out r) then 1 else 0
     | Died r => exit_status o = 2 ∧ ends_fatal r
     end)
  ∧ (∀ cfg r name pf r' st pl pf' n,
       opt_dry_run cfg = false →
       fs r !! name = Some n →
       file_section cfg r name pf = SectionDone r' st pl pf' →
       bad_hunk_count st ≠ 0 →
       ret r' = 1
       ∧ fs r' !! (name +:+ ".orig") = Some n
       ∧ fs r' !! name = Some (File (concat (dst_stream (copy_trailing st)))))
  ∧ (∀ fuel cfg r old_line next pf name,
       extract_filename old_line (patch_level cfg) "--- " = Some name →
       extract_filename (chomp next) (patch_level cfg) "+++ " = None →
       ∃ o, file_loop fuel cfg r (Some old_line) (next :: pf) = Some o
            ∧ exit_status o = 2)
  ∧ (∀ cfg st pl pf h,
       scan_hunk_header pl = Some h →
       unsigned (src_cur_line st) →
       h_src_beg (oriented cfg h) ≠ 0 →
       h_dst_beg (oriented cfg h) ≠ 0 →
       Z.of_nat (List.length (src_lines st))
         < u32 (h_src_beg (oriented cfg h) - src_cur_line st) →
       ∃ st', hunk_loop cfg st pl pf = HunksDied st')
  ∧ (∀ fuel cfg r old_line next pf name target r',
       extract_filename old_line (patch_level cfg) "--- " = Some name →
       extract_filename (chomp next) (patch_level cfg) "+++ " = Some target →
       file_section cfg r target pf = SectionDied r' →
       ∃ o, file_loop fuel cfg r (Some old_line) (next :: pf) = Some o
            ∧ exit_status o = 2).
Proof.
  split_and!.
  - apply patch_main_status.
  - intros cfg r name pf r' st pl pf' n Hdry Hn Hsec Hbad.
    destruct (failed_section_retains _ _ _ _ _ _ _ _ _ Hdry Hn Hsec Hbad)
      as (? & ? & ? & _). done.
  - intros fuel cfg r old_line next pf name Hold Hnew.
    eexists. split; [by eapply invalid_patch_exits|done].
  - intros cfg st pl pf h Hscan Hcur Hs Hd Hshort.
    destruct (short_source_exits cfg st pl pf h Hscan Hcur Hs Hd Hshort) as (st' & ? & _).
    eauto.
  - intros fuel cfg r old_line next pf name target r' Hold Hnew Hsec.
    eexists. split; [by eapply died_section_exits|done].
Qed.

(** Scenario B of the specification (the first line of the file does not
    match), a marker with no successor, and a hunk at line 5 of a file of one
    line. *)
Lemma exit_status_and_retention_witness :
  (∃ o, patch_main forward scenario_B_disk scenario_patch = Some o
        ∧ exit_status o = 1
        ∧ fs (final o) !! "f.orig" = Some (File (text ["qux"; "baz"]))
        ∧ fs (final o) !! "f" = Some (File (text ["baz"])))
  ∧ (∃ r' st pl pf',
       file_section forward scenario_B_run "f" scenario_hunk = SectionDone r' st pl pf'
       ∧ ret r' = 1
       ∧ fs r' !! "f.orig" = Some (File (text ["qux"; "baz"]))
       ∧ fs r' !! "f" = Some (File (concat (dst_stream (copy_trailing st)))))
  ∧ (∃ o, file_loop 1 forward {| fs := ∅; ret := 0; out := [] |}
            (Some "--- a/f") ["no marker" +:+ nl] = Some o
          ∧ exit_status o = 2)
  ∧ (∃ st', hunk_loop forward (initial_state (Some ["a" +:+ nl]) [])
              ("@@ -5,1 +5,1 @@" +:+ nl) ["-e" +:+ nl] = HunksDied st').
Proof.
  destruct exit_status_and_retention as (Hstatus & Hretain & Hinvalid & Hshort & _).
  split_and!.
  - specialize (Hstatus forward scenario_B_disk scenario_patch).
    destruct (patch_main forward scenario_B_disk scenario_patch) as [o|] eqn:E;
      [|vm_compute in E; discriminate].
    specialize (Hstatus o eq_refl).
    vm_compute in E. injection E as <-.
    eexists. split; [reflexivity|]. split; [exact Hstatus|].
    split; reflexivity.
  - destruct (file_section forward scenario_B_run "f" scenario_hunk)
      as [r' st pl pf'|r'] eqn:E; [|vm_compute in E; discriminate].
    pose proof (Hretain forward scenario_B_run "f" scenario_hunk r' st pl pf'
                  (File (text ["qux"; "baz"])) eq_refl eq_refl E) as H.
    vm_compute in E. injection E as <- <- <- <-.
    eexists _, _, _, _. split; [reflexivity|].
    apply H. vm_compute. discriminate.
  - apply (Hinvalid 1%nat forward {| fs := ∅; ret := 0; out := [] |}
             "--- a/f" ("no marker" +:+ nl) [] "f");
      reflexivity.
  - apply (Hshort forward (initial_state (Some ["a" +:+ nl]) [])
             ("@@ -5,1 +5,1 @@" +:+ nl) ["-e" +:+ nl]
             {| h_src_beg := 5; h_src_last := 1; h_dst_beg := 5; h_dst_last := 1 |}).
    + reflexivity.
    + unfold unsigned. cbn. lia.
    + vm_compute. discriminate.
    + vm_compute. discriminate.
    + vm_compute. reflexivity.
Defined.

(** C6 as the specification has it fails for the run as a whole: the first
    section of [twice_patch] fails on the file a and leaves the backup; the
    second section names the same target, moves the partial file over the
    backup, applies, and removes the backup.  The run returns 1, and
    neither the backup nor the content of the file is left. *)
Lemma later_section_removes_backup :
  ∃ o, patch_main forward {[ "f" := File (text ["a"]) ]} twice_patch = Some o
     ∧ exit_status o = 1
     ∧ out (final o)
       = [PatchingFile "f"; HunkFailed 1 1; HunksFailed 1 1; PatchingFile "f"]
     ∧ fs (final o) !! "f.orig" = None
     ∧ fs (final o) = {[ "f" := File (text ["z"]) ]}.
Proof.
  eexists. split; [vm_compute; reflexivity|].
  split; [reflexivity|]. split; [reflexivity|]. split; reflexivity.
Qed.

(** ** The lines of a text *)

Lemma chunks_cons c s :
  chunks (String c s) =
  if bool_decide (c = newline) then nl :: chunks s
  else match chunks s with
       | [] => [String c ""]
       | l :: ls => String c l :: ls
       end.
Proof. reflexivity. Qed.


Lemma terminated_cons c l :
  l ≠ "" → terminated (String c l) = negb (bool_decide (c = newline)) && terminated l.
Proof. by destruct l. Qed.

Lemma terminated_nonempty l : terminated l = true → l ≠ "".
Proof. by destruct l. Qed.


Lemma chunks_terminated_app l s :
  terminated l = true → chunks (l +:+ s) = l :: chunks s.
Proof.
  induction l as [|c l IH]; [done|]. intros Ht.
  rewrite string_app_cons, chunks_cons.
  destruct l as [|c' l].
  - cbn in Ht. apply bool_decide_eq_true in Ht. subst c.
    by rewrite string_app_nil_l.
  - rewrite terminated_cons in Ht by done.
    apply andb_true_iff in Ht as [Hc Ht]. apply negb_true_iff in Hc.
    rewrite Hc, (IH Ht). done.
Qed.






(** ** The edit loop on the body that the header declares *)

Lemma body_line_inv l :
  body_line l = true →
  l ≠ "" ∧ terminated l = true
  ∧ (head_char l = "-"%char ∨ head_char l = "+"%char ∨ head_char l = " "%char).
Proof.
  unfold body_line, is_edit_char. intros H.
  apply andb_true_iff in H as [Hc Ht]. split; [by apply terminated_nonempty|].
  split; [done|].
  apply orb_true_iff in Hc as [Hc|Hc]; [apply orb_true_iff in Hc as [Hc|Hc]|];
    apply bool_decide_eq_true in Hc; auto.
Qed.

(** A turn of the edit loop on a line of a body. *)
Lemma edit_step_body cfg off sl dl st l :
  body_line l = true →
  edit_step cfg off sl dl st l =
  if src_side cfg l then
    if src_cur_line st =? sl then Break st l
    else
      let '(src_line, st1) := read_src st l in
      if negb src_line && opt_N cfg then Continue st1
      else if negb src_line then Break (with_failure st1 off) l
      else if dst_side cfg l then emit dl st1 l
      else Continue st1
  else emit dl st l.
Proof.
  intros Hl. destruct (body_line_inv l Hl) as (Hne & _ & Hc).
  unfold edit_step, src_side, dst_side, plus, minus, is_edit_char.
  rewrite (bool_decide_eq_false_2 _ Hne).
  destruct (opt_R cfg); destruct Hc as [E | [E | E]]; rewrite E;
    cbn [negb orb bool_decide];
    try done; destruct (src_cur_line st =? sl); try done;
    destruct (read_src st l) as [ok st1]; destruct ok; done.
Qed.


Lemma same_file_refl st : same_file st st.
Proof. done. Qed.

Lemma same_file_trans st1 st2 st3 :
  same_file st1 st2 → same_file st2 st3 → same_file st1 st3.
Proof.
  unfold same_file. intros (-> & -> & -> & -> & ->) (-> & -> & -> & -> & ->). done.
Qed.

Lemma edit_loop_end cfg off sl dl st next :
  ends_hunk next →
  edit_loop cfg off sl dl st next = (st, (next_line next).1, (next_line next).2).
Proof.
  destruct next as [|l next]; [done|]. intros [Hne Hc]. cbn [edit_loop next_line fst snd].
  unfold edit_step. by rewrite (bool_decide_eq_false_2 _ Hne), Hc.
Qed.

(** The body of a hunk against a source that holds the lines it compares:
    they are read, the lines of the destination side are written, and the
    loop ends on the line after the body. *)
Lemma edit_loop_body cfg off sl dl next src' : ∀ body st,
  forallb body_line body = true →
  ends_hunk next →
  src_stream st = Some (src_payloads cfg body ++ src') →
  unsigned (src_cur_line st) → unsigned (dst_cur_line st) →
  sl = src_cur_line st + Z.of_nat (List.length (src_payloads cfg body)) → sl < 2 ^ 32 →
  dl = dst_cur_line st + Z.of_nat (List.length (dst_payloads cfg body)) → dl < 2 ^ 32 →
  ∃ st',
    edit_loop cfg off sl dl st (body ++ next) = (st', (next_line next).1, (next_line next).2)
    ∧ src_stream st' = Some src'
    ∧ dst_stream st' = dst_stream st ++ dst_payloads cfg body
    ∧ src_cur_line st' = sl ∧ dst_cur_line st' = dl
    ∧ same_file st st'.
Proof.
  induction body as [|l body IH]; intros st Hbody Hnext Hsrc Hsc Hdc Hsl Hsl32 Hdl Hdl32.
  - exists st. cbn [app src_payloads dst_payloads List.length] in *.
    rewrite edit_loop_end by done. rewrite app_nil_r.
    split_and!; try done; lia.
  - cbn [forallb] in Hbody. apply andb_true_iff in Hbody as [Hl Hbody].
    cbn [app edit_loop]. rewrite edit_step_body by done.
    cbn [src_payloads dst_payloads] in *.
    unfold unsigned in *.
    assert (Hemit : ∀ s, unsigned (dst_cur_line s) →
      dst_cur_line s < dl → emit dl s l = Continue (with_dst_write s (tail l))).
    { intros s Hs Hlt. unfold emit.
      by replace (dst_cur_line s =? dl) with false by (symmetry; apply Z.eqb_neq; lia). }
    destruct (src_side cfg l) eqn:Hss.
    + cbn [app List.length] in *.
      replace (src_cur_line st =? sl) with false by (symmetry; apply Z.eqb_neq; lia).
      unfold read_src. rewrite Hsrc. unfold streq.
      rewrite bool_decide_eq_true_2 by done. cbn [negb andb].
      assert (Hu : u32 (src_cur_line st + 1) = src_cur_line st + 1)
        by (apply u32_small; unfold unsigned; lia).
      destruct (dst_side cfg l) eqn:Hds.
      * cbn [List.length] in *. rewrite Hemit; [|cbn; unfold unsigned; lia|cbn; lia].
        assert (Hu' : u32 (dst_cur_line st + 1) = dst_cur_line st + 1)
          by (apply u32_small; unfold unsigned; lia).
        destruct (IH (with_dst_write (with_src_read st (src_payloads cfg body ++ src'))
                        (tail l))) as (st' & He & Hs' & Hd' & Hsc' & Hdc' & Hsame);
          cbn; rewrite ?Hu, ?Hu'; try done; try lia.
        exists st'. rewrite He. cbn in Hd'. rewrite <- app_assoc in Hd'.
        split_and!; done.
      * destruct (IH (with_src_read st (src_payloads cfg body ++ src')))
          as (st' & He & Hs' & Hd' & Hsc' & Hdc' & Hsame);
          cbn; rewrite ?Hu; try done; try lia.
        exists st'. rewrite He. split_and!; done.
    + assert (Hds : dst_side cfg l = true).
      { unfold src_side, dst_side, plus, minus in *. apply negb_false_iff in Hss.
        apply bool_decide_eq_true in Hss. rewrite Hss.
        by destruct (opt_R cfg). }
      rewrite Hds in *. cbn [List.length] in *. rewrite Hemit; [|done|lia].
      assert (Hu' : u32 (dst_cur_line st + 1) = dst_cur_line st + 1)
        by (apply u32_small; unfold unsigned; lia).
      destruct (IH (with_dst_write st (tail l)))
        as (st' & He & Hs' & Hd' & Hsc' & Hdc' & Hsame);
        cbn; rewrite ?Hu'; try done; try lia.
      exists st'. rewrite He. cbn in Hd'. rewrite <- app_assoc in Hd'.
      split_and!; done.
Qed.

(** When the body of a hunk goes through with no failure, the source held
    the lines that the body compares. *)
Lemma edit_loop_body_inv cfg off sl dl next : ∀ body st src st' pl pf',
  opt_N cfg = false →
  forallb body_line body = true →
  src_stream st = Some src →
  unsigned (src_cur_line st) → unsigned (dst_cur_line st) →
  sl = src_cur_line st + Z.of_nat (List.length (src_payloads cfg body)) → sl < 2 ^ 32 →
  dl = dst_cur_line st + Z.of_nat (List.length (dst_payloads cfg body)) → dl < 2 ^ 32 →
  bad_hunk_count st = 0 →
  edit_loop cfg off sl dl st (body ++ next) = (st', pl, pf') →
  bad_hunk_count st' = 0 →
  ∃ src', src = src_payloads cfg body ++ src'.
Proof.
  induction body as [|l body IH];
    intros st src st' pl pf' HN Hbody Hsrc Hsc Hdc Hsl Hsl32 Hdl Hdl32 Hbad He Hbad'.
  - by exists src.
  - cbn [forallb] in Hbody. apply andb_true_iff in Hbody as [Hl Hbody].
    cbn [app edit_loop] in He. rewrite edit_step_body in He by done.
    cbn [src_payloads dst_payloads] in *.
    unfold unsigned in *.
    assert (Hemit : ∀ s, unsigned (dst_cur_line s) →
      dst_cur_line s < dl → emit dl s l = Continue (with_dst_write s (tail l))).
    { intros s Hs Hlt. unfold emit.
      by replace (dst_cur_line s =? dl) with false by (symmetry; apply Z.eqb_neq; lia). }
    destruct (src_side cfg l) eqn:Hss.
    + cbn [app List.length] in *.
      replace (src_cur_line st =? sl) with false in He by (symmetry; apply Z.eqb_neq; lia).
      unfold read_src in He. rewrite Hsrc, HN in He.
      assert (Hfail : ∀ s, bad_hunk_count s = 0 → bad_hunk_count (with_failure s off) ≠ 0).
      { intros s Hs. cbn. by rewrite Hs. }
      destruct src as [|x src]; cbn [negb andb] in He.
      { inversion He; subst. exfalso. by eapply Hfail; [|exact Hbad']. }
      unfold streq in He. case_bool_decide as Hx; cbn [negb andb] in He.
      2:{ inversion He; subst. exfalso. by eapply Hfail; [|exact Hbad']. }
      subst x.
      assert (Hu : u32 (src_cur_line st + 1) = src_cur_line st + 1)
        by (apply u32_small; unfold unsigned; lia).
      destruct (dst_side cfg l) eqn:Hds.
      * cbn [List.length] in *.
        rewrite Hemit in He; [|cbn; unfold unsigned; lia|cbn; lia].
        assert (Hu' : u32 (dst_cur_line st + 1) = dst_cur_line st + 1)
          by (apply u32_small; unfold unsigned; lia).
        eapply (IH _ src) in He; cbn; rewrite ?Hu, ?Hu'; try done; try lia.
        destruct He as [src' ->]. by exists src'.
      * eapply (IH _ src) in He; cbn; rewrite ?Hu; try done; try lia.
        destruct He as [src' ->]. by exists src'.
    + assert (Hds : dst_side cfg l = true).
      { unfold src_side, dst_side, plus, minus in *. apply negb_false_iff in Hss.
        apply bool_decide_eq_true in Hss. rewrite Hss.
        by destruct (opt_R cfg). }
      rewrite Hds in *. cbn [List.length] in *.
      rewrite Hemit in He; [|done|lia].
      assert (Hu' : u32 (dst_cur_line st + 1) = dst_cur_line st + 1)
        by (apply u32_small; unfold unsigned; lia).
      eapply (IH _ src) in He; cbn; rewrite ?Hu'; try done; lia.
Qed.

(** The start of a hunk on a source that holds the lines before it. *)
Lemma hunk_begin_copy st h before rest :
  src_stream st = Some (before ++ rest) →
  unsigned (src_cur_line st) →
  h_src_beg h ≠ 0 → h_dst_beg h ≠ 0 → unsigned (h_src_beg h) →
  Z.of_nat (List.length before) = h_src_beg h - src_cur_line st →
  unsigned (dst_cur_line st + Z.of_nat (List.length before)) →
  ∃ st1,
    hunk_begin st h = inr (st1, h_src_beg h, u32 (h_src_last h + h_src_beg h),
                           u32 (h_dst_last h + dst_cur_line st1))
    ∧ src_stream st1 = Some rest
    ∧ dst_stream st1 = dst_stream st ++ before
    ∧ src_cur_line st1 = h_src_beg h
    ∧ dst_cur_line st1 = dst_cur_line st + Z.of_nat (List.length before)
    ∧ dst_beg_line st1 = h_dst_beg h
    ∧ bad_hunk_count st1 = bad_hunk_count st
    ∧ log st1 = log st
    ∧ copy_trailing_lines_flag st1 = true.
Proof.
  intros Hsrc Hsc Hs Hd Hsu Hlen Hdc. unfold hunk_begin.
  replace (h_src_beg h =? 0) with false by (symmetry; by apply Z.eqb_neq).
  replace (h_dst_beg h =? 0) with false by (symmetry; by apply Z.eqb_neq).
  cbn [negb andb with_header src_stream dst_stream src_cur_line].
  rewrite <- Hlen. unfold copy_lines. rewrite Hsrc.
  assert (Hcount : unsigned (Z.of_nat (List.length before)))
    by (unfold unsigned in *; lia).
  rewrite (u32_small _ Hcount), (copy_from_spec _ _ _ Hcount). cbv zeta.
  rewrite Nat2Z.id, length_app.
  replace (Nat.min (List.length before) (List.length before + List.length rest))
    with (List.length before) by lia.
  rewrite Z.sub_diag. cbn [Z.eqb negb].
  rewrite skipn_app, firstn_app, Nat.sub_diag, skipn_all, firstn_all. cbn [skipn firstn app].
  rewrite app_nil_r.
  set (st1 := with_copy (with_header st (h_dst_beg h)) (Some rest)
                (dst_stream st ++ before) (Z.of_nat (List.length before))).
  assert (Hsc1 : src_cur_line st1 = h_src_beg h).
  { cbn. replace (src_cur_line st + Z.of_nat (List.length before))
      with (h_src_beg h) by lia. by apply u32_small. }
  assert (Hdc1 : dst_cur_line st1 = dst_cur_line st + Z.of_nat (List.length before)).
  { cbn. by apply u32_small. }
  exists st1. change (drop 0 rest) with rest.
  split_and!; try done. by rewrite <- Hsc1.
Qed.

(** A hunk that starts without the exit found its leading lines. *)
Lemma hunk_begin_inv st h src st1 off sl dl :
  src_stream st = Some src →
  h_src_beg h ≠ 0 → h_dst_beg h ≠ 0 →
  hunk_begin st h = inr (st1, off, sl, dl) →
  ∃ before rest,
    src = before ++ rest
    ∧ Z.of_nat (List.length before) = u32 (h_src_beg h - src_cur_line st).
Proof.
  intros Hsrc Hs Hd. unfold hunk_begin.
  replace (h_src_beg h =? 0) with false by (symmetry; by apply Z.eqb_neq).
  replace (h_dst_beg h =? 0) with false by (symmetry; by apply Z.eqb_neq).
  cbn [negb andb with_header src_stream dst_stream src_cur_line].
  set (count := u32 (h_src_beg h - src_cur_line st)).
  assert (Hcount : unsigned count) by apply u32_unsigned.
  unfold copy_lines. rewrite Hsrc, (copy_from_spec _ _ _ Hcount). cbv zeta.
  destruct (Z.eqb_spec (count - Z.of_nat (Nat.min (Z.to_nat count) (List.length src))) 0)
    as [E|E]; [|done].
  intros _. exists (firstn (Z.to_nat count) src), (skipn (Z.to_nat count) src).
  split; [by rewrite firstn_skipn|].
  rewrite length_firstn. unfold unsigned in Hcount. lia.
Qed.

(** ** The loop over consistent hunks *)

Lemma consistent_cons cfg sc dc header_line body hs :
  consistent cfg sc dc ((header_line, body) :: hs) = true →
  ∃ h0, scan_hunk_header header_line = Some h0
    ∧ sc ≤ h_src_beg (oriented cfg h0)
    ∧ h_src_beg (oriented cfg h0) - sc = h_dst_beg (oriented cfg h0) - dc
    ∧ forallb body_line body = true
    ∧ Z.of_nat (List.length (src_payloads cfg body)) = h_src_last (oriented cfg h0)
    ∧ Z.of_nat (List.length (dst_payloads cfg body)) = h_dst_last (oriented cfg h0)
    ∧ 1 ≤ h_src_last (oriented cfg h0) ∧ 1 ≤ h_dst_last (oriented cfg h0)
    ∧ h_src_beg (oriented cfg h0) + h_src_last (oriented cfg h0) < 2 ^ 32
    ∧ h_dst_beg (oriented cfg h0) + h_dst_last (oriented cfg h0) < 2 ^ 32
    ∧ consistent cfg (h_src_beg (oriented cfg h0) + h_src_last (oriented cfg h0))
        (h_dst_beg (oriented cfg h0) + h_dst_last (oriented cfg h0)) hs = true.
Proof.
  cbn [consistent]. destruct (scan_hunk_header header_line) as [h0|]; [|done].
  intros H. exists h0. split; [done|].
  repeat (apply andb_true_iff in H as [H ?]).
  split_and!; try done;
    first [by apply Z.leb_le | by apply Z.eqb_eq | by apply Z.ltb_lt].
Qed.

Lemma header_line_ends_hunk header_line h next :
  scan_hunk_header header_line = Some h → ends_hunk (header_line :: next).
Proof.
  intros Hscan. split.
  - by intros ->.
  - destruct (is_edit_char (head_char header_line)) eqn:E; [|done].
    by rewrite scan_hunk_header_edit_char in Hscan.
Qed.

Lemma consistent_ends_hunk cfg sc dc hs :
  consistent cfg sc dc hs = true → ends_hunk (render hs).
Proof.
  destruct hs as [|[header_line body] hs]; [done|]. intros H.
  apply consistent_cons in H as (h0 & Hscan & _). cbn [render].
  by eapply header_line_ends_hunk.
Qed.

(** One consistent hunk on a source that holds the lines before it and the
    lines that it compares: the hunk is applied, and the loop goes on with
    the line after its body. *)
Lemma hunk_loop_one cfg hs header_line body st sc dc before src' next :
  opt_N cfg = false →
  consistent cfg sc dc ((header_line, body) :: hs) = true →
  1 ≤ sc → 1 ≤ dc →
  ends_hunk next →
  (∃ h0, scan_hunk_header header_line = Some h0
         ∧ Z.of_nat (List.length before) = h_src_beg (oriented cfg h0) - sc) →
  src_stream st = Some (before ++ src_payloads cfg body ++ src') →
  src_cur_line st = sc → dst_cur_line st = dc - 1 →
  ∃ st2 h0,
    scan_hunk_header header_line = Some h0
    ∧ hunk_loop cfg st header_line (body ++ next) =
        match next with
        | [] => HunksDone st2 None []
        | l :: next' => hunk_loop cfg st2 l next'
        end
    ∧ src_stream st2 = Some src'
    ∧ dst_stream st2 = dst_stream st ++ before ++ dst_payloads cfg body
    ∧ src_cur_line st2 = h_src_beg (oriented cfg h0) + h_src_last (oriented cfg h0)
    ∧ dst_cur_line st2 = h_dst_beg (oriented cfg h0) + h_dst_last (oriented cfg h0) - 1
    ∧ dst_beg_line st2 = h_dst_beg (oriented cfg h0)
    ∧ bad_hunk_count st2 = bad_hunk_count st
    ∧ log st2 = log st
    ∧ copy_trailing_lines_flag st2 = true.
Proof.
  intros HN Hcons Hsc Hdc Hnext (h0' & Hscan' & Hlen) Hsrc Hcur Hdcur.
  apply consistent_cons in Hcons
    as (h0 & Hscan & Hbeg & Hgap & Hbody & Hsn & Hdn & Hs1 & Hd1 & Hs32 & Hd32 & Hrest).
  rewrite Hscan in Hscan'. injection Hscan' as <-.
  set (h := oriented cfg h0) in *.
  rewrite hunk_loop_eq, Hscan. fold h.
  destruct (hunk_begin_copy st h before (src_payloads cfg body ++ src'))
    as (st1 & -> & Hsrc1 & Hdst1 & Hsc1 & Hdc1 & Hbeg1 & Hbad1 & Hlog1 & Hflag1);
    [done | unfold unsigned; lia | lia | lia | unfold unsigned; lia | lia
    | unfold unsigned; lia |].
  destruct (edit_loop_body cfg (h_src_beg h) (u32 (h_src_last h + h_src_beg h))
              (u32 (h_dst_last h + dst_cur_line st1)) next src' body st1)
    as (st2 & He & Hsrc2 & Hdst2 & Hsc2 & Hdc2 & Hsame);
    [done | done | done | unfold unsigned; lia | unfold unsigned; lia
    | rewrite u32_small by (unfold unsigned; lia); lia
    | rewrite u32_small by (unfold unsigned; lia); lia
    | rewrite u32_small by (unfold unsigned; lia); lia
    | rewrite u32_small by (unfold unsigned; lia); lia |].
  rewrite u32_small in Hsc2, Hdc2 by (unfold unsigned; lia).
  destruct Hsame as (Hb2 & Hbad2 & _ & Hflag2 & Hlog2).
  exists st2, h0. rewrite He. fold h.
  split; [done|]. split; [by destruct next|].
  split; [done|]. split; [by rewrite Hdst2, Hdst1, <- app_assoc|].
  split; [lia|]. split; [lia|].
  split_and!; congruence.
Qed.

(** The loop over the hunks on a source that is woven from them: every
    hunk is applied, and the loop ends with the patch. *)
Lemma hunk_loop_woven cfg : ∀ hs header_line body st sc dc src written trail,
  opt_N cfg = false →
  consistent cfg sc dc ((header_line, body) :: hs) = true →
  1 ≤ sc → 1 ≤ dc →
  woven cfg sc ((header_line, body) :: hs) src written trail →
  src_stream st = Some src → src_cur_line st = sc → dst_cur_line st = dc - 1 →
  ∃ st',
    hunk_loop cfg st header_line (body ++ render hs) = HunksDone st' None []
    ∧ src_stream st' = Some trail
    ∧ dst_stream st' = dst_stream st ++ written
    ∧ bad_hunk_count st' = bad_hunk_count st
    ∧ log st' = log st
    ∧ copy_trailing_lines_flag st' = true
    ∧ dst_cur_line st' ≠ 0 ∧ dst_beg_line st' ≠ 0.
Proof.
  induction hs as [|[header_line' body'] hs IH];
    intros header_line body st sc dc src written trail HN Hcons Hsc Hdc Hw Hsrc Hcur Hdcur;
    pose proof Hcons as Hcons';
    apply consistent_cons in Hcons'
      as (h0 & Hscan & Hbeg & Hgap & Hbody & Hsn & Hdn & Hs1 & Hd1 & Hs32 & Hd32 & Hrest);
    cbn [woven] in Hw;
    destruct Hw as (h0' & before & src' & written' & Hscan' & Hlen & -> & -> & Hw);
    rewrite Hscan in Hscan'; injection Hscan' as <-.
  - destruct (hunk_loop_one cfg [] header_line body st sc dc before src' []
                HN Hcons Hsc Hdc I (ex_intro _ h0 (conj Hscan Hlen)) Hsrc Hcur Hdcur)
      as (st2 & h1 & Hscan1 & Hl & Hsrc2 & Hdst2 & Hsc2 & Hdc2 & Hb2 & Hbad2 & Hlog2 & Hflag2).
    rewrite Hscan in Hscan1. injection Hscan1 as <-.
    destruct Hw as [-> ->]. exists st2. cbn [render].
    split; [done|]. split; [done|].
    split; [by rewrite app_nil_r in *|].
    split_and!; try done; lia.
  - pose proof (consistent_ends_hunk _ _ _ _ Hrest) as Hnext.
    destruct (hunk_loop_one cfg _ header_line body st sc dc before src' _
                HN Hcons Hsc Hdc Hnext (ex_intro _ h0 (conj Hscan Hlen)) Hsrc Hcur Hdcur)
      as (st2 & h1 & Hscan1 & Hl & Hsrc2 & Hdst2 & Hsc2 & Hdc2 & Hb2 & Hbad2 & Hlog2 & Hflag2).
    rewrite Hscan in Hscan1. injection Hscan1 as <-.
    cbn [render] in Hl |- *. rewrite Hl.
    destruct (IH header_line' body' st2 _ _ src' written' trail HN Hrest)
      as (st' & Hl' & Hsrc' & Hdst' & Hbad' & Hlog' & Hflag' & Hne1 & Hne2);
      [lia | lia | done | done | done | lia |].
    exists st'. split; [done|]. split; [done|].
    split; [by rewrite Hdst', Hdst2, <- !app_assoc|].
    split_and!; congruence.
Qed.

(** When the loop over the hunks ends with no failure, the source held the
    lines before the first hunk and the lines that it compares. *)
Lemma hunk_loop_one_inv cfg hs header_line body st sc dc src next st' pl pf' :
  opt_N cfg = false →
  consistent cfg sc dc ((header_line, body) :: hs) = true →
  1 ≤ sc → 1 ≤ dc →
  src_stream st = Some src → src_cur_line st = sc → dst_cur_line st = dc - 1 →
  bad_hunk_count st = 0 →
  hunk_loop cfg st header_line (body ++ next) = HunksDone st' pl pf' →
  bad_hunk_count st' = 0 →
  ∃ h0 before src',
    scan_hunk_header header_line = Some h0
    ∧ Z.of_nat (List.length before) = h_src_beg (oriented cfg h0) - sc
    ∧ src = before ++ src_payloads cfg body ++ src'.
Proof.
  intros HN Hcons Hsc Hdc Hsrc Hcur Hdcur Hbad Hloop Hbad'.
  apply consistent_cons in Hcons
    as (h0 & Hscan & Hbeg & Hgap & Hbody & Hsn & Hdn & Hs1 & Hd1 & Hs32 & Hd32 & Hrest).
  set (h := oriented cfg h0) in *.
  rewrite hunk_loop_eq, Hscan in Hloop. fold h in Hloop.
  destruct (hunk_begin st h) as [stx|[[[st1 off] sl] dl]] eqn:Hb; [done|].
  destruct (hunk_begin_inv st h src st1 off sl dl Hsrc ltac:(lia) ltac:(lia) Hb)
    as (before & rest & -> & Hlen).
  rewrite u32_small in Hlen by (unfold unsigned; lia).
  destruct (hunk_begin_copy st h before rest)
    as (st1' & Hb' & Hsrc1 & Hdst1 & Hsc1 & Hdc1 & Hbeg1 & Hbad1 & Hlog1 & Hflag1);
    [done | unfold unsigned; lia | lia | lia | unfold unsigned; lia | lia
    | unfold unsigned; lia |].
  rewrite Hb in Hb'. injection Hb' as <- -> -> ->.
  destruct (edit_loop cfg (h_src_beg h) (u32 (h_src_last h + h_src_beg h))
              (u32 (h_dst_last h + dst_cur_line st1)) st1 (body ++ next))
    as [[st2 pl2] pf2] eqn:He.
  assert (Hbad2 : bad_hunk_count st2 = 0).
  { destruct (edit_loop_log _ _ _ _ _ _ _ _ _ He) as [[Hq _]|[[Hf _] (l & -> & Hedit)]].
    - congruence.
    - rewrite hunk_loop_eq, (scan_hunk_header_edit_char l Hedit) in Hloop.
      injection Hloop as <- _ _. done. }
  eapply (edit_loop_body_inv cfg _ _ _ _ body st1 rest) in He as [src' ->];
    [ | done | done | done | unfold unsigned; lia | unfold unsigned; lia
      | rewrite u32_small by (unfold unsigned; lia); lia
      | rewrite u32_small by (unfold unsigned; lia); lia
      | rewrite u32_small by (unfold unsigned; lia); lia
      | rewrite u32_small by (unfold unsigned; lia); lia
      | congruence
      | done ].
  exists h0, before, src'. split; [done|]. split; [|done]. fold h. lia.
Qed.

Lemma edit_loop_app cfg off sl dl b : ∀ a st st' pf',
  edit_loop cfg off sl dl st a = (st', None, pf') →
  edit_loop cfg off sl dl st (a ++ b) = edit_loop cfg off sl dl st' b.
Proof.
  induction a as [|l a IH]; intros st st' pf' H; cbn [edit_loop app] in *.
  - by injection H as <- _.
  - destruct (edit_step cfg off sl dl st l) as [st1|st1 pl1]; [by eapply IH|done].
Qed.

(** When both cursors are at their bounds the loop over the lines of the
    hunk leaves at the next line, whatever it is. *)
Lemma edit_loop_full cfg off sl dl st l next :
  l ≠ "" → src_cur_line st = sl → dst_cur_line st = dl →
  edit_loop cfg off sl dl st (l :: next) = (st, Some l, next).
Proof.
  intros Hl Hsl Hdl. cbn [edit_loop]. unfold edit_step, emit.
  rewrite (bool_decide_eq_false_2 _ Hl), Hsl, Hdl, !Z.eqb_refl.
  destruct (negb (is_edit_char (head_char l))); [done|].
  by destruct (negb (bool_decide (head_char l = plus cfg))).
Qed.

Lemma hunk_loop_one_more cfg hs header_line body st sc dc before src' next :
  opt_N cfg = false →
  consistent cfg sc dc ((header_line, body) :: hs) = true →
  1 ≤ sc → 1 ≤ dc →
  from_option (λ l, l ≠ "") True (head next) →
  (∃ h0, scan_hunk_header header_line = Some h0
         ∧ Z.of_nat (List.length before) = h_src_beg (oriented cfg h0) - sc) →
  src_stream st = Some (before ++ src_payloads cfg body ++ src') →
  src_cur_line st = sc → dst_cur_line st = dc - 1 →
  ∃ st2 h0,
    scan_hunk_header header_line = Some h0
    ∧ hunk_loop cfg st header_line (body ++ next) =
        match next with
        | [] => HunksDone st2 None []
        | l :: next' => hunk_loop cfg st2 l next'
        end
    ∧ src_stream st2 = Some src'
    ∧ dst_stream st2 = dst_stream st ++ before ++ dst_payloads cfg body
    ∧ src_cur_line st2 = h_src_beg (oriented cfg h0) + h_src_last (oriented cfg h0)
    ∧ dst_cur_line st2 = h_dst_beg (oriented cfg h0) + h_dst_last (oriented cfg h0) - 1
    ∧ dst_beg_line st2 = h_dst_beg (oriented cfg h0)
    ∧ bad_hunk_count st2 = bad_hunk_count st
    ∧ log st2 = log st
    ∧ copy_trailing_lines_flag st2 = true.
Proof.
  intros HN Hcons Hsc Hdc Hnext (h0' & Hscan' & Hlen) Hsrc Hcur Hdcur.
  apply consistent_cons in Hcons
    as (h0 & Hscan & Hbeg & Hgap & Hbody & Hsn & Hdn & Hs1 & Hd1 & Hs32 & Hd32 & Hrest).
  rewrite Hscan in Hscan'. injection Hscan' as <-.
  set (h := oriented cfg h0) in *.
  rewrite hunk_loop_eq, Hscan. fold h.
  destruct (hunk_begin_copy st h before (src_payloads cfg body ++ src'))
    as (st1 & -> & Hsrc1 & Hdst1 & Hsc1 & Hdc1 & Hbeg1 & Hbad1 & Hlog1 & Hflag1);
    [done | unfold unsigned; lia | lia | lia | unfold unsigned; lia | lia
    | unfold unsigned; lia |].
  destruct (edit_loop_body cfg (h_src_beg h) (u32 (h_src_last h + h_src_beg h))
              (u32 (h_dst_last h + dst_cur_line st1)) [] src' body st1)
    as (st2 & He & Hsrc2 & Hdst2 & Hsc2 & Hdc2 & Hsame);
    [done | done | done | unfold unsigned; lia | unfold unsigned; lia
    | rewrite u32_small by (unfold unsigned; lia); lia
    | rewrite u32_small by (unfold unsigned; lia); lia
    | rewrite u32_small by (unfold unsigned; lia); lia
    | rewrite u32_small by (unfold unsigned; lia); lia |].
  rewrite app_nil_r in He. cbn [next_line fst snd] in He.
  rewrite (edit_loop_app _ _ _ _ next _ _ _ _ He).
  assert (Hend : edit_loop cfg (h_src_beg h) (u32 (h_src_last h + h_src_beg h))
                   (u32 (h_dst_last h + dst_cur_line st1)) st2 next
                 = (st2, head next, drop 1 next)).
  { destruct next as [|l next']; [done|]. by apply edit_loop_full. }
  rewrite Hend.
  rewrite u32_small in Hsc2, Hdc2 by (unfold unsigned; lia).
  destruct Hsame as (Hb2 & Hbad2 & _ & Hflag2 & Hlog2).
  exists st2, h0. fold h.
  split; [done|]. split; [by destruct next|].
  split; [done|]. split; [by rewrite Hdst2, Hdst1, <- app_assoc|].
  split; [lia|]. split; [lia|].
  split_and!; congruence.
Qed.

(** The loop over the hunks on a source that is woven from them, when
    lines follow the hunks: every hunk is applied, and the loop goes on
    with the first of these lines. *)
Lemma hunk_loop_woven_more cfg more : ∀ hs header_line body st sc dc src written trail,
  opt_N cfg = false →
  consistent cfg sc dc ((header_line, body) :: hs) = true →
  1 ≤ sc → 1 ≤ dc →
  from_option (λ l, l ≠ "") True (head more) →
  woven cfg sc ((header_line, body) :: hs) src written trail →
  src_stream st = Some src → src_cur_line st = sc → dst_cur_line st = dc - 1 →
  ∃ st',
    hunk_loop cfg st header_line (body ++ render hs ++ more)
    = match more with
      | [] => HunksDone st' None []
      | l :: more' => hunk_loop cfg st' l more'
      end
    ∧ src_stream st' = Some trail
    ∧ dst_stream st' = dst_stream st ++ written
    ∧ bad_hunk_count st' = bad_hunk_count st
    ∧ log st' = log st
    ∧ copy_trailing_lines_flag st' = true
    ∧ dst_cur_line st' ≠ 0 ∧ dst_beg_line st' ≠ 0.
Proof.
  induction hs as [|[header_line' body'] hs IH];
    intros header_line body st sc dc src written trail HN Hcons Hsc Hdc Hmore Hw
      Hsrc Hcur Hdcur;
    pose proof Hcons as Hcons';
    apply consistent_cons in Hcons'
      as (h0 & Hscan & Hbeg & Hgap & Hbody & Hsn & Hdn & Hs1 & Hd1 & Hs32 & Hd32 & Hrest);
    cbn [woven] in Hw;
    destruct Hw as (h0' & before & src' & written' & Hscan' & Hlen & -> & -> & Hw);
    rewrite Hscan in Hscan'; injection Hscan' as <-.
  - destruct (hunk_loop_one_more cfg [] header_line body st sc dc before src' more
                HN Hcons Hsc Hdc Hmore (ex_intro _ h0 (conj Hscan Hlen)) Hsrc Hcur Hdcur)
      as (st2 & h1 & Hscan1 & Hl & Hsrc2 & Hdst2 & Hsc2 & Hdc2 & Hb2 & Hbad2 & Hlog2 & Hflag2).
    rewrite Hscan in Hscan1. injection Hscan1 as <-.
    destruct Hw as [-> ->]. exists st2. cbn [render app].
    split; [done|]. split; [done|].
    split; [by rewrite app_nil_r in *|].
    split_and!; try done; lia.
  - assert (Hnext : from_option (λ l, l ≠ "") True
                      (head (render ((header_line', body') :: hs) ++ more))).
    { cbn [render app head from_option]. intros ->.
      apply consistent_cons in Hrest as (h' & Hscan' & _). done. }
    destruct (hunk_loop_one_more cfg _ header_line body st sc dc before src' _
                HN Hcons Hsc Hdc Hnext (ex_intro _ h0 (conj Hscan Hlen)) Hsrc Hcur Hdcur)
      as (st2 & h1 & Hscan1 & Hl & Hsrc2 & Hdst2 & Hsc2 & Hdc2 & Hb2 & Hbad2 & Hlog2 & Hflag2).
    rewrite Hscan in Hscan1. injection Hscan1 as <-.
    cbn [render app] in Hl |- *. rewrite <- app_assoc in Hl |- *. rewrite Hl.
    destruct (IH header_line' body' st2 _ _ src' written' trail HN Hrest)
      as (st' & Hl' & Hsrc' & Hdst' & Hbad' & Hlog' & Hflag' & Hne1 & Hne2);
      [lia | lia | done | done | done | done | lia |].
    exists st'. split; [done|]. split; [done|].
    split; [by rewrite Hdst', Hdst2, <- !app_assoc|].
    split_and!; congruence.
Qed.

(** When the loop over consistent hunks ends with no failure, the source
    was woven from them; [more] is what follows the hunks. *)
Lemma hunk_loop_woven_inv_more cfg more : ∀ hs header_line body st sc dc src st' pl pf',
  opt_N cfg = false →
  consistent cfg sc dc ((header_line, body) :: hs) = true →
  1 ≤ sc → 1 ≤ dc →
  src_stream st = Some src → src_cur_line st = sc → dst_cur_line st = dc - 1 →
  bad_hunk_count st = 0 →
  hunk_loop cfg st header_line (body ++ render hs ++ more) = HunksDone st' pl pf' →
  bad_hunk_count st' = 0 →
  ∃ written trail, woven cfg sc ((header_line, body) :: hs) src written trail.
Proof.
  induction hs as [|[header_line' body'] hs IH];
    intros header_line body st sc dc src st' pl pf' HN Hcons Hsc Hdc Hsrc Hcur Hdcur
      Hbad Hloop Hbad';
    destruct (hunk_loop_one_inv cfg _ header_line body st sc dc src _ st' pl pf'
                HN Hcons Hsc Hdc Hsrc Hcur Hdcur Hbad Hloop Hbad')
      as (h0 & before & src' & Hscan & Hlen & ->).
  - exists (before ++ dst_payloads cfg body ++ []), src'.
    cbn [woven]. exists h0, before, src', []. done.
  - pose proof Hcons as Hcons'.
    apply consistent_cons in Hcons'
      as (h1 & Hscan1 & Hbeg & Hgap & Hbody & Hsn & Hdn & Hs1 & Hd1 & Hs32 & Hd32 & Hrest).
    rewrite Hscan in Hscan1. injection Hscan1 as <-.
    assert (Hnext : ends_hunk (render ((header_line', body') :: hs) ++ more)).
    { pose proof Hrest as Hrest'.
      apply consistent_cons in Hrest' as (h' & Hscan' & _).
      cbn [render app]. by eapply header_line_ends_hunk. }
    destruct (hunk_loop_one cfg _ header_line body st sc dc before src' _
                HN Hcons Hsc Hdc Hnext (ex_intro _ h0 (conj Hscan Hlen)) Hsrc Hcur Hdcur)
      as (st3 & h1 & Hscan1 & Hl & Hsrc3 & Hdst3 & Hsc3 & Hdc3 & Hb3 & Hbad3 & Hlog3 & Hflag3).
    rewrite Hscan in Hscan1. injection Hscan1 as <-.
    cbn [render app] in Hl, Hloop. rewrite <- app_assoc in Hl, Hloop.
    rewrite Hl in Hloop.
    destruct (IH header_line' body' st3 _ _ src' st' pl pf' HN Hrest)
      as (written' & trail & Hw); [lia | lia | done | done | lia | congruence | done | done |].
    exists (before ++ dst_payloads cfg body ++ written'), trail.
    cbn [woven]. exists h0, before, src', written'. done.
Qed.

Lemma hunk_loop_woven_inv cfg hs header_line body st sc dc src st' pl pf' :
  opt_N cfg = false →
  consistent cfg sc dc ((header_line, body) :: hs) = true →
  1 ≤ sc → 1 ≤ dc →
  src_stream st = Some src → src_cur_line st = sc → dst_cur_line st = dc - 1 →
  bad_hunk_count st = 0 →
  hunk_loop cfg st header_line (body ++ render hs) = HunksDone st' pl pf' →
  bad_hunk_count st' = 0 →
  ∃ written trail, woven cfg sc ((header_line, body) :: hs) src written trail.
Proof.
  intros HN Hcons Hsc Hdc Hsrc Hcur Hdcur Hbad Hloop Hbad'.
  apply (hunk_loop_woven_inv_more cfg [] hs header_line body st sc dc src st' pl pf');
    try done.
  by rewrite app_nil_r.
Qed.

(** ** Consistent hunks on a target that holds no line *)



(** ** The reverse of a consistent patch *)









Lemma woven_trail_length cfg : ∀ hs sc src written trail,
  woven cfg sc hs src written trail →
  (List.length trail ≤ List.length src)%nat.
Proof.
  induction hs as [|[header_line body] hs IH]; intros sc src written trail Hw.
  - by destruct Hw as [-> ->].
  - cbn [woven] in Hw.
    destruct Hw as (h0' & before & src' & written' & Hscan' & Hlen & -> & -> & Hw).
    apply IH in Hw. rewrite !length_app. lia.
Qed.

(** ** A file section of consistent hunks *)

Lemma copy_trailing_all st trail :
  copy_trailing_lines_flag st = true →
  src_stream st = Some trail →
  Z.of_nat (List.length trail) < 2 ^ 32 →
  dst_stream (copy_trailing st) = dst_stream st ++ trail.
Proof.
  intros Hflag Hsrc Hlen. unfold copy_trailing, copy_lines. rewrite Hflag, Hsrc.
  assert (Hcount : unsigned (u32 (-1))) by apply u32_unsigned.
  rewrite (copy_from_spec _ _ _ Hcount). cbv zeta.
  assert (Hmax : u32 (-1) = 2 ^ 32 - 1) by reflexivity.
  replace (Nat.min (Z.to_nat (u32 (-1))) (List.length trail)) with (List.length trail)
    by (rewrite Hmax; lia).
  cbn [with_streams dst_stream]. by rewrite firstn_all.
Qed.

Lemma section_disk name (content : string) n (disk : filesystem) :
  delete (name +:+ ".orig")
    (<[name := File content]>
       (<[name := File ""]> (<[name +:+ ".orig" := n]> (delete name disk))))
  = <[name := File content]> (delete (name +:+ ".orig") disk).
Proof.
  pose proof (orig_neq name) as Hne.
  apply map_eq. intros p.
  destruct (decide (p = name +:+ ".orig")) as [->|Hp].
  - rewrite lookup_delete_eq, lookup_insert_ne by done. by rewrite lookup_delete_eq.
  - rewrite lookup_delete_ne by done.
    destruct (decide (p = name)) as [->|Hp'].
    + by rewrite !lookup_insert_eq.
    + rewrite !lookup_insert_ne, !lookup_delete_ne by done. done.
Qed.

(** A section of consistent hunks on a target that is woven from them: the
    target receives what the hunks write and the trailing lines, and the
    backup is removed. *)
Lemma file_section_woven cfg r name content header_line body hs written trail :
  opt_N cfg = false → opt_dry_run cfg = false →
  fs r !! name = Some (File content) →
  consistent cfg 1 1 ((header_line, body) :: hs) = true →
  woven cfg 1 ((header_line, body) :: hs) (chunks content) written trail →
  Z.of_nat (List.length trail) < 2 ^ 32 →
  ∃ r' st,
    file_section cfg r name (render ((header_line, body) :: hs))
      = SectionDone r' st None []
    ∧ ret r' = ret r
    ∧ fs r' = <[name := File (concat (written ++ trail))]>
                (delete (name +:+ ".orig") (fs r)).
Proof.
  intros HN Hdry Hn Hcons Hw Hlen. unfold file_section.
  rewrite (open_streams_existing cfg name _ (fs r) Hdry Hn).
  cbn [render xmalloc_fgets node_lines].
  set (st0 := initial_state _ (out r ++ [PatchingFile name])).
  destruct (hunk_loop_woven cfg hs header_line body st0
              1 1 (chunks content) written trail HN Hcons)
    as (st & -> & Hsrc & Hdst & Hbad & Hlog & Hflag & Hcur & Hbeg);
    [lia | lia | done | done | done | done |].
  eexists _, st. split; [reflexivity|].
  unfold finish, flush_dst, fclose_written.
  destruct (copy_trailing_fields st) as (_ & -> & -> & -> & _ & _).
  rewrite Hbad, Hdry.
  replace (dst_cur_line st =? 0) with false by (symmetry; by apply Z.eqb_neq).
  replace (dst_beg_line st =? 0) with false by (symmetry; by apply Z.eqb_neq).
  cbn [st0 initial_state bad_hunk_count Z.eqb negb andb orb ret fs].
  split; [done|].
  rewrite (copy_trailing_all st trail Hflag Hsrc Hlen), Hdst.
  cbn [st0 initial_state dst_stream app].
  assert (Hne : name ≠ name +:+ ".orig") by exact (λ H, orig_neq name (eq_sym H)).
  rewrite (unlink_file _ content)
    by (rewrite !lookup_insert_ne by done; apply lookup_insert_eq).
  apply section_disk.
Qed.

(** The same when lines follow the hunks, of which the first is no hunk
    header: the section ends with that line in hand. *)
Lemma file_section_woven_more cfg r name content header_line body hs written trail more :
  opt_N cfg = false → opt_dry_run cfg = false →
  fs r !! name = Some (File content) →
  consistent cfg 1 1 ((header_line, body) :: hs) = true →
  woven cfg 1 ((header_line, body) :: hs) (chunks content) written trail →
  Z.of_nat (List.length trail) < 2 ^ 32 →
  from_option (λ l, l ≠ "" ∧ scan_hunk_header l = None) True (head more) →
  ∃ st,
    file_section cfg r name (render ((header_line, body) :: hs) ++ more)
    = SectionDone {| fs := <[name := File (concat (written ++ trail))]>
                             (delete (name +:+ ".orig") (fs r));
                     ret := ret r; out := out r ++ [PatchingFile name] |}
        st (head more) (drop 1 more)
    ∧ bad_hunk_count st = 0.
Proof.
  intros HN Hdry Hn Hcons Hw Hlen Hmore. unfold file_section.
  rewrite (open_streams_existing cfg name _ (fs r) Hdry Hn).
  cbn [render xmalloc_fgets app node_lines]. rewrite <- app_assoc.
  set (st0 := initial_state _ (out r ++ [PatchingFile name])).
  destruct (hunk_loop_woven_more cfg more hs header_line body st0
              1 1 (chunks content) written trail HN Hcons)
    as (st & Hloop & Hsrc & Hdst & Hbad & Hlog & Hflag & Hcur & Hbeg);
    [lia | lia | by destruct more as [|l more']; [|destruct Hmore] | done | done | done
    | done |].
  assert (Hdone : hunk_loop cfg st0 header_line (body ++ render hs ++ more)
                  = HunksDone st (head more) (drop 1 more)).
  { rewrite Hloop. destruct more as [|l more']; [done|].
    destruct Hmore as [_ Hscan]. by rewrite hunk_loop_eq, Hscan. }
  rewrite Hdone. exists st. split; [|done]. f_equal.
  unfold finish, flush_dst, fclose_written.
  destruct (copy_trailing_fields st) as (_ & -> & -> & -> & _ & ->).
  rewrite Hbad, Hdry, Hlog.
  replace (dst_cur_line st =? 0) with false by (symmetry; by apply Z.eqb_neq).
  replace (dst_beg_line st =? 0) with false by (symmetry; by apply Z.eqb_neq).
  cbn [st0 initial_state bad_hunk_count Z.eqb negb andb orb ret fs log].
  f_equal.
  rewrite (copy_trailing_all st trail Hflag Hsrc Hlen), Hdst.
  cbn [st0 initial_state dst_stream app].
  assert (Hne : name ≠ name +:+ ".orig") by exact (λ H, orig_neq name (eq_sym H)).
  rewrite (unlink_file _ content)
    by (rewrite !lookup_insert_ne by done; apply lookup_insert_eq).
  apply section_disk.
Qed.

(** The lines before the first marker of an old file are skipped. *)
Lemma seek_old_preamble cfg old_line new_line hunks skipped : ∀ preamble first rest,
  Forall (λ l, extract_filename (chomp l) (patch_level cfg) "--- " = None) preamble →
  extract_filename (chomp old_line) (patch_level cfg) "--- " = Some skipped →
  first :: rest = preamble ++ [old_line] →
  seek_old cfg (chomp first) (rest ++ new_line :: hunks) = Some (chomp new_line, hunks).
Proof.
  induction preamble as [|l preamble IH]; intros first rest Hpre Hold Heq.
  - injection Heq as -> ->. cbn [app seek_old]. by rewrite Hold.
  - injection Heq as -> ->. apply Forall_cons in Hpre as [Hl Hpre].
    destruct preamble as [|l' preamble].
    + cbn [app seek_old]. rewrite Hl, Hold. done.
    + cbn [app seek_old]. rewrite Hl. by apply (IH l' (preamble ++ [old_line])).
Qed.

(** A patch of one section: lines that are no markers, the two markers,
    then the lines [hunks]. *)
Lemma patch_main_one_section cfg disk patch preamble old_line new_line hunks skipped name :
  chunks patch = preamble ++ old_line :: new_line :: hunks →
  Forall (λ l, extract_filename (chomp l) (patch_level cfg) "--- " = None) preamble →
  extract_filename (chomp old_line) (patch_level cfg) "--- " = Some skipped →
  extract_filename (chomp new_line) (patch_level cfg) "+++ " = Some name →
  patch_main cfg disk patch =
  match file_section cfg {| fs := disk; ret := 0; out := [] |} name hunks with
  | SectionDied r' => Some (Died r')
  | SectionDone r' _ patch_line patch_file =>
      file_loop (List.length preamble + List.length hunks) cfg r' patch_line patch_file
  end.
Proof.
  intros Hchunks Hpre Hold Hnew. unfold patch_main. rewrite Hchunks.
  destruct (preamble ++ [old_line]) as [|first rest] eqn:Heq.
  { by destruct preamble. }
  replace (preamble ++ old_line :: new_line :: hunks)
    with (first :: rest ++ new_line :: hunks)
    by (change (first :: rest ++ new_line :: hunks)
          with ((first :: rest) ++ new_line :: hunks);
        by rewrite <- Heq, <- app_assoc).
  cbn [xmalloc_fgetline].
  assert (Hlen : List.length (rest ++ new_line :: hunks)
                 = S (List.length preamble + List.length hunks)).
  { apply (f_equal (@List.length string)) in Heq.
    rewrite length_app in Heq |- *. cbn [List.length] in *. lia. }
  rewrite Hlen. cbn [file_loop].
  rewrite (seek_old_preamble cfg old_line new_line hunks skipped preamble first rest
             Hpre Hold (eq_sym Heq)).
  by rewrite Hnew.
Qed.

(** Once the return value is 1 it stays 1. *)
Lemma file_loop_sticky fuel cfg : ∀ r pl pf o,
  ret r = 1 →
  file_loop fuel cfg r pl pf = Some o →
  exit_status o ≠ 0.
Proof.
  assert (Hsec : ∀ r name pf r' st pl pf',
    ret r = 1 → file_section cfg r name pf = SectionDone r' st pl pf' → ret r' = 1).
  { intros r name pf r' st pl pf' Hr. unfold file_section.
    destruct (open_streams cfg name (fs r)) as [[fs0 src] backup].
    destruct (match xmalloc_fgets pf with Some _ => _ | None => _ end)
      as [st1 pl1 pf1|st1]; [|done].
    intros [= <- _ _ _]. unfold finish.
    by destruct (negb (bad_hunk_count (copy_trailing st1) =? 0)). }
  induction fuel as [|fuel IH]; intros r pl pf o Hr H;
    (destruct pl as [pl|]; cbn [file_loop] in H;
       [|by injection H as <-; cbn; rewrite Hr]);
    (destruct (seek_old cfg pl pf) as [[pl1 pf1]|];
       [|by injection H as <-; cbn; rewrite Hr]);
    (destruct (extract_filename pl1 (patch_level cfg) "+++ ") as [name|];
       [|by injection H as <-]);
    (destruct (file_section cfg r name pf1) as [r' st pl2 pf2|r'] eqn:Hs;
       [|by injection H as <-]).
  - done.
  - apply Hsec in Hs; [|done]. by eapply IH.
Qed.






(** ** The section of a hunk that does not match *)

Lemma copy_trailing_unset st :
  copy_trailing_lines_flag st = false → copy_trailing st = st.
Proof. unfold copy_trailing. by intros ->. Qed.

Lemma copy_trailing_no_source st :
  src_stream st = None → dst_stream (copy_trailing st) = dst_stream st.
Proof.
  unfold copy_trailing, copy_lines. intros ->.
  by destruct (copy_trailing_lines_flag st).
Qed.

(** C1, as the code has it.  When a context or removal line does not match
    (and mismatches are not skipped), the failure is counted and reported
    and the edit loop is left with that line in hand; the line is no hunk
    header, so the loop over the hunks of the file ends there.  A file
    section that has counted a failure has counted one, that of the hunk
    that it counted last: no later header was parsed.  The section is then
    finished: the lines that are left in the source are copied only when
    the flag for it is set; the failed hunks are reported and the
    return value is 1; the target holds what was written and the backup
    holds what the target was.  The loop over the files then takes its next
    turn, with the line of the mismatch in hand. *)
Theorem mismatch_ends_section cfg :
  (∀ off sl dl st line rest,
     opt_N cfg = false →
     is_edit_char (head_char line) = true →
     head_char line ≠ plus cfg →
     src_cur_line st ≠ sl →
     (read_src st line).1 = false →
     let st' := with_failure (read_src st line).2 off in
     edit_loop cfg off sl dl st (line :: rest) = (st', Some line, rest)
     ∧ bad_hunk_count st' = u32 (bad_hunk_count st + 1)
     ∧ log st' = log st ++ [HunkFailed (hunk_count st) off]
     ∧ hunk_count st' = hunk_count st
     ∧ dst_stream st' = dst_stream st
     ∧ scan_hunk_header line = None
     ∧ hunk_loop cfg st' line rest = HunksDone st' (Some line) rest)
  ∧ (∀ r name pf r' st pl pf',
       file_section cfg r name pf = SectionDone r' st pl pf' →
       bad_hunk_count st ≠ 0 →
       opt_N cfg = false
       ∧ bad_hunk_count st = 1
       ∧ (∃ offset,
            log st = out r ++ [PatchingFile name; HunkFailed (hunk_count st) offset])
       ∧ (∃ line, pl = Some line
                  ∧ is_edit_char (head_char line) = true
                  ∧ scan_hunk_header line = None)
       ∧ ret r' = 1
       ∧ out r' = log st ++ [HunksFailed 1 (hunk_count st)]
       ∧ (copy_trailing_lines_flag st = false → copy_trailing st = st)
       ∧ (src_stream st = None → dst_stream (copy_trailing st) = dst_stream st)
       ∧ (∀ trail,
            copy_trailing_lines_flag st = true →
            src_stream st = Some trail →
            Z.of_nat (List.length trail) < 2 ^ 32 →
            dst_stream (copy_trailing st) = dst_stream st ++ trail)
       ∧ (opt_dry_run cfg = false →
            fs r' !! name = Some (File (concat (dst_stream (copy_trailing st))))
            ∧ ∀ n, fs r !! name = Some n → fs r' !! (name +:+ ".orig") = Some n)
       ∧ (∀ fuel old_line pf0 new_line,
            seek_old cfg old_line pf0 = Some (new_line, pf) →
            extract_filename new_line (patch_level cfg) "+++ " = Some name →
            file_loop (S fuel) cfg r (Some old_line) pf0 = file_loop fuel cfg r' pl pf')).
Proof.
  split.
  - intros off sl dl st line rest HN Hedit Hplus Hcur Hread st'.
    pose proof (scan_hunk_header_edit_char line Hedit) as Hscan.
    split_and!.
    + cbn [edit_loop]. by rewrite edit_step_mismatch.
    + unfold st', read_src. by destruct (src_stream st) as [[|l ls]|].
    + unfold st', read_src. by destruct (src_stream st) as [[|l ls]|].
    + unfold st', read_src. by destruct (src_stream st) as [[|l ls]|].
    + unfold st', read_src. by destruct (src_stream st) as [[|l ls]|].
    + done.
    + by rewrite hunk_loop_eq, Hscan.
  - intros r name pf r' st pl pf' Hsec Hbad.
    pose proof Hsec as Hsec0. unfold file_section in Hsec.
    destruct (open_streams cfg name (fs r)) as [[fs0 src] backup] eqn:Ho.
    set (st0 := initial_state src (out r ++ [PatchingFile name])) in Hsec.
    destruct (match xmalloc_fgets pf with Some _ => _ | None => _ end)
      as [st1 pl1 pf1|st1] eqn:Hloop; [|done].
    injection Hsec as <- -> -> ->.
    assert (Hrep : opt_N cfg = false ∧ reported st0 st
                   ∧ ∃ l, pl = Some l ∧ is_edit_char (head_char l) = true).
    { destruct pf as [|line pf1]; cbn [xmalloc_fgets] in Hloop.
      { injection Hloop as <- _ _. done. }
      destruct (hunk_loop_failed _ _ _ _ _ _ _ Hloop) as [[Hq _]|H]; [|done].
      by rewrite Hq in Hbad. }
    destruct Hrep as (HN & [Hcount (offset & Hlog)] & line & -> & Hedit).
    change (u32 (bad_hunk_count st0 + 1)) with 1 in Hcount.
    assert (Hfs : fs (finish cfg name backup st fs0 (ret r))
                  = flush_dst cfg name (copy_trailing st) fs0
                  ∧ ret (finish cfg name backup st fs0 (ret r)) = 1
                  ∧ out (finish cfg name backup st fs0 (ret r))
                    = log st ++ [HunksFailed 1 (hunk_count st)]).
    { unfold finish.
      destruct (copy_trailing_fields st) as (_ & _ & _ & -> & -> & ->).
      by rewrite Hcount. }
    destruct Hfs as (Hfs & Hret & Hout).
    split; [done|]. split; [done|].
    split; [exists offset; rewrite Hlog; cbn [st0 initial_state log];
            by rewrite <- app_assoc|].
    split; [exists line; split_and!; [done|done|by apply scan_hunk_header_edit_char]|].
    split; [done|]. split; [done|].
    split; [apply copy_trailing_unset|].
    split; [apply copy_trailing_no_source|].
    split; [intros trail; apply copy_trailing_all|].
    split.
    + intros Hdry. split.
      * rewrite Hfs. unfold flush_dst, fclose_written. rewrite Hdry.
        apply lookup_insert_eq.
      * intros n Hn.
        by destruct (failed_section_retains cfg r name pf _ st _ _ n Hdry Hn Hsec0 Hbad)
          as (_ & ? & _).
    + intros fuel old_line pf0 new_line Hseek Hname.
      cbn [file_loop]. by rewrite Hseek, Hname, Hsec0.
Qed.

(** The removal of x against a source that starts with a; and the section
    of [two_hunk_patch] on the file a, b, c, d: the first hunk fails, the
    second header is left unread, the lines b, c, d are copied, and the
    loop over the files goes on with the line of the mismatch. *)
Lemma mismatch_ends_section_witness :
  (let st := initial_state (Some ["a" +:+ nl; "b" +:+ nl]) [] in
   let line := "-x" +:+ nl in
   let rest := ["+y" +:+ nl; "@@ -2,1 +2,1 @@" +:+ nl; "-b" +:+ nl; "+B" +:+ nl] in
   let st' := with_failure (read_src st line).2 1 in
   edit_loop forward 1 2 1 st (line :: rest) = (st', Some line, rest)
   ∧ bad_hunk_count st' = u32 (bad_hunk_count st + 1)
   ∧ log st' = log st ++ [HunkFailed (hunk_count st) 1]
   ∧ hunk_count st' = hunk_count st
   ∧ dst_stream st' = dst_stream st
   ∧ scan_hunk_header line = None
   ∧ hunk_loop forward st' line rest = HunksDone st' (Some line) rest)
  ∧ ∃ r' st,
      file_section forward two_hunk_run "f" two_hunk_lines
        = SectionDone r' st (Some ("-x" +:+ nl))
            ["+y" +:+ nl; "@@ -3,1 +3,1 @@" +:+ nl; "-c" +:+ nl; "+C" +:+ nl]
      ∧ hunk_count st = 1
      ∧ ret r' = 1
      ∧ out r' = [PatchingFile "f"; HunkFailed 1 1; HunksFailed 1 1]
      ∧ dst_stream (copy_trailing st) = ["b" +:+ nl; "c" +:+ nl; "d" +:+ nl]
      ∧ fs r' !! "f" = Some (File (text ["b"; "c"; "d"]))
      ∧ fs r' !! "f.orig" = Some (File (text ["a"; "b"; "c"; "d"]))
      ∧ patch_main forward (fs two_hunk_run) two_hunk_patch
        = file_loop 6 forward r' (Some ("-x" +:+ nl))
            ["+y" +:+ nl; "@@ -3,1 +3,1 @@" +:+ nl; "-c" +:+ nl; "+C" +:+ nl].
Proof.
  split.
  - intros st line rest.
    apply (proj1 (mismatch_ends_section forward) 1 2 1 st line rest);
      [reflexivity | reflexivity | vm_compute; discriminate | vm_compute; discriminate
      | reflexivity].
  - destruct (file_section forward two_hunk_run "f" two_hunk_lines)
      as [r' st pl pf'|r'] eqn:E; [|vm_compute in E; discriminate].
    pose proof (proj2 (mismatch_ends_section forward) two_hunk_run "f" two_hunk_lines
                  r' st pl pf' E) as H.
    vm_compute in E. injection E as <- <- <- <-.
    destruct (H ltac:(vm_compute; discriminate))
      as (_ & _ & _ & _ & Hret & Hout & _ & _ & Htrail & Hfs & Hloop).
    eexists _, _. split; [reflexivity|]. split; [reflexivity|].
    split; [exact Hret|]. split; [exact Hout|].
    split; [exact (Htrail _ eq_refl eq_refl ltac:(vm_compute; reflexivity))|].
    destruct (Hfs eq_refl) as [Htarget Hbackup].
    split; [exact Htarget|]. split; [exact (Hbackup _ eq_refl)|].
    etransitivity;
      [|exact (Hloop 6%nat "--- a/f" (("+++ b/f" +:+ nl) :: two_hunk_lines) "+++ b/f"
                 eq_refl eq_refl)].
    reflexivity.
Defined.

(** The line of the mismatch may be taken for a marker: the line that
    removes "-- x" does not match, the loop over the files reads it as the
    marker of an old file, and the run exits on the line that follows. *)
Lemma failure_then_exit :
  ∃ o, patch_main forward {[ "f" := File (text ["a"]) ]}
         (text ["--- a/f"; "+++ b/f"; "@@ -1,1 +1,1 @@"; "--- x"; "+y"])
       = Some o
     ∧ exit_status o = 2
     ∧ out (final o) = [PatchingFile "f"; HunkFailed 1 1; HunksFailed 1 1; InvalidPatch].
Proof.
  eexists. split; [vm_compute; reflexivity|]. split; reflexivity.
Qed.

(** * Further properties *)

(** ** [copy_lines] *)

(** X1: [copy_lines] moves lines from the source to the destination, in
    their order, until [lines_count] lines are moved or the source is at
    its end, and returns the number of lines that were still to move: 0
    exactly when the source held [lines_count] lines or more.  With no
    source stream it moves nothing and returns [lines_count]. *)
Theorem copy_lines_moves (src : option stream) (dst : list string) (lines_count : Z) :
  unsigned lines_count →
  let n := Nat.min (Z.to_nat lines_count) (List.length (default [] src)) in
  copy_lines src dst lines_count
    = (drop n <$> src, dst ++ take n (default [] src), lines_count - Z.of_nat n)
  ∧ (lines_count - Z.of_nat n = 0 ↔ lines_count ≤ Z.of_nat (List.length (default [] src))).
Proof.
  intros Hcount n. split.
  - destruct src as [src|]; cbn [copy_lines default fmap option_fmap option_map].
    + by rewrite (copy_from_spec src dst lines_count Hcount).
    + replace n with 0%nat by (subst n; cbn [default List.length]; lia).
      cbn [take]. rewrite app_nil_r. f_equal. lia.
  - unfold unsigned in Hcount. lia.
Qed.

Lemma copy_lines_moves_witness :
  copy_lines (Some ["a"; "b"; "c"]) ["x"] 2 = (Some ["c"], ["x"; "a"; "b"], 0)
  ∧ copy_lines (Some ["a"]) [] 3 = (Some [], ["a"], 2)
  ∧ copy_lines None ["x"] 3 = (None, ["x"], 3).
Proof.
  split; [|split].
  - apply (copy_lines_moves (Some ["a"; "b"; "c"]) ["x"] 2). unfold unsigned. lia.
  - apply (copy_lines_moves (Some ["a"]) [] 3). unfold unsigned. lia.
  - apply (copy_lines_moves None ["x"] 3). unfold unsigned. lia.
Defined.

(** ** [extract_filename] *)

Lemma str_take_drop (n : nat) : ∀ s : string, str_take n s +:+ str_drop n s = s.
Proof.
  induction n as [|n IH]; intros [|c s]; try reflexivity.
  cbn [str_take str_drop]. by rewrite string_app_cons, IH.
Qed.

Lemma str_take_all (s : string) : str_take (String.length s) s = s.
Proof. induction s as [|c s IH]; [done|]. cbn [String.length str_take]. by rewrite IH. Qed.

Lemma cut_app (p s : string) :
  cut_at_tab_nl_cr p = p → cut_at_tab_nl_cr (p +:+ s) = p +:+ cut_at_tab_nl_cr s.
Proof.
  induction p as [|c p IH]; [done|]. rewrite !string_app_cons. cbn [cut_at_tab_nl_cr].
  destruct (_ || _); [done|]. intros [= H]. by rewrite (IH H).
Qed.

Lemma cut_stops (s : string) :
  count_char tab (cut_at_tab_nl_cr s) = 0%nat
  ∧ count_char newline (cut_at_tab_nl_cr s) = 0%nat
  ∧ count_char cr (cut_at_tab_nl_cr s) = 0%nat.
Proof.
  induction s as [|c s (IH1 & IH2 & IH3)]; [done|]. cbn [cut_at_tab_nl_cr].
  repeat case_bool_decide; cbn [orb count_char]; try done.
  rewrite IH1, IH2, IH3. by repeat case_bool_decide.
Qed.

(** X2: when the line starts with the four characters of the marker,
    [extract_filename] returns the end of the line as it is cut at the
    first tab, newline or carriage return: the name holds none of these
    characters, and it starts at or after the fourth character of the cut
    line, the marker being whole before it. *)
Theorem extract_filename_within (line : string) (level : Z) (pat name : string) :
  String.length pat = 4%nat →
  cut_at_tab_nl_cr pat = pat →
  extract_filename line level pat = Some name →
  (∃ dropped, cut_at_tab_nl_cr line = pat +:+ dropped +:+ name)
  ∧ count_char tab name = 0%nat
  ∧ count_char newline name = 0%nat
  ∧ count_char cr name = 0%nat.
Proof.
  intros Hlen Hpat Hname.
  assert (Hline : ∃ rest, line = pat +:+ rest).
  { unfold extract_filename, strneq4, streq in Hname.
    case_bool_decide as Heq; [|done].
    rewrite <- Hlen, str_take_all in Heq.
    exists (str_drop (String.length pat) line).
    by rewrite <- Heq at 1; rewrite str_take_drop. }
  destruct Hline as [rest ->].
  unfold extract_filename in Hname. destruct (strneq4 _ _); [|done].
  rewrite (cut_app _ _ Hpat) in Hname. rewrite (cut_app _ _ Hpat).
  set (path := cut_at_tab_nl_cr rest) in *.
  assert (Hdrop : str_drop 4 (pat +:+ path) = path).
  { rewrite <- Hlen. clearbody path. clear. induction pat as [|c p IH]; [done|].
    rewrite string_app_cons. by cbn [String.length str_drop]. }
  rewrite Hdrop in Hname. injection Hname as <-.
  destruct (skip_dirs_drops level path "" eq_refl) as (dropped & Hd & _).
  rewrite string_app_nil_l in Hd.
  split; [exists dropped; by rewrite <- Hd|].
  destruct (cut_stops rest) as (H1 & H2 & H3).
  fold path in H1, H2, H3. rewrite Hd in H1, H2, H3.
  rewrite count_char_app in H1, H2, H3. lia.
Qed.

Lemma extract_filename_within_witness :
  let line := "+++ b/dir/f.c" +:+ String tab "2009-01-01 00:00" in
  extract_filename line 1 "+++ " = Some "dir/f.c"
  ∧ (∃ dropped, cut_at_tab_nl_cr line = "+++ " +:+ dropped +:+ "dir/f.c")
  ∧ count_char tab "dir/f.c" = 0%nat
  ∧ count_char newline "dir/f.c" = 0%nat
  ∧ count_char cr "dir/f.c" = 0%nat.
Proof.
  split; [reflexivity|].
  apply (extract_filename_within ("+++ b/dir/f.c" +:+ String tab "2009-01-01 00:00")
           1 "+++ " "dir/f.c"); reflexivity.
Defined.

Lemma skip_dirs_compose (a : nat) : ∀ (b : Z) (s : string),
  0 ≤ b →
  skip_dirs (Z.of_nat a + b) s s
  = skip_dirs b (skip_dirs (Z.of_nat a) s s) (skip_dirs (Z.of_nat a) s s).
Proof.
  induction a as [|a IH]; intros b s Hb.
  - change (Z.of_nat 0) with 0. rewrite Z.add_0_l.
    by rewrite (skip_dirs_strchr 0 s s).
  - rewrite (skip_dirs_strchr (Z.of_nat (S a) + b)), (skip_dirs_strchr (Z.of_nat (S a))).
    replace (Z.of_nat (S a) + b =? 0) with false by (symmetry; apply Z.eqb_neq; lia).
    replace (Z.of_nat (S a) =? 0) with false by (symmetry; apply Z.eqb_neq; lia).
    destruct (strchr s "/") as [temp|] eqn:Hs.
    + replace (Z.of_nat (S a) + b - 1) with (Z.of_nat a + b) by lia.
      replace (Z.of_nat (S a) - 1) with (Z.of_nat a) by lia.
      by apply IH.
    + rewrite (skip_dirs_strchr b s s), Hs. by destruct (b =? 0).
Qed.

(** X3: strip levels add up.  For levels [a] and [b] that are not negative,
    the name at the level [a + b] is the one that the level [b] gives for a
    marker line that holds the name at the level [a]. *)
Theorem strip_levels_add (old : bool) (rest : string) (a b : Z) :
  0 ≤ a → 0 ≤ b →
  extract_filename (marker old +:+ rest) (a + b) (marker old)
  = extract_filename (marker old +:+ rest) a (marker old)
      ≫= λ name, extract_filename (marker old +:+ name) b (marker old).
Proof.
  intros Ha Hb.
  assert (Hex : ∀ level s,
    extract_filename (marker old +:+ s) level (marker old)
    = Some (skip_dirs level (cut_at_tab_nl_cr s) (cut_at_tab_nl_cr s))).
  { intros level s. unfold extract_filename.
    replace (strneq4 (marker old +:+ s) (marker old)) with true by by destruct old.
    rewrite cut_app by by destruct old. by destruct old. }
  rewrite !Hex. cbn [mbind option_bind]. rewrite Hex. f_equal.
  set (path := cut_at_tab_nl_cr rest).
  assert (Hclean : cut_at_tab_nl_cr (skip_dirs a path path) = skip_dirs a path path).
  { destruct (skip_dirs_drops a path "" eq_refl) as (dropped & Hd & _).
    rewrite string_app_nil_l in Hd.
    assert (Hpath : cut_at_tab_nl_cr path = path).
    { subst path. clear. induction rest as [|c s IH]; [done|]. cbn [cut_at_tab_nl_cr].
      destruct (_ || _) eqn:E; [done|]. cbn [cut_at_tab_nl_cr]. by rewrite E, IH. }
    rewrite Hd in Hpath. revert Hpath. generalize (skip_dirs a path path) as name.
    clear. induction dropped as [|c d IH]; intros name; [done|].
    rewrite string_app_cons. cbn [cut_at_tab_nl_cr]. destruct (_ || _); [done|].
    intros [= H]. by apply IH. }
  rewrite Hclean. rewrite <- (Z2Nat.id a Ha). by apply skip_dirs_compose.
Qed.

Lemma strip_levels_add_witness :
  extract_filename "--- a/b/c/d" (1 + 2) "--- "
  = extract_filename "--- a/b/c/d" 1 "--- "
      ≫= λ name, extract_filename ("--- " +:+ name) 2 "--- ".
Proof. apply (strip_levels_add true "a/b/c/d" 1 2); lia. Defined.

(** ** The hunk header *)

Lemma digit_val_digit (d : nat) : (d < 10)%nat → digit_val (digit d) = Some (Z.of_nat d).
Proof. intros H. do 10 (destruct d as [|d]; [reflexivity|]). lia. Qed.

Lemma digit_plain (d : nat) :
  (d < 10)%nat →
  is_space (digit d) = false ∧ digit d ≠ "-"%char ∧ digit d ≠ "+"%char.
Proof. intros H. do 10 (destruct d as [|d]; [done|]). lia. Qed.

Lemma scan_digits_numeral (ds : list nat) : ∀ (acc : Z) (s : string),
  Forall (λ d, (d < 10)%nat) ds →
  digit_val (head_char s) = None →
  scan_digits acc (numeral ds +:+ s)
  = (fold_left (λ acc d, 10 * acc + Z.of_nat d) ds acc, s).
Proof.
  induction ds as [|d ds IH]; intros acc s Hds Hs.
  - cbn [numeral fold_left]. rewrite string_app_nil_l.
    destruct s as [|c s]; [done|]. cbn [scan_digits]. cbn [head_char] in Hs. by rewrite Hs.
  - apply Forall_cons in Hds as [Hd Hds]. cbn [numeral fold_left].
    rewrite string_app_cons. cbn [scan_digits]. rewrite (digit_val_digit d Hd).
    by apply IH.
Qed.

Lemma value_nonneg (ds : list nat) : 0 ≤ value ds.
Proof.
  unfold value.
  assert (Hacc : ∀ acc, 0 ≤ acc → 0 ≤ fold_left (λ acc d, 10 * acc + Z.of_nat d) ds acc).
  { induction ds as [|d ds IH]; intros acc Hacc; [done|].
    cbn [fold_left]. apply IH. lia. }
  by apply Hacc.
Qed.

Lemma value_unsigned (ds : list nat) : value ds < 2 ^ 31 → u32 (value ds) = value ds.
Proof. intros H. pose proof (value_nonneg ds). apply u32_small. split; lia. Qed.

Lemma value_long (ds : list nat) : value ds < 2 ^ 31 → to_long (value ds) = value ds.
Proof. intros H. pose proof (value_nonneg ds). unfold to_long. lia. Qed.

Lemma scan_int_numeral (ds : list nat) (s : string) :
  well_written ds →
  digit_val (head_char s) = None →
  scan_int (numeral ds +:+ s) = Some (value ds, s).
Proof.
  intros (Hne & Hds & Hint) Hs. apply value_long in Hint.
  destruct ds as [|d ds]; [done|].
  pose proof Hds as Hall. apply Forall_cons in Hds as [Hd _].
  destruct (digit_plain d Hd) as (Hsp & Hm & Hp).
  unfold scan_int. change (numeral (d :: ds)) with (String (digit d) (numeral ds)).
  rewrite string_app_cons. cbn [skip_space]. rewrite Hsp.
  rewrite !bool_decide_eq_false_2 by done. cbn [head_char].
  rewrite (digit_val_digit d Hd).
  change (String (digit d) (numeral ds +:+ s)) with (numeral (d :: ds) +:+ s).
  rewrite (scan_digits_numeral _ 0 s Hall Hs). fold (value (d :: ds)).
  by rewrite Hint.
Qed.

Lemma sscanf_int (fmt : list directive) (ds : list nat) (s : string) :
  well_written ds →
  digit_val (head_char s) = None →
  sscanf (Int :: fmt) (numeral ds +:+ s) = value ds :: sscanf fmt s.
Proof. intros Hds Hs. cbn [sscanf]. by rewrite (scan_int_numeral ds s Hds Hs). Qed.

Lemma sscanf_lit (c : ascii) (fmt : list directive) (s : string) :
  sscanf (Lit c :: fmt) (String c s) = sscanf fmt s.
Proof. cbn [sscanf]. by rewrite bool_decide_eq_true_2. Qed.

Lemma sscanf_lit_other (c c' : ascii) (fmt : list directive) (s : string) :
  c' ≠ c → sscanf (Lit c :: fmt) (String c' s) = [].
Proof. intros H. cbn [sscanf]. by rewrite bool_decide_eq_false_2. Qed.

Lemma sscanf_space (fmt : list directive) (s : string) :
  sscanf (Space :: fmt) (String " " s) = sscanf (Space :: fmt) s.
Proof. reflexivity. Qed.

Lemma sscanf_no_space (fmt : list directive) (c : ascii) (s : string) :
  is_space c = false → sscanf (Space :: fmt) (String c s) = sscanf fmt (String c s).
Proof. intros H. cbn [sscanf skip_space]. by rewrite H. Qed.

Ltac scan_step :=
  first [ rewrite sscanf_lit
        | rewrite sscanf_space
        | rewrite sscanf_no_space by reflexivity
        | rewrite sscanf_int by (assumption || reflexivity)
        | rewrite sscanf_lit_other by discriminate ].

(** X4: the four forms of a hunk header that a unified diff has are
    accepted, whatever follows the second "@@": each start and each count
    that an [int] holds is stored as the number that its digits write, and
    a count that is left out is 1. *)
Theorem header_forms (src_beg : list nat) (src_count : option (list nat))
    (dst_beg : list nat) (dst_count : option (list nat)) (rest : string) :
  well_written src_beg → well_written dst_beg →
  from_option well_written True src_count →
  from_option well_written True dst_count →
  scan_hunk_header (header_text src_beg src_count dst_beg dst_count rest)
  = Some {| h_src_beg := value src_beg; h_src_last := count_of src_count;
            h_dst_beg := value dst_beg; h_dst_last := count_of dst_count |}.
Proof.
  intros Hsb Hdb Hsc Hdc.
  unfold scan_hunk_header, header_text, range.
  destruct src_count as [sc|], dst_count as [dc|]; cbn [from_option] in Hsc, Hdc;
    rewrite ?string_app_assoc, ?string_app_cons, ?string_app_nil_l;
    unfold fmt_full, fmt_short; repeat scan_step; cbn [count_of];
    repeat match goal with
           | H : well_written ?ds |- _ =>
               let Hv := fresh in
               destruct H as (_ & _ & Hv); rewrite (value_unsigned ds Hv); clear Hv
           end;
    reflexivity.
Qed.

Lemma header_forms_witness :
  scan_hunk_header ("@@ -12,3 +14 @@ int main (void)" +:+ nl)
  = Some {| h_src_beg := 12; h_src_last := 3; h_dst_beg := 14; h_dst_last := 1 |}.
Proof.
  apply (header_forms [1; 2] (Some [3]) [1; 4] None (" int main (void)" +:+ nl))%nat.
  - split; [done|]. split; [repeat constructor|done].
  - split; [done|]. split; [repeat constructor|done].
  - split; [done|]. split; [repeat constructor|done].
  - exact I.
Defined.

Lemma full_two_short_one (line : string) (a b : Z) :
  sscanf fmt_full line = [a; b] → sscanf fmt_short line = [a].
Proof.
  unfold fmt_full, fmt_short.
  destruct line as [|c1 [|c2 s]]; cbn [sscanf]; try done.
  { by case_bool_decide. }
  case_bool_decide as H1; [|done]. case_bool_decide as H2; [|done].
  destruct (skip_space s) as [|c3 s3]; [done|].
  case_bool_decide as H3; [|done].
  destruct (scan_int s3) as [[n s4]|]; [|done].
  destruct s4 as [|c5 s5]; [done|].
  case_bool_decide as Hc5; [|done]. subst c5.
  intros Hfull. cbn [skip_space]. change (is_space ",") with false. cbv iota.
  rewrite bool_decide_eq_false_2 by done. by injection Hfull as ->.
Qed.

(** X5: a header that the first [sscanf] does not accept is accepted by
    the second one with the source count 1, the value that the count has
    before the two calls: what the first call has stored when it stops
    after the count never stays, since the second call then stops before
    the destination start. *)
Theorem short_form_count (line : string) (h : header) :
  (List.length (sscanf fmt_full line) < 3)%nat →
  scan_hunk_header line = Some h →
  h_src_last h = 1.
Proof.
  unfold scan_hunk_header. intros Hlen.
  destruct (sscanf fmt_full line) as [|a [|b [|c rest]]] eqn:Hfull.
  - destruct (sscanf fmt_short line) as [|a' [|c' [|d' [|]]]]; by intros [= <-].
  - destruct (sscanf fmt_short line) as [|a' [|c' [|d' [|]]]]; by intros [= <-].
  - by rewrite (full_two_short_one line a b Hfull).
  - cbn [List.length] in Hlen. lia.
Qed.

Lemma short_form_count_witness :
  ∃ h, scan_hunk_header ("@@ -5 +7,2 @@" +:+ nl) = Some h
       ∧ h_src_beg h = 5 ∧ h_dst_beg h = 7 ∧ h_dst_last h = 2
       ∧ h_src_last h = 1.
Proof.
  destruct (scan_hunk_header ("@@ -5 +7,2 @@" +:+ nl)) as [h|] eqn:E;
    [|vm_compute in E; discriminate].
  pose proof (short_form_count ("@@ -5 +7,2 @@" +:+ nl) h) as H.
  exists h. split; [reflexivity|].
  vm_compute in E. injection E as <-.
  split; [reflexivity|]. split; [reflexivity|]. split; [reflexivity|].
  apply H; [vm_compute; lia | reflexivity].
Defined.

(** ** The direction of the patch *)

Lemma flip_flip (l : string) : flip (flip l) = l.
Proof.
  destruct l as [|c s]; [done|]. unfold flip.
  repeat (case_bool_decide; simplify_eq; try done).
Qed.

Ltac decide_chars :=
  repeat match goal with
         | |- context [bool_decide (?a = ?b)] =>
             first [ rewrite (bool_decide_eq_true_2 (a = b)) by reflexivity
                   | rewrite (bool_decide_eq_false_2 (a = b)) by discriminate ]
         end.

Lemma edit_step_reversed cfg off sl dl st l :
  edit_step (reversed cfg) off sl dl st l
  = match edit_step cfg off sl dl st (flip l) with
    | Continue st' => Continue st'
    | Break st' pl => Break st' (flip pl)
    end.
Proof.
  assert (Hc : ∀ c : ascii,
    c = "+"%char ∨ c = "-"%char ∨ c = " "%char ∨ is_edit_char c = false).
  { intros c. unfold is_edit_char. repeat case_bool_decide; auto. }
  unfold edit_step, plus, reversed, emit, read_src. cbn [opt_R opt_N].
  destruct l as [|c s]; [|destruct (Hc c) as [-> | [-> | [-> | Hne]]]].
  5:{ unfold is_edit_char in Hne.
      apply orb_false_elim in Hne as [Hne Hsp]. apply orb_false_elim in Hne as [Hm Hp].
      apply bool_decide_eq_false in Hm, Hp, Hsp.
      assert (Hflip : flip (String c s) = String c s).
      { unfold flip. by rewrite !bool_decide_eq_false_2 by done. }
      rewrite Hflip. decide_chars. cbn [head_char]. unfold is_edit_char.
      rewrite (bool_decide_eq_false_2 _ Hm), (bool_decide_eq_false_2 _ Hp),
        (bool_decide_eq_false_2 _ Hsp). cbn [orb negb]. by rewrite Hflip. }
  all: cbn [flip]; decide_chars; cbn [head_char tail]; unfold is_edit_char;
    decide_chars; cbn [orb negb];
    destruct (opt_R cfg); cbn [negb]; decide_chars; cbn [negb];
    destruct (src_cur_line st =? sl), (src_stream st) as [[|x r]|], (opt_N cfg);
    cbn; try reflexivity;
    repeat (case_match; cbn; try reflexivity).
Qed.

(** X6: a reverse run handles the lines of a hunk as a forward run handles
    the lines with "+" and "-" exchanged, and the header as a forward run
    handles the header with its two ranges exchanged. *)
Theorem reverse_is_flipped cfg off sl dl st pf h :
  edit_loop (reversed cfg) off sl dl st pf
  = (let '(st', pl, pf') := edit_loop cfg off sl dl st (map flip pf) in
     (st', flip <$> pl, map flip pf'))
  ∧ oriented (reversed cfg) h = oriented cfg (swap h).
Proof.
  split.
  - revert st. induction pf as [|l pf IH]; intros st; [done|].
    cbn [map edit_loop]. rewrite edit_step_reversed.
    destruct (edit_step cfg off sl dl st (flip l)) as [st'|st' pl]; [apply IH|].
    cbn [fmap option_fmap option_map]. f_equal.
    rewrite <- (map_id pf) at 1. rewrite map_map. apply map_ext. intros x.
    by rewrite flip_flip.
  - unfold oriented, plus, reversed. cbn [opt_R].
    destruct (opt_R cfg), h; reflexivity.
Qed.

(** ** What holds after every file section holds at the end of the run *)

Lemma edit_loop_suffix cfg off sl dl pf : ∀ st st' pl pf',
  edit_loop cfg off sl dl st pf = (st', pl, pf') → pf' `suffix_of` pf.
Proof.
  induction pf as [|line pf IH]; intros st st' pl pf' H; cbn [edit_loop] in H.
  - by injection H as <- <- <-.
  - destruct (edit_step cfg off sl dl st line) as [st1|st1 pl1].
    + apply suffix_cons_r. by eapply IH.
    + injection H as <- <- <-. by apply suffix_cons_r.
Qed.

Lemma hunk_loop_suffix cfg st pl pf st' pl' pf' :
  hunk_loop cfg st pl pf = HunksDone st' pl' pf' → pf' `suffix_of` pf.
Proof.
  remember (List.length pf) as n eqn:Hn.
  assert (Hle : (List.length pf ≤ n)%nat) by lia. clear Hn.
  revert st pl pf Hle.
  induction n as [n IH] using lt_wf_ind. intros st pl pf Hle.
  rewrite hunk_loop_eq.
  destruct (scan_hunk_header pl) as [h|]; [|by intros [= <- <- <-]].
  destruct (hunk_begin st (oriented cfg h)) as [st1|[[[st1 off] sl] dl]]; [done|].
  destruct (edit_loop cfg off sl dl st1 pf) as [[st2 [pl2|]] pf2] eqn:He.
  - pose proof (edit_loop_length _ _ _ _ _ _ _ _ _ He) as Hlen.
    apply edit_loop_suffix in He. intros H.
    cbn in Hlen. apply (IH (List.length pf2)) in H; [|lia|lia]. by etrans.
  - intros [= <- <- <-]. apply suffix_nil.
Qed.

Lemma file_section_suffix cfg r name pf r' st pl pf' :
  file_section cfg r name pf = SectionDone r' st pl pf' → pf' `suffix_of` pf.
Proof.
  unfold file_section.
  destruct (open_streams cfg name (fs r)) as [[fs0 src] backup].
  destruct pf as [|line pf]; cbn [xmalloc_fgets].
  - by intros [= <- <- <- <-].
  - destruct (hunk_loop _ _ line pf) as [st1 pl1 pf1|st1] eqn:Hh; [|done].
    apply hunk_loop_suffix in Hh. intros [= <- <- <- <-]. by apply suffix_cons_r.
Qed.

Lemma seek_old_suffix cfg pf : ∀ pl pl' pf',
  seek_old cfg pl pf = Some (pl', pf') →
  ∃ line, line ∈ pf ∧ pl' = chomp line ∧ pf' `suffix_of` pf.
Proof.
  induction pf as [|line pf IH]; intros pl pl' pf' H; cbn [seek_old] in H; [done|].
  destruct (extract_filename pl (patch_level cfg) "--- ").
  - injection H as <- <-. exists line. split; [by left|]. split; [done|].
    by apply suffix_cons_r.
  - apply IH in H as (l & Hl & -> & Hs). exists l. split; [by right|]. split; [done|].
    by apply suffix_cons_r.
Qed.

(** A property of the state of the run that every file section keeps, for
    the targets that the lines of the patch name, leads to a property of
    the outcome that holds when the run returns and when it exits. *)
Lemma file_loop_ind (P : run_state → Prop) (Q : outcome → Prop) cfg (lines : stream) :
  (∀ r line name pf,
     P r → line ∈ lines →
     extract_filename (chomp line) (patch_level cfg) "+++ " = Some name →
     match file_section cfg r name pf with
     | SectionDone r' _ _ _ => P r'
     | SectionDied r' => Q (Died r')
     end) →
  (∀ r, P r → Q (Died {| fs := fs r; ret := ret r; out := out r ++ [InvalidPatch] |})) →
  (∀ r, P r → Q (Returned r)) →
  ∀ fuel r pl pf o,
    pf `suffix_of` lines → P r →
    file_loop fuel cfg r pl pf = Some o → Q o.
Proof.
  intros Hsec Hinv Hret.
  induction fuel as [|fuel IH]; intros r pl pf o Hpf Hr H;
    (destruct pl as [pl|]; cbn [file_loop] in H; [|injection H as <-; by apply Hret]);
    (destruct (seek_old cfg pl pf) as [[pl1 pf1]|] eqn:Hseek;
       [|injection H as <-; by apply Hret]);
    apply seek_old_suffix in Hseek as (line & Hline & -> & Hpf1);
    (destruct (extract_filename (chomp line) (patch_level cfg) "+++ ") as [name|] eqn:Hn;
       [|injection H as <-; by apply Hinv]);
    assert (Hin : line ∈ lines)
      by (destruct Hpf as [k ->]; apply elem_of_app; by right);
    pose proof (Hsec r line name pf1 Hr Hin Hn) as Hs;
    (destruct (file_section cfg r name pf1) as [r' st pl2 pf2|r'] eqn:Hf;
       [|by injection H as <-]).
  - done.
  - apply file_section_suffix in Hf.
    apply (IH r' pl2 pf2 o); [|done..]. by repeat (etrans; [done|]).
Qed.

Lemma patch_main_ind (P : run_state → Prop) (Q : outcome → Prop) cfg disk patch o :
  (∀ r line name pf,
     P r → line ∈ chunks patch →
     extract_filename (chomp line) (patch_level cfg) "+++ " = Some name →
     match file_section cfg r name pf with
     | SectionDone r' _ _ _ => P r'
     | SectionDied r' => Q (Died r')
     end) →
  (∀ r, P r → Q (Died {| fs := fs r; ret := ret r; out := out r ++ [InvalidPatch] |})) →
  (∀ r, P r → Q (Returned r)) →
  P {| fs := disk; ret := 0; out := [] |} →
  patch_main cfg disk patch = Some o → Q o.
Proof.
  intros Hsec Hinv Hret H0. unfold patch_main.
  destruct (chunks patch) as [|first pf] eqn:Hc; cbn [xmalloc_fgetline].
  - intros [= <-]. by apply Hret.
  - apply (file_loop_ind P Q cfg (first :: pf)); [done..| |done].
    by apply suffix_cons_r.
Qed.

(** ** What a run prints *)

(** What a file section adds to the output and does to the return value. *)
Lemma file_section_report cfg r name pf :
  match file_section cfg r name pf with
  | SectionDone r' st _ _ =>
      (out r' = out r ++ section_report (name, None) ∧ ret r' = ret r)
      ∨ (opt_N cfg = false
         ∧ ∃ hunk offset, out r' = out r ++ section_report (name, Some (hunk, offset))
                          ∧ ret r' = 1)
  | SectionDied r' => out r' = out r ++ [PatchingFile name; BadSrcFile] ∧ ret r' = ret r
  end.
Proof.
  unfold file_section.
  destruct (open_streams cfg name (fs r)) as [[fs0 src] backup].
  set (st0 := initial_state src (out r ++ [PatchingFile name])).
  assert (H : match match xmalloc_fgets pf with
                    | Some (patch_line, patch_file) => hunk_loop cfg st0 patch_line patch_file
                    | None => HunksDone st0 None []
                    end with
              | HunksDone st' _ _ => quiet st0 st' ∨ (opt_N cfg = false ∧ reported st0 st')
              | HunksDied st' =>
                  bad_hunk_count st' = bad_hunk_count st0 ∧ log st' = log st0 ++ [BadSrcFile]
              end).
  { destruct (xmalloc_fgets pf) as [[line pf1]|]; [apply hunk_loop_report|by left]. }
  destruct (match xmalloc_fgets pf with Some _ => _ | None => _ end)
    as [st pl' pf'|st].
  - unfold finish.
    destruct (copy_trailing_fields st) as (_ & _ & _ & -> & -> & ->).
    destruct H as [[Hb Hl]|(HN & Hb & o & Hl)]; rewrite Hb; cbn [st0 initial_state
      bad_hunk_count Z.eqb negb ret out].
    + left. by rewrite Hl.
    + right. split; [done|]. exists (hunk_count st), o.
      change (u32 (0 + 1)) with 1. cbn [Z.eqb negb ret out]. rewrite Hl.
      cbn [st0 initial_state log section_report]. by rewrite <- !app_assoc.
  - destruct H as [_ Hl]. cbn [out ret]. rewrite Hl. cbn [st0 initial_state log].
    by rewrite <- app_assoc.
Qed.



(** X8: with the option -N no hunk fails.  A line of the file that differs
    from the line of the patch is passed over, so that the run reports no
    failed hunk and does not return 1: it returns 0, or exits with 2. *)
Theorem skip_never_fails cfg disk patch o :
  opt_N cfg = true →
  patch_main cfg disk patch = Some o →
  (exit_status o = 0 ∨ exit_status o = 2)
  ∧ existsb reports_failure (out (final o)) = false.
Proof.
  intros HN.
  set (P := λ r : run_state, ret r = 0 ∧ existsb reports_failure (out r) = false).
  intros Hrun. pattern o. apply (patch_main_ind P _ cfg disk patch); [..|exact Hrun].
  - intros r line name pf [Hret Hout] _ _.
    pose proof (file_section_report cfg r name pf) as H.
    destruct (file_section cfg r name pf) as [r' st pl pf'|r'].
    + destruct H as [[Ho Hr]|(HN' & _)]; [|congruence].
      split; [congruence|]. rewrite Ho, existsb_app, Hout. done.
    + destruct H as [Ho _]. split; [by right|].
      cbn [final]. rewrite Ho, existsb_app, Hout. done.
  - intros r [Hret Hout]. split; [by right|].
    cbn [final out]. rewrite existsb_app, Hout. done.
  - intros r [Hret Hout]. split; [by left|done].
  - done.
Qed.

Lemma skip_never_fails_witness :
  let cfg := {| patch_level := 1; opt_R := false; opt_N := true; opt_dry_run := false |} in
  ∃ o, patch_main cfg scenario_B_disk scenario_patch = Some o
       ∧ fs (final o) !! "f" = Some (File (text ["bar"; "baz"]))
       ∧ (exit_status o = 0 ∨ exit_status o = 2)
       ∧ existsb reports_failure (out (final o)) = false.
Proof.
  intros cfg.
  destruct (patch_main cfg scenario_B_disk scenario_patch) as [o|] eqn:E;
    [|vm_compute in E; discriminate].
  exists o. split; [reflexivity|].
  pose proof (skip_never_fails cfg scenario_B_disk scenario_patch o eq_refl E) as H.
  vm_compute in E. injection E as <-. split; [reflexivity|]. exact H.
Defined.

(** ** The lines that name no file *)

Lemma file_loop_fuel cfg : ∀ fuel fuel' r pl pf o,
  file_loop fuel cfg r pl pf = Some o →
  (fuel ≤ fuel')%nat →
  file_loop fuel' cfg r pl pf = Some o.
Proof.
  induction fuel as [|fuel IH]; intros fuel' r pl pf o H Hle;
    (destruct pl as [pl|]; [|by destruct fuel']);
    (assert (Hstep : ∀ n, file_loop n cfg r (Some pl) pf =
       match seek_old cfg pl pf with
       | None => Some (Returned r)
       | Some (patch_line, patch_file) =>
           match extract_filename patch_line (patch_level cfg) "+++ " with
           | None => Some (Died {| fs := fs r; ret := ret r; out := out r ++ [InvalidPatch] |})
           | Some new_filename =>
               match file_section cfg r new_filename patch_file with
               | SectionDied r' => Some (Died r')
               | SectionDone r' _ patch_line patch_file =>
                   match n with
                   | O => None
                   | S n' => file_loop n' cfg r' patch_line patch_file
                   end
               end
           end
       end) by (by intros [|n]));
    rewrite Hstep in H; rewrite Hstep;
    (destruct (seek_old cfg pl pf) as [[pl1 pf1]|]; [|done]);
    (destruct (extract_filename pl1 (patch_level cfg) "+++ ") as [name|]; [|done]);
    (destruct (file_section cfg r name pf1) as [r' st pl2 pf2|r']; [|done]).
  - done.
  - destruct fuel' as [|fuel']; [lia|]. apply (IH fuel'); [done|lia].
Qed.

Lemma file_loop_seek cfg fuel r pl pf pl' pf' :
  seek_old cfg pl pf = seek_old cfg pl' pf' →
  file_loop fuel cfg r (Some pl) pf = file_loop fuel cfg r (Some pl') pf'.
Proof. intros H. destruct fuel; cbn [file_loop]; by rewrite H. Qed.

Lemma seek_old_skips cfg rest : ∀ preamble line,
  Forall (λ l, extract_filename (chomp l) (patch_level cfg) "--- " = None)
    (line :: preamble) →
  seek_old cfg (chomp line) (preamble ++ rest)
  = match rest with
    | [] => None
    | l :: rest' => seek_old cfg (chomp l) rest'
    end.
Proof.
  induction preamble as [|l preamble IH]; intros line Hpre;
    apply Forall_cons in Hpre as [Hline Hpre].
  - destruct rest as [|l rest']; [done|]. cbn [app seek_old]. by rewrite Hline.
  - cbn [app seek_old]. rewrite Hline. by apply IH.
Qed.

Lemma chunks_preamble (preamble : list string) (patch : string) :
  Forall (λ l, terminated l = true) preamble →
  chunks (concat preamble +:+ patch) = preamble ++ chunks patch.
Proof.
  induction preamble as [|l preamble IH]; intros Hpre; [done|].
  apply Forall_cons in Hpre as [Hl Hpre]. cbn [concat app].
  by rewrite string_app_assoc, (chunks_terminated_app _ _ Hl), IH.
Qed.

(** X9: the lines that precede a patch are passed over.  Lines that end
    with a newline and do not start with the marker of an old file can be
    put before a patch, and the run is the same. *)
Theorem leading_lines_ignored cfg disk (preamble : list string) (patch : string) :
  Forall (λ l, terminated l = true
               ∧ extract_filename (chomp l) (patch_level cfg) "--- " = None) preamble →
  patch_main cfg disk (concat preamble +:+ patch) = patch_main cfg disk patch.
Proof.
  intros Hpre. apply Forall_and in Hpre as [Hterm Hpre].
  unfold patch_main. rewrite (chunks_preamble _ _ Hterm).
  destruct preamble as [|line preamble]; [done|]. cbn [app xmalloc_fgetline].
  set (r := {| fs := disk; ret := 0; out := [] |}).
  destruct (chunks patch) as [|l rest] eqn:Hc; cbn [xmalloc_fgetline].
  - destruct (List.length (preamble ++ [])); cbn [file_loop];
      by rewrite (seek_old_skips cfg [] preamble line Hpre).
  - rewrite (file_loop_seek cfg _ r (chomp line) (preamble ++ l :: rest) (chomp l) rest)
      by apply (seek_old_skips cfg (l :: rest) preamble line Hpre).
    destruct (file_loop_returns (List.length rest) cfg r (Some (chomp l)) rest) as [o Ho];
      [done|].
    rewrite Ho. apply (file_loop_fuel cfg (List.length rest)); [done|].
    rewrite length_app. cbn [List.length]. lia.
Qed.

Lemma leading_lines_ignored_witness :
  patch_main forward scenario_B_disk
    (concat ["diff -u a/f b/f" +:+ nl; "index 12..34" +:+ nl] +:+ scenario_patch)
  = patch_main forward scenario_B_disk scenario_patch.
Proof.
  apply (leading_lines_ignored forward scenario_B_disk
           ["diff -u a/f b/f" +:+ nl; "index 12..34" +:+ nl] scenario_patch).
  repeat constructor.
Defined.

Lemma seek_old_none cfg : ∀ pf line,
  Forall (λ l, extract_filename (chomp l) (patch_level cfg) "--- " = None)
    (removelast (line :: pf)) →
  seek_old cfg (chomp line) pf = None.
Proof.
  induction pf as [|l pf IH]; intros line Hpre; [done|].
  change (removelast (line :: l :: pf)) with (line :: removelast (l :: pf)) in Hpre.
  apply Forall_cons in Hpre as [Hline Hpre]. cbn [seek_old]. rewrite Hline. by apply IH.
Qed.

(** X10: a patch in which no line before the last one starts with the
    marker of an old file does nothing: the run returns 0, prints nothing
    and leaves the disk as it is.  This holds for the empty patch, and for
    a patch whose last line only has the marker. *)
Theorem patch_without_marker cfg disk (patch : string) :
  Forall (λ l, extract_filename (chomp l) (patch_level cfg) "--- " = None)
    (removelast (chunks patch)) →
  patch_main cfg disk patch = Some (Returned {| fs := disk; ret := 0; out := [] |}).
Proof.
  intros Hpre. unfold patch_main.
  destruct (chunks patch) as [|line pf]; [done|]. cbn [xmalloc_fgetline].
  destruct (List.length pf); cbn [file_loop]; by rewrite (seek_old_none cfg pf line Hpre).
Qed.

Lemma patch_without_marker_witness :
  patch_main forward scenario_B_disk (text ["Only in a: g"; "+++ b/f"; "--- a/f"])
  = Some (Returned {| fs := scenario_B_disk; ret := 0; out := [] |}).
Proof.
  apply (patch_without_marker forward scenario_B_disk
           (text ["Only in a: g"; "+++ b/f"; "--- a/f"])).
  repeat constructor.
Defined.

(** ** The files that the patch does not name *)







(** ** A file section without hunks *)

(** X13: a file section in which no hunk follows the two markers removes
    its target.  For a target that is a file, and whose backup name is free
    or names a file (a directory there is in the way of the backup): the
    target is moved to the backup and opened for writing, nothing is
    written, and as no line was written the target is removed, with the
    backup that was made of it: the file is lost.  The section counts no
    failure. *)
Theorem section_without_hunks cfg r name content pf :
  opt_dry_run cfg = false →
  fs r !! name = Some (File content) →
  fs r !! (name +:+ ".orig") ≠ Some Dir →
  from_option (λ line, scan_hunk_header line = None) True (head pf) →
  ∃ r' st,
    file_section cfg r name pf = SectionDone r' st (head pf) (drop 1 pf)
    ∧ fs r' !! name = None
    ∧ fs r' !! (name +:+ ".orig") = None
    ∧ ret r' = ret r
    ∧ out r' = out r ++ [PatchingFile name].
Proof.
  intros Hdry Hname _ Hpf. unfold file_section.
  rewrite (open_streams_existing cfg name _ (fs r) Hdry Hname). cbn [node_lines].
  set (st0 := initial_state _ (out r ++ [PatchingFile name])).
  assert (Hloop : match xmalloc_fgets pf with
                  | Some (patch_line, patch_file) => hunk_loop cfg st0 patch_line patch_file
                  | None => HunksDone st0 None []
                  end = HunksDone st0 (head pf) (drop 1 pf)).
  { destruct pf as [|line pf]; [done|]. cbn [xmalloc_fgets head drop].
    cbn [head from_option] in Hpf. by rewrite hunk_loop_eq, Hpf. }
  rewrite Hloop. eexists _, st0. split; [reflexivity|].
  assert (Hne : name ≠ name +:+ ".orig") by exact (λ H, orig_neq name (eq_sym H)).
  unfold finish, flush_dst, fclose_written, copy_trailing. rewrite Hdry.
  cbn [st0 initial_state copy_trailing_lines_flag bad_hunk_count dst_cur_line
       Z.eqb negb andb orb fs ret out log dst_stream concat].
  rewrite (unlink_file (name +:+ ".orig") content)
    by (rewrite !lookup_insert_ne by done; apply lookup_insert_eq).
  rewrite (unlink_file name "")
    by (rewrite lookup_delete_ne by done; apply lookup_insert_eq).
  split; [by rewrite lookup_delete_eq|]. split; [|done].
  by rewrite lookup_delete_ne, lookup_delete_eq.
Qed.

Lemma section_without_hunks_witness :
  ∃ o, patch_main forward scenario_B_disk (text ["--- a/f"; "+++ b/f"]) = Some o
       ∧ exit_status o = 0
       ∧ fs (final o) = ∅
       ∧ ∃ r' st,
           file_section forward scenario_B_run "f" []
             = SectionDone r' st None []
           ∧ fs r' !! "f" = None
           ∧ fs r' !! "f.orig" = None
           ∧ ret r' = 0
           ∧ out r' = [PatchingFile "f"].
Proof.
  eexists. split; [vm_compute; reflexivity|]. split; [reflexivity|].
  split; [vm_compute; reflexivity|].
  apply (section_without_hunks forward scenario_B_run "f" (text ["qux"; "baz"]) []);
    [reflexivity | reflexivity | vm_compute; discriminate | exact I].
Defined.

(** ** The target of a patch that applies *)

(** What a section of consistent hunks prints: the name of its target. *)
Lemma file_section_woven_out cfg r name n header_line body hs written trail :
  opt_N cfg = false → opt_dry_run cfg = false →
  fs r !! name = Some n →
  consistent cfg 1 1 ((header_line, body) :: hs) = true →
  woven cfg 1 ((header_line, body) :: hs) (node_lines n) written trail →
  ∃ r' st,
    file_section cfg r name (render ((header_line, body) :: hs))
      = SectionDone r' st None []
    ∧ out r' = out r ++ [PatchingFile name].
Proof.
  intros HN Hdry Hn Hcons Hw. unfold file_section.
  rewrite (open_streams_existing cfg name n (fs r) Hdry Hn).
  cbn [render xmalloc_fgets].
  destruct (hunk_loop_woven cfg hs header_line body
              (initial_state (Some (node_lines n)) (out r ++ [PatchingFile name]))
              1 1 (node_lines n) written trail HN Hcons)
    as (st & -> & Hsrc & Hdst & Hbad & Hlog & Hflag & Hcur & Hbeg);
    [lia | lia | done | done | done | done |].
  eexists _, st. split; [reflexivity|]. unfold finish.
  destruct (copy_trailing_fields st) as (_ & _ & _ & -> & _ & ->).
  rewrite Hbad. cbn [initial_state bad_hunk_count Z.eqb negb out]. by rewrite Hlog.
Qed.

(** X14: a patch that matches its target applies.  For a patch of one file
    section whose hunks are consistent, and a target that is woven from
    them (the lines that each hunk compares are in the target at the line
    that the header declares), the run returns 0, prints the name of the
    target, and leaves in the target the lines that precede each hunk, the
    lines that the hunk writes and the lines that follow the last hunk; the
    backup is removed. *)
Theorem woven_patch_applies cfg disk patch preamble old_line new_line skipped name hs
    content written trail :
  opt_N cfg = false → opt_dry_run cfg = false →
  chunks patch = preamble ++ old_line :: new_line :: render hs →
  Forall (λ l, extract_filename (chomp l) (patch_level cfg) "--- " = None) preamble →
  extract_filename (chomp old_line) (patch_level cfg) "--- " = Some skipped →
  extract_filename (chomp new_line) (patch_level cfg) "+++ " = Some name →
  hs ≠ [] →
  consistent cfg 1 1 hs = true →
  disk !! name = Some (File content) →
  Z.of_nat (List.length (chunks content)) < 2 ^ 32 →
  woven cfg 1 hs (chunks content) written trail →
  patch_main cfg disk patch
  = Some (Returned {| fs := <[name := File (concat (written ++ trail))]>
                              (delete (name +:+ ".orig") disk);
                      ret := 0; out := [PatchingFile name] |}).
Proof.
  intros HN Hdry Hchunks Hpre Hold Hnew Hhs Hcons Hname Hlen Hw.
  destruct hs as [|[header_line body] hs]; [done|]. clear Hhs.
  set (r0 := {| fs := disk; ret := 0; out := [] |}).
  assert (Htrail : Z.of_nat (List.length trail) < 2 ^ 32).
  { apply woven_trail_length in Hw. lia. }
  destruct (file_section_woven cfg r0 name content
              header_line body hs written trail HN Hdry Hname Hcons Hw Htrail)
    as (r1 & st1 & Hsec & Hret & Hfs).
  destruct (file_section_woven_out cfg r0 name (File content)
              header_line body hs written trail HN Hdry Hname Hcons Hw)
    as (r1' & st1' & Hsec' & Hout).
  rewrite Hsec in Hsec'. injection Hsec' as <- <-.
  rewrite (patch_main_one_section cfg _ _ _ _ _ _ _ _ Hchunks Hpre Hold Hnew).
  subst r0. rewrite Hsec.
  assert (Hloop : ∀ fuel, file_loop fuel cfg r1 None [] = Some (Returned r1))
    by (by intros [|fuel]).
  rewrite Hloop. destruct r1 as [fs1 ret1 out1]. cbn [fs ret out] in *. by subst.
Qed.

Lemma woven_patch_applies_witness :
  patch_main (forward_at 1) sample_disk sample_patch
  = Some (Returned {| fs := {[ "f" := File (text ["uno"; "eins"; "two"; "three"; "four"]) ]};
                      ret := 0; out := [PatchingFile "f"] |}).
Proof.
  assert (H : <["f" := File (concat (["uno" +:+ nl; "eins" +:+ nl; "two" +:+ nl;
                                       "three" +:+ nl; "four" +:+ nl] ++ []))]>
                (delete ("f" +:+ ".orig") sample_disk)
              = ({[ "f" := File (text ["uno"; "eins"; "two"; "three"; "four"]) ]}
                 : filesystem)) by (vm_compute; reflexivity).
  rewrite <- H.
  apply (woven_patch_applies (forward_at 1) sample_disk sample_patch sample_preamble
           ("--- a/f" +:+ nl) ("+++ b/f" +:+ nl) "f" "f" sample_hunks sample_file
           ["uno" +:+ nl; "eins" +:+ nl; "two" +:+ nl; "three" +:+ nl; "four" +:+ nl] []).
  - reflexivity.
  - reflexivity.
  - vm_compute. reflexivity.
  - repeat constructor.
  - reflexivity.
  - reflexivity.
  - discriminate.
  - vm_compute. reflexivity.
  - reflexivity.
  - vm_compute. reflexivity.
  - exists {| h_src_beg := 1; h_src_last := 2; h_dst_beg := 1; h_dst_last := 3 |},
      [], ["three" +:+ nl; "four" +:+ nl; "five" +:+ nl], ["three" +:+ nl; "four" +:+ nl].
    split; [vm_compute; reflexivity|]. split; [reflexivity|].
    split; [vm_compute; reflexivity|]. split; [vm_compute; reflexivity|].
    exists {| h_src_beg := 4; h_src_last := 2; h_dst_beg := 5; h_dst_last := 1 |},
      ["three" +:+ nl], [], [].
    split; [vm_compute; reflexivity|]. split; [reflexivity|].
    split; [vm_compute; reflexivity|]. split; [vm_compute; reflexivity|].
    split; reflexivity.
Defined.

(** X15: a patch applies only to a target that matches it.  For a patch of
    one file section whose hunks are consistent, when the run returns 0 the
    target was woven from the hunks, and the run has left in it the lines
    that precede each hunk, the lines that the hunk writes and the lines
    that follow the last hunk. *)
Theorem applied_patch_matched cfg disk patch preamble old_line new_line skipped name hs
    content o :
  opt_N cfg = false → opt_dry_run cfg = false →
  chunks patch = preamble ++ old_line :: new_line :: render hs →
  Forall (λ l, extract_filename (chomp l) (patch_level cfg) "--- " = None) preamble →
  extract_filename (chomp old_line) (patch_level cfg) "--- " = Some skipped →
  extract_filename (chomp new_line) (patch_level cfg) "+++ " = Some name →
  hs ≠ [] →
  consistent cfg 1 1 hs = true →
  disk !! name = Some (File content) →
  Z.of_nat (List.length (chunks content)) < 2 ^ 32 →
  patch_main cfg disk patch = Some o →
  exit_status o = 0 →
  ∃ written trail,
    woven cfg 1 hs (chunks content) written trail
    ∧ fs (final o) = <[name := File (concat (written ++ trail))]>
                       (delete (name +:+ ".orig") disk).
Proof.
  intros HN Hdry Hchunks Hpre Hold Hnew Hhs Hcons Hname Hlen Hrun Hstatus.
  assert (Hw : ∃ written trail, woven cfg 1 hs (chunks content) written trail).
  { destruct hs as [|[header_line body] hs]; [done|].
    pose proof Hrun as H.
    rewrite (patch_main_one_section cfg _ _ _ _ _ _ _ _ Hchunks Hpre Hold Hnew) in H.
    unfold file_section in H. cbn [fs out] in H.
    rewrite (open_streams_existing cfg name _ disk Hdry Hname) in H.
    cbn [render xmalloc_fgets] in H.
    destruct (hunk_loop cfg _ header_line (body ++ render hs))
      as [st pl pf|st] eqn:Hloop.
    2:{ injection H as <-. done. }
    destruct (Z.eqb_spec (bad_hunk_count st) 0) as [Hbad|Hbad].
    - by eapply (hunk_loop_woven_inv cfg) in Hloop.
    - apply file_loop_sticky in H; [done|]. unfold finish.
      destruct (copy_trailing_fields st) as (_ & _ & _ & -> & _ & _).
      by replace (bad_hunk_count st =? 0) with false by (symmetry; by apply Z.eqb_neq). }
  destruct Hw as (written & trail & Hw). exists written, trail. split; [done|].
  destruct hs as [|[header_line body] hs]; [done|].
  assert (Htrail : Z.of_nat (List.length trail) < 2 ^ 32).
  { apply woven_trail_length in Hw. lia. }
  destruct (file_section_woven cfg {| fs := disk; ret := 0; out := [] |} name
              content header_line body hs written trail HN Hdry Hname Hcons Hw
              Htrail)
    as (r1 & st1 & Hsec & Hret & Hfs).
  rewrite (patch_main_one_section cfg _ _ _ _ _ _ _ _ Hchunks Hpre Hold Hnew), Hsec
    in Hrun.
  assert (o = Returned r1) as -> by (destruct (_ + _)%nat; by injection Hrun as <-).
  exact Hfs.
Qed.

Lemma applied_patch_matched_witness :
  ∃ written trail,
    woven (forward_at 1) 1 sample_hunks (chunks sample_file) written trail
    ∧ fs (final sample_forward)
      = <["f" := File (concat (written ++ trail))]> (delete ("f" +:+ ".orig") sample_disk).
Proof.
  apply (applied_patch_matched (forward_at 1) sample_disk sample_patch sample_preamble
           ("--- a/f" +:+ nl) ("+++ b/f" +:+ nl) "f" "f" sample_hunks sample_file
           sample_forward).
  - reflexivity.
  - reflexivity.
  - vm_compute. reflexivity.
  - repeat constructor.
  - reflexivity.
  - reflexivity.
  - discriminate.
  - vm_compute. reflexivity.
  - reflexivity.
  - vm_compute. reflexivity.
  - vm_compute. reflexivity.
  - reflexivity.
Defined.

(** ** A file that the patch makes, and one that it removes *)

Lemma edit_loop_adds cfg off sl dl : ∀ body st,
  Forall (λ l, head_char l = plus cfg) body →
  0 ≤ dst_cur_line st →
  dst_cur_line st + Z.of_nat (List.length body) ≤ dl → dl < 2 ^ 32 →
  ∃ st',
    edit_loop cfg off sl dl st body = (st', None, [])
    ∧ src_stream st' = src_stream st
    ∧ dst_stream st' = dst_stream st ++ (tail <$> body)
    ∧ dst_cur_line st' = dst_cur_line st + Z.of_nat (List.length body)
    ∧ same_file st st'.
Proof.
  induction body as [|l body IH]; intros st Hbody Hcur Hdl Hmax.
  - exists st. cbn [edit_loop fmap list_fmap List.length]. rewrite app_nil_r.
    split; [done|]. split; [done|]. split; [done|]. split; [lia|done].
  - apply Forall_cons in Hbody as [Hl Hbody]. cbn [List.length] in Hdl.
    assert (Hstep : edit_step cfg off sl dl st l = Continue (with_dst_write st (tail l))).
    { unfold edit_step, emit.
      assert (l ≠ "") by (intros ->; unfold plus in Hl; by destruct (opt_R cfg)).
      rewrite bool_decide_eq_false_2 by done. rewrite Hl.
      replace (is_edit_char (plus cfg)) with true by (unfold plus; by destruct (opt_R cfg)).
      rewrite bool_decide_eq_true_2 by done. cbn [negb].
      by replace (dst_cur_line st =? dl) with false by (symmetry; apply Z.eqb_neq; lia). }
    cbn [edit_loop]. rewrite Hstep.
    assert (Hnext : dst_cur_line (with_dst_write st (tail l)) = dst_cur_line st + 1).
    { cbn [with_dst_write dst_cur_line]. apply u32_small. unfold unsigned. lia. }
    destruct (IH (with_dst_write st (tail l)) Hbody) as (st' & -> & Hsrc & Hdst & Hc & Hsame);
      [lia | lia | lia |].
    exists st'. split; [done|]. split; [done|].
    split; [by rewrite Hdst; cbn [with_dst_write dst_stream fmap list_fmap];
              rewrite <- app_assoc|].
    split; [rewrite Hc, Hnext; cbn [List.length]; lia|done].
Qed.

(** X16: a patch makes a file.  For a patch of one file section whose
    target is not on the disk and can be made there (its name is a plain
    path, and each directory that leads to it is free or is a directory),
    with one hunk whose source starts at line 0, whose destination starts
    at another line and counts no fewer lines than the body has, and whose
    body is made of lines that add, the run makes the directories that lead
    to the target, leaves in the target the lines of the body less their
    first character, prints the name of the target and returns 0. *)
Theorem new_file_created cfg disk patch preamble old_line new_line skipped name
    header_line h body :
  opt_dry_run cfg = false →
  chunks patch = preamble ++ old_line :: new_line :: header_line :: body →
  Forall (λ l, extract_filename (chomp l) (patch_level cfg) "--- " = None) preamble →
  extract_filename (chomp old_line) (patch_level cfg) "--- " = Some skipped →
  extract_filename (chomp new_line) (patch_level cfg) "+++ " = Some name →
  disk !! name = None →
  can_be_made name disk = true →
  scan_hunk_header header_line = Some h →
  h_src_beg (oriented cfg h) = 0 →
  h_dst_beg (oriented cfg h) ≠ 0 →
  body ≠ [] →
  Forall (λ l, head_char l = plus cfg) body →
  Z.of_nat (List.length body) ≤ h_dst_last (oriented cfg h) →
  patch_main cfg disk patch
  = Some (Returned {| fs := <[name := File (concat (tail <$> body))]>
                              (with_parents name disk);
                      ret := 0; out := [PatchingFile name] |}).
Proof.
  intros Hdry Hchunks Hpre Hold Hnew Hname _ Hscan Hsb Hdb Hbody Hplus Hcount.
  rewrite (patch_main_one_section cfg _ _ _ _ _ _ _ _ Hchunks Hpre Hold Hnew).
  unfold file_section. cbn [fs ret out].
  assert (Hopen : open_streams cfg name disk
                  = (<[name := File ""]> (with_parents name disk), None, None)).
  { unfold open_streams. by rewrite Hname, Hdry. }
  rewrite Hopen. cbn [xmalloc_fgets app].
  set (st0 := initial_state None [PatchingFile name]).
  rewrite hunk_loop_eq, Hscan.
  destruct (scan_hunk_header_unsigned _ _ Hscan) as (_ & Hsl & _ & Hdl).
  destruct (oriented_unsigned cfg h Hsl Hdl) as [_ Hdl'].
  assert (Hbegin : hunk_begin st0 (oriented cfg h)
                   = inr (with_header st0 (h_dst_beg (oriented cfg h)), 1,
                          u32 (h_src_last (oriented cfg h) + 1),
                          h_dst_last (oriented cfg h))).
  { unfold hunk_begin. rewrite Hsb. cbn [Z.eqb negb andb].
    cbn [with_header st0 initial_state src_cur_line dst_cur_line].
    by rewrite Z.add_0_r, (u32_small _ Hdl'). }
  rewrite Hbegin.
  destruct (edit_loop_adds cfg 1 (u32 (h_src_last (oriented cfg h) + 1))
              (h_dst_last (oriented cfg h)) body
              (with_header st0 (h_dst_beg (oriented cfg h))) Hplus)
    as (st' & -> & Hsrc & Hdst & Hcur & Hbeg & Hbad & _ & Hflag & Hlog);
    [done | cbn; lia | apply Hdl' |].
  assert (Hloop : ∀ fuel r, file_loop fuel cfg r None [] = Some (Returned r))
    by (by intros [|fuel]).
  rewrite Hloop. do 2 f_equal.
  unfold finish, copy_trailing, flush_dst, fclose_written.
  rewrite Hflag. cbn [with_header st0 initial_state copy_trailing_lines_flag].
  rewrite Hbad, Hdry, Hbeg, Hcur, Hdst, Hlog.
  cbn [with_header st0 initial_state copy_trailing_lines_flag bad_hunk_count dst_beg_line
       dst_cur_line dst_stream log Z.eqb negb andb app].
  replace (0 + Z.of_nat (List.length body) =? 0) with false
    by (symmetry; apply Z.eqb_neq; destruct body; [done|cbn [List.length]; lia]).
  replace (h_dst_beg (oriented cfg h) =? 0) with false by (symmetry; by apply Z.eqb_neq).
  cbn [orb]. by rewrite insert_insert_eq.
Qed.

Lemma new_file_created_witness :
  patch_main forward ∅ new_file_patch
  = Some (Returned {| fs := {[ "d/f" := File (text ["x"]); "d" := Dir ]};
                      ret := 0; out := [PatchingFile "d/f"] |}).
Proof.
  assert (H : <["d/f" := File (concat (tail <$> ["+x" +:+ nl]))]> (with_parents "d/f" ∅)
              = ({[ "d/f" := File (text ["x"]); "d" := Dir ]} : filesystem))
    by (vm_compute; reflexivity).
  rewrite <- H.
  apply (new_file_created forward ∅ new_file_patch [] ("--- a/d/f" +:+ nl)
           ("+++ b/d/f" +:+ nl) "d/f" "d/f" ("@@ -0,0 +1 @@" +:+ nl)
           {| h_src_beg := 0; h_src_last := 0; h_dst_beg := 1; h_dst_last := 1 |}
           ["+x" +:+ nl]).
  - reflexivity.
  - vm_compute. reflexivity.
  - constructor.
  - reflexivity.
  - reflexivity.
  - reflexivity.
  - vm_compute. reflexivity.
  - vm_compute. reflexivity.
  - reflexivity.
  - discriminate.
  - discriminate.
  - repeat constructor.
  - vm_compute. discriminate.
Defined.

Lemma edit_loop_removes cfg off sl dl : ∀ body st rest,
  Forall (λ l, head_char l = minus cfg) body →
  src_stream st = Some ((tail <$> body) ++ rest) →
  0 ≤ src_cur_line st →
  src_cur_line st + Z.of_nat (List.length body) ≤ sl → sl < 2 ^ 32 →
  ∃ st',
    edit_loop cfg off sl dl st body = (st', None, [])
    ∧ src_stream st' = Some rest
    ∧ dst_stream st' = dst_stream st
    ∧ dst_cur_line st' = dst_cur_line st
    ∧ same_file st st'.
Proof.
  induction body as [|l body IH]; intros st rest Hbody Hsrc Hcur Hsl Hmax.
  - exists st. by cbn [edit_loop].
  - apply Forall_cons in Hbody as [Hl Hbody]. cbn [List.length] in Hsl.
    cbn [fmap list_fmap app] in Hsrc.
    assert (Hstep : edit_step cfg off sl dl st l
                    = Continue (with_src_read st ((tail <$> body) ++ rest))).
    { unfold edit_step, read_src, streq.
      assert (l ≠ "") by (intros ->; unfold minus in Hl; by destruct (opt_R cfg)).
      rewrite bool_decide_eq_false_2 by done. rewrite Hl, Hsrc.
      replace (is_edit_char (minus cfg)) with true by (unfold minus; by destruct (opt_R cfg)).
      rewrite (bool_decide_eq_false_2 (minus cfg = plus cfg))
        by (unfold minus, plus; by destruct (opt_R cfg)).
      rewrite (bool_decide_eq_false_2 (minus cfg = " "%char))
        by (unfold minus; by destruct (opt_R cfg)).
      rewrite bool_decide_eq_true_2 by done. cbn [negb andb].
      by replace (src_cur_line st =? sl) with false by (symmetry; apply Z.eqb_neq; lia). }
    cbn [edit_loop]. rewrite Hstep.
    assert (Hnext : src_cur_line (with_src_read st ((tail <$> body) ++ rest))
                    = src_cur_line st + 1).
    { cbn [with_src_read src_cur_line]. apply u32_small. unfold unsigned. lia. }
    destruct (IH (with_src_read st ((tail <$> body) ++ rest)) rest Hbody)
      as (st' & -> & Hsrc' & Hdst & Hc & Hsame); [done | lia | lia | lia |].
    by exists st'.
Qed.

(** X17: a patch removes a file.  For a patch of one file section whose
    target is a file on the disk, with one hunk whose destination starts at
    line 0, whose source counts no fewer lines than the body has, and whose
    body is made of lines that remove, when the file starts with the lines
    of the body less their first character the run removes the target and
    the backup that it has made, prints the name of the target and
    returns 0.  The lines of the file that follow those of the body are
    lost with it. *)
Theorem emptied_file_removed cfg disk patch preamble old_line new_line skipped name
    header_line h body content rest :
  opt_dry_run cfg = false →
  chunks patch = preamble ++ old_line :: new_line :: header_line :: body →
  Forall (λ l, extract_filename (chomp l) (patch_level cfg) "--- " = None) preamble →
  extract_filename (chomp old_line) (patch_level cfg) "--- " = Some skipped →
  extract_filename (chomp new_line) (patch_level cfg) "+++ " = Some name →
  disk !! name = Some (File content) →
  chunks content = (tail <$> body) ++ rest →
  scan_hunk_header header_line = Some h →
  h_dst_beg (oriented cfg h) = 0 →
  Forall (λ l, head_char l = minus cfg) body →
  Z.of_nat (List.length body) ≤ h_src_last (oriented cfg h) →
  h_src_last (oriented cfg h) + 1 < 2 ^ 32 →
  patch_main cfg disk patch
  = Some (Returned {| fs := delete name (delete (name +:+ ".orig") disk);
                      ret := 0; out := [PatchingFile name] |}).
Proof.
  intros Hdry Hchunks Hpre Hold Hnew Hname Hcontent Hscan Hdb Hminus Hcount Hmax.
  rewrite (patch_main_one_section cfg _ _ _ _ _ _ _ _ Hchunks Hpre Hold Hnew).
  unfold file_section. cbn [fs ret out].
  rewrite (open_streams_existing cfg name _ disk Hdry Hname).
  cbn [xmalloc_fgets app node_lines]. rewrite Hcontent.
  set (st0 := initial_state _ [PatchingFile name]).
  rewrite hunk_loop_eq, Hscan.
  destruct (scan_hunk_header_unsigned _ _ Hscan) as (_ & Hsl & _ & Hdl).
  destruct (oriented_unsigned cfg h Hsl Hdl) as [Hsl' Hdl'].
  assert (Hbegin : hunk_begin st0 (oriented cfg h)
                   = inr (with_header st0 0, 1, h_src_last (oriented cfg h) + 1,
                          h_dst_last (oriented cfg h))).
  { unfold hunk_begin. rewrite Hdb. cbn [Z.eqb negb andb]. rewrite andb_false_r.
    cbn [with_header st0 initial_state src_cur_line dst_cur_line].
    rewrite Z.add_0_r, (u32_small _ Hdl'). do 3 f_equal.
    apply u32_small. unfold unsigned in *. lia. }
  rewrite Hbegin.
  destruct (edit_loop_removes cfg 1 (h_src_last (oriented cfg h) + 1)
              (h_dst_last (oriented cfg h)) body (with_header st0 0) rest Hminus)
    as (st' & -> & Hsrc & Hdst & Hcur & Hbeg & Hbad & _ & Hflag & Hlog);
    [done | cbn; lia | cbn; lia | done |].
  assert (Hloop : ∀ fuel r, file_loop fuel cfg r None [] = Some (Returned r))
    by (by intros [|fuel]).
  rewrite Hloop. do 2 f_equal.
  unfold finish, copy_trailing, flush_dst, fclose_written.
  rewrite Hflag. cbn [with_header st0 initial_state copy_trailing_lines_flag].
  rewrite Hbad, Hdry, Hbeg, Hcur, Hdst, Hlog.
  cbn [with_header st0 initial_state copy_trailing_lines_flag bad_hunk_count dst_beg_line
       dst_cur_line dst_stream log Z.eqb negb andb orb app concat].
  f_equal. pose proof (orig_neq name) as Hne.
  assert (Hne' : name ≠ name +:+ ".orig") by exact (λ H, Hne (eq_sym H)).
  rewrite (unlink_file (name +:+ ".orig") content)
    by (rewrite !lookup_insert_ne by done; apply lookup_insert_eq).
  rewrite (unlink_file name "")
    by (rewrite lookup_delete_ne by done; apply lookup_insert_eq).
  apply map_eq. intros p.
  destruct (decide (p = name)) as [->|Hp]; [by rewrite !lookup_delete_eq|].
  rewrite !(lookup_delete_ne _ name) by done.
  destruct (decide (p = name +:+ ".orig")) as [->|Hp']; [by rewrite !lookup_delete_eq|].
  rewrite !lookup_delete_ne, !lookup_insert_ne, lookup_delete_ne by done. done.
Qed.

Lemma emptied_file_removed_witness :
  patch_main (forward_at 0) {[ "f" := File (text ["a"; "b"; "c"]) ]}
    (text ["--- other"; "+++ f"; "@@ -1,2 +0,0 @@"; "-a"; "-b"])
  = Some (Returned {| fs := delete "f" (delete ("f" +:+ ".orig")
                                          {[ "f" := File (text ["a"; "b"; "c"]) ]});
                      ret := 0; out := [PatchingFile "f"] |}).
Proof.
  apply (emptied_file_removed (forward_at 0) {[ "f" := File (text ["a"; "b"; "c"]) ]}
           (text ["--- other"; "+++ f"; "@@ -1,2 +0,0 @@"; "-a"; "-b"])
           [] ("--- other" +:+ nl) ("+++ f" +:+ nl) "other" "f" ("@@ -1,2 +0,0 @@" +:+ nl)
           {| h_src_beg := 1; h_src_last := 2; h_dst_beg := 0; h_dst_last := 0 |}
           ["-a" +:+ nl; "-b" +:+ nl] (text ["a"; "b"; "c"]) ["c" +:+ nl]).
  - reflexivity.
  - vm_compute. reflexivity.
  - constructor.
  - reflexivity.
  - reflexivity.
  - reflexivity.
  - vm_compute. reflexivity.
  - vm_compute. reflexivity.
  - reflexivity.
  - repeat constructor.
  - vm_compute. discriminate.
  - reflexivity.
Defined.

(** ** What the dry run tells *)





Lemma dry_run_only_adds_directories_witness :
  let cfg := dry_run_of forward in
  let disk : filesystem := {[ "f" := File (text ["foo"; "baz"]) ]} in
  ∃ o, patch_main cfg disk (scenario_patch +:+ new_file_patch) = Some o
       ∧ fs (final o) = {[ "f" := File (text ["foo"; "baz"]); "d" := Dir ]}
       ∧ only_dirs_added disk (fs (final o)).
Proof.
  intros cfg disk.
  destruct (patch_main cfg disk (scenario_patch +:+ new_file_patch)) as [o|] eqn:E;
    [|vm_compute in E; discriminate].
  exists o. split; [reflexivity|].
  pose proof (dry_run_only_adds_directories cfg disk (scenario_patch +:+ new_file_patch)
                o eq_refl E) as H.
  vm_compute in E. injection E as <-. split; [vm_compute; reflexivity|]. exact H.
Defined.

(** ** A file section that applies, and the rest of the patch *)

Lemma edit_step_logged cfg off sl dl msgs st l :
  edit_step cfg off sl dl (logged_before msgs st) l
  = match edit_step cfg off sl dl st l with
    | Continue st' => Continue (logged_before msgs st')
    | Break st' pl => Break (logged_before msgs st') pl
    end.
Proof.
  unfold edit_step, emit, read_src.
  cbn [logged_before src_cur_line dst_cur_line src_stream].
  destruct (negb (is_edit_char _)); [reflexivity|].
  destruct (negb (bool_decide _)).
  - destruct (src_cur_line st =? sl); [reflexivity|].
    destruct (src_stream st) as [[|x rest]|]; cbn [negb andb].
    1, 3: destruct (opt_N cfg); [reflexivity|]; unfold with_failure, logged_before; cbn;
      by rewrite app_assoc.
    destruct (streq x _); cbn [negb andb].
    + destruct (negb (bool_decide _)); [reflexivity|].
      cbn [with_src_read logged_before dst_cur_line].
      destruct (dst_cur_line st =? dl); reflexivity.
    + destruct (opt_N cfg); [reflexivity|]. unfold with_failure, logged_before; cbn.
      by rewrite app_assoc.
  - destruct (dst_cur_line st =? dl); reflexivity.
Qed.

Lemma edit_loop_logged cfg off sl dl msgs pf : ∀ st,
  edit_loop cfg off sl dl (logged_before msgs st) pf
  = (let '(st', pl, pf') := edit_loop cfg off sl dl st pf in
     (logged_before msgs st', pl, pf')).
Proof.
  induction pf as [|l pf IH]; intros st; [done|]. cbn [edit_loop].
  rewrite edit_step_logged.
  destruct (edit_step cfg off sl dl st l) as [st'|st' pl]; [apply IH|done].
Qed.

Lemma hunk_begin_logged msgs st h :
  hunk_begin (logged_before msgs st) h
  = match hunk_begin st h with
    | inl st' => inl (logged_before msgs st')
    | inr (st', off, sl, dl) => inr (logged_before msgs st', off, sl, dl)
    end.
Proof.
  unfold hunk_begin.
  cbn [logged_before with_header src_cur_line dst_cur_line src_stream dst_stream].
  destruct (negb (h_src_beg h =? 0) && negb (h_dst_beg h =? 0)); [|done].
  destruct (copy_lines _ _ _) as [[src dst] remaining].
  destruct (negb (remaining =? 0)); [|done].
  unfold with_message, with_streams, logged_before; cbn. by rewrite app_assoc.
Qed.

Lemma hunk_loop_logged cfg msgs pf : ∀ st pl,
  hunk_loop cfg (logged_before msgs st) pl pf
  = match hunk_loop cfg st pl pf with
    | HunksDone st' pl' pf' => HunksDone (logged_before msgs st') pl' pf'
    | HunksDied st' => HunksDied (logged_before msgs st')
    end.
Proof.
  remember (List.length pf) as n eqn:Hn.
  assert (Hle : (List.length pf ≤ n)%nat) by lia. clear Hn. revert pf Hle.
  induction n as [n IH] using lt_wf_ind. intros pf Hle st pl.
  rewrite (hunk_loop_eq cfg (logged_before msgs st)), (hunk_loop_eq cfg st).
  destruct (scan_hunk_header pl) as [h|]; [|done].
  rewrite hunk_begin_logged.
  destruct (hunk_begin st (oriented cfg h)) as [st1|[[[st1 off] sl] dl]]; [done|].
  rewrite edit_loop_logged.
  destruct (edit_loop cfg off sl dl st1 pf) as [[st2 [pl2|]] pf2] eqn:He; [|done].
  apply edit_loop_length in He. apply (IH (List.length pf2)); lia.
Qed.

Lemma file_section_printed cfg msgs r name pf :
  file_section cfg (printed_before msgs r) name pf
  = match file_section cfg r name pf with
    | SectionDone r' st pl' pf' =>
        SectionDone (printed_before msgs r') (logged_before msgs st) pl' pf'
    | SectionDied r' => SectionDied (printed_before msgs r')
    end.
Proof.
  unfold file_section. cbn [printed_before fs ret out].
  destruct (open_streams cfg name (fs r)) as [[fs0 src] backup].
  assert (Hinit : initial_state src ((msgs ++ out r) ++ [PatchingFile name])
                  = logged_before msgs (initial_state src (out r ++ [PatchingFile name]))).
  { unfold initial_state, logged_before; cbn. by rewrite app_assoc. }
  rewrite Hinit.
  destruct (xmalloc_fgets pf) as [[line pf1]|].
  - rewrite hunk_loop_logged.
    destruct (hunk_loop cfg _ line pf1) as [st pl' pf'|st]; [|done].
    f_equal. unfold finish, copy_trailing, flush_dst, printed_before.
    cbn [logged_before copy_trailing_lines_flag src_stream dst_stream].
    destruct (copy_trailing_lines_flag st).
    + destruct (copy_lines _ _ _) as [[src' dst'] remaining]. cbn.
      destruct (negb (bad_hunk_count st =? 0)); cbn; [by rewrite app_assoc|done].
    + cbn. destruct (negb (bad_hunk_count st =? 0)); cbn; [by rewrite app_assoc|done].
  - done.
Qed.

Lemma file_loop_printed cfg msgs : ∀ fuel r pl pf,
  file_loop fuel cfg (printed_before msgs r) pl pf
  = after msgs <$> file_loop fuel cfg r pl pf.
Proof.
  induction fuel as [|fuel IH]; intros r pl pf;
    (destruct pl as [pl|]; cbn [file_loop]; [|done]);
    (destruct (seek_old cfg pl pf) as [[pl1 pf1]|]; [|done]);
    (destruct (extract_filename pl1 (patch_level cfg) "+++ ") as [name|];
       [|cbn; unfold printed_before; cbn; by rewrite app_assoc]);
    rewrite file_section_printed;
    (destruct (file_section cfg r name pf1) as [r' st pl2 pf2|r']; [|done]).
  - done.
  - apply IH.
Qed.

Lemma cut_chomp (l : string) : cut_at_tab_nl_cr (chomp l) = cut_at_tab_nl_cr l.
Proof.
  induction l as [|c l IH]; [done|]. destruct l as [|c' l].
  - cbn [chomp]. case_bool_decide as Hc; [subst c; reflexivity|done].
  - change (chomp (String c (String c' l))) with (String c (chomp (String c' l))).
    assert (Hcons : ∀ s, cut_at_tab_nl_cr (String c s)
                         = if bool_decide (c = tab) || bool_decide (c = newline)
                              || bool_decide (c = cr)
                           then "" else String c (cut_at_tab_nl_cr s)) by done.
    rewrite (Hcons (chomp _)), (Hcons (String c' l)), IH. done.
Qed.

Lemma extract_filename_chomp (l : string) (level : Z) :
  extract_filename (chomp l) level "--- " = extract_filename l level "--- ".
Proof.
  unfold extract_filename. rewrite cut_chomp.
  assert (H : strneq4 (chomp l) "--- " = strneq4 l "--- "); [|by rewrite H].
  unfold strneq4, streq.
  destruct l as [|c1 [|c2 [|c3 [|c4 [|c5 l]]]]]; cbn [chomp str_take];
    repeat (case_bool_decide; simplify_eq; try done).
Qed.

Lemma seek_old_chomp cfg (l : string) (pf : stream) :
  seek_old cfg (chomp l) pf = seek_old cfg l pf.
Proof. destruct pf as [|line pf]; [done|]. cbn [seek_old]. by rewrite extract_filename_chomp. Qed.

(** A section of consistent hunks on a target that is woven from them,
    when lines follow the hunks of which the first is no header. *)
(** X20: after a file section that applies, the rest of the patch is
    handled as a patch of its own.  For a patch that starts with a file
    section whose hunks are consistent and whose target is woven from
    them, followed by the lines of a text of which the first is no hunk
    header, the run is the run of that text on the disk that the section
    leaves, after the name of the target is printed. *)
Theorem section_then_rest cfg disk patch rest preamble old_line new_line skipped name hs
    content written trail :
  opt_N cfg = false → opt_dry_run cfg = false →
  chunks patch = preamble ++ old_line :: new_line :: render hs ++ chunks rest →
  Forall (λ l, extract_filename (chomp l) (patch_level cfg) "--- " = None) preamble →
  extract_filename (chomp old_line) (patch_level cfg) "--- " = Some skipped →
  extract_filename (chomp new_line) (patch_level cfg) "+++ " = Some name →
  hs ≠ [] →
  consistent cfg 1 1 hs = true →
  disk !! name = Some (File content) →
  Z.of_nat (List.length (chunks content)) < 2 ^ 32 →
  woven cfg 1 hs (chunks content) written trail →
  from_option (λ l, scan_hunk_header l = None) True (head (chunks rest)) →
  patch_main cfg disk patch
  = after [PatchingFile name]
      <$> patch_main cfg (<[name := File (concat (written ++ trail))]>
                            (delete (name +:+ ".orig") disk)) rest.
Proof.
  intros HN Hdry Hchunks Hpre Hold Hnew Hhs Hcons Hname Hlen Hw Hrest.
  destruct hs as [|[header_line body] hs]; [done|]. clear Hhs.
  assert (Htrail : Z.of_nat (List.length trail) < 2 ^ 32).
  { apply woven_trail_length in Hw. lia. }
  assert (Hmore : from_option (λ l, l ≠ "" ∧ scan_hunk_header l = None) True
                    (head (chunks rest))).
  { pose proof (chunks_nonempty rest) as Hne.
    destruct (chunks rest) as [|l more']; [done|]. cbn [head from_option] in *.
    split; [|done]. intros ->. apply Hne. by left. }
  set (disk' := <[name := File (concat (written ++ trail))]>
                  (delete (name +:+ ".orig") disk)).
  destruct (file_section_woven_more cfg {| fs := disk; ret := 0; out := [] |} name
              content header_line body hs written trail (chunks rest)
              HN Hdry Hname Hcons Hw Htrail Hmore) as (st & Hsec & _).
  rewrite (patch_main_one_section cfg _ _ _ _ _ _ _ _ Hchunks Hpre Hold Hnew), Hsec.
  cbn [fs ret out app]. fold disk'.
  change {| fs := disk'; ret := 0; out := [PatchingFile name] |}
    with (printed_before [PatchingFile name] {| fs := disk'; ret := 0; out := [] |}).
  rewrite file_loop_printed. f_equal. unfold patch_main.
  set (r := {| fs := disk'; ret := 0; out := [] |}).
  destruct (chunks rest) as [|l more']; cbn [head drop xmalloc_fgetline].
  - by destruct (_ + _)%nat.
  - rewrite (file_loop_seek cfg _ r (chomp l) more' l more') by apply seek_old_chomp.
    destruct (file_loop_returns (List.length more') cfg r (Some l) more') as [o Ho];
      [done|].
    rewrite Ho. apply (file_loop_fuel cfg (List.length more')); [done|].
    cbn [render List.length]. rewrite !length_app. cbn [List.length]. lia.
Qed.

Lemma section_then_rest_witness :
  let disk : filesystem := {[ "f" := File (text ["a"]); "g" := File (text ["b"]) ]} in
  let rest := text ["--- a/g"; "+++ b/g"; "@@ -1,1 +1,1 @@"; "-b"; "+B"] in
  let patch := text ["--- a/f"; "+++ b/f"; "@@ -1,1 +1,1 @@"; "-a"; "+A"] +:+ rest in
  patch_main forward disk patch
  = after [PatchingFile "f"]
      <$> patch_main forward (<["f" := File (concat (["A" +:+ nl] ++ []))]>
                                (delete ("f" +:+ ".orig") disk)) rest
  ∧ patch_main forward disk patch
    = Some (Returned {| fs := {[ "f" := File (text ["A"]); "g" := File (text ["B"]) ]};
                        ret := 0; out := [PatchingFile "f"; PatchingFile "g"] |}).
Proof.
  intros disk rest patch. split; [|vm_compute; reflexivity].
  apply (section_then_rest forward disk patch rest [] ("--- a/f" +:+ nl)
           ("+++ b/f" +:+ nl) "f" "f" [("@@ -1,1 +1,1 @@" +:+ nl, ["-a" +:+ nl; "+A" +:+ nl])]
           (text ["a"]) ["A" +:+ nl] []).
  - reflexivity.
  - reflexivity.
  - vm_compute. reflexivity.
  - constructor.
  - reflexivity.
  - reflexivity.
  - discriminate.
  - vm_compute. reflexivity.
  - reflexivity.
  - vm_compute. reflexivity.
  - exists {| h_src_beg := 1; h_src_last := 1; h_dst_beg := 1; h_dst_last := 1 |},
      [], [], [].
    split; [vm_compute; reflexivity|]. split; [reflexivity|].
    split; [vm_compute; reflexivity|]. split; [vm_compute; reflexivity|].
    split; reflexivity.
  - vm_compute. reflexivity.
Defined.

(** ** The order of the hunks *)

(** X21: the hunks of a file are taken in the order of the file.  A hunk
    whose two starts are not 0 and whose source start is before the line
    that the source has reached asks for a copy of a number of lines that
    wraps around: unless the source holds that many lines, some four
    thousand million, the run exits with "bad src file". *)
Theorem hunk_out_of_order_exits cfg st pl pf h :
  scan_hunk_header pl = Some h →
  unsigned (src_cur_line st) →
  0 < h_src_beg (oriented cfg h) < src_cur_line st →
  h_dst_beg (oriented cfg h) ≠ 0 →
  Z.of_nat (List.length (src_lines st))
    < 2 ^ 32 - (src_cur_line st - h_src_beg (oriented cfg h)) →
  ∃ st', hunk_loop cfg st pl pf = HunksDied st'
         ∧ log st' = log st ++ [BadSrcFile].
Proof.
  intros Hscan Hcur Hbeg Hdst Hlen.
  apply (short_source_exits cfg st pl pf h Hscan Hcur); [lia|done|].
  unfold u32, unsigned in *.
  replace (h_src_beg (oriented cfg h) - src_cur_line st)
    with (2 ^ 32 - (src_cur_line st - h_src_beg (oriented cfg h)) + (-1) * 2 ^ 32) by lia.
  rewrite Z.mod_add by lia. rewrite Z.mod_small by lia. lia.
Qed.

Lemma hunk_out_of_order_exits_witness :
  let st := with_copy (initial_state (Some ["d" +:+ nl]) []) (Some ["d" +:+ nl]) [] 3 in
  src_cur_line st = 4
  ∧ ∃ st', hunk_loop forward st ("@@ -2,1 +2,1 @@" +:+ nl) ["-b" +:+ nl; "+B" +:+ nl]
           = HunksDied st'
           ∧ log st' = log st ++ [BadSrcFile].
Proof.
  intros st. split; [reflexivity|].
  apply (hunk_out_of_order_exits forward st ("@@ -2,1 +2,1 @@" +:+ nl)
           ["-b" +:+ nl; "+B" +:+ nl]
           {| h_src_beg := 2; h_src_last := 1; h_dst_beg := 2; h_dst_last := 1 |}).
  - vm_compute. reflexivity.
  - vm_compute. split; [discriminate|reflexivity].
  - vm_compute. split; reflexivity.
  - discriminate.
  - vm_compute. reflexivity.
Defined.

(** ** The name of the old file *)

(** X22: the name of the old file is not used.  In a patch whose first
    line with the marker of an old file is replaced by another line with
    that marker, the run is the same. *)
Theorem old_name_unused cfg disk patch patch' preamble old_line old_line' rest :
  chunks patch = preamble ++ old_line :: rest →
  chunks patch' = preamble ++ old_line' :: rest →
  Forall (λ l, extract_filename (chomp l) (patch_level cfg) "--- " = None) preamble →
  is_Some (extract_filename (chomp old_line) (patch_level cfg) "--- ") →
  is_Some (extract_filename (chomp old_line') (patch_level cfg) "--- ") →
  patch_main cfg disk patch = patch_main cfg disk patch'.
Proof.
  intros Hc Hc' Hpre [name Hold] [name' Hold']. unfold patch_main. rewrite Hc, Hc'.
  set (r := {| fs := disk; ret := 0; out := [] |}).
  assert (Hseek : ∀ line skipped,
    extract_filename (chomp line) (patch_level cfg) "--- " = Some skipped →
    seek_old cfg (chomp line) rest
    = match rest with
      | [] => None
      | next :: rest' => Some (chomp next, rest')
      end).
  { intros line skipped H. destruct rest as [|next rest']; [done|].
    cbn [seek_old]. by rewrite H. }
  destruct preamble as [|first preamble]; cbn [app xmalloc_fgetline].
  - apply file_loop_seek. by rewrite (Hseek _ _ Hold), (Hseek _ _ Hold').
  - rewrite !length_app. cbn [List.length]. apply file_loop_seek.
    rewrite !(seek_old_skips cfg _ preamble first Hpre).
    by rewrite (Hseek _ _ Hold), (Hseek _ _ Hold').
Qed.

Lemma old_name_unused_witness :
  patch_main forward scenario_B_disk
    (text ["--- some/other/name"; "+++ b/f"; "@@ -1,2 +1,2 @@"; "-foo"; "+bar"; " baz"])
  = patch_main forward scenario_B_disk scenario_patch.
Proof.
  apply (old_name_unused forward scenario_B_disk _ scenario_patch []
           ("--- some/other/name" +:+ nl) ("--- a/f" +:+ nl)
           (chunks (text ["+++ b/f"; "@@ -1,2 +1,2 @@"; "-foo"; "+bar"; " baz"]))).
  - vm_compute. reflexivity.
  - vm_compute. reflexivity.
  - constructor.
  - by eexists.
  - by eexists.
Defined.
